(** * SOC Assistant: the pipeline core, embedded and verified

    A shallow embedding of the data-handling core of the SOC Assistant
    (utils/feature_engineering.py, utils/recommendations.py, api/abuseipdb.py,
    api/virustotal.py and the labelling and top-K code of app.py), with the
    properties of the written specification stated and settled against it;
    then the enrichment loop of app.py, the text and summary helpers of
    utils/reporting.py, the explanation of model/predict.py and the label
    codes of model/train_model.py, with further properties of all of these.

    Tables are pandas DataFrames: an index length and an ordered list of
    labelled columns.  Labels may repeat (pandas allows it and the
    canonicalizer can produce it), so columns are an association list and not
    a finite map.  The provider caches and the store of Python objects are
    finite maps. *)

From Stdlib Require Import ZArith QArith Lia Bool List Ascii String.
From Stdlib Require Import Floats.
From stdpp Require Import base option list sorting gmap strings pretty.

Local Open Scope string_scope.
Local Open Scope list_scope.

(** ** Tables *)

(** A cell of a table.  [CNull] is pandas' missing value (NaN / None);
    [CFrame] is a nested frame object, which [df[label]] yields when the label
    is carried by several columns. *)
Inductive cell : Type :=
| CStr (s : string)
| CInt (z : Z)
| CNull
| CFrame.

Record DataFrame : Type := mkDF {
  index_len : nat;
  columns : list (string * list cell)
}.

Definition names (df : DataFrame) : list string := map fst (columns df).

(** [len(df)] *)
Definition df_len (df : DataFrame) : nat := index_len df.

(** [df.empty]: some axis has length zero. *)
Definition df_empty (df : DataFrame) : bool :=
  match index_len df, columns df with
  | O, _ => true
  | _, [] => true
  | _, _ => false
  end.

(** [label in df.columns] *)
Definition has_column (label : string) (df : DataFrame) : bool :=
  existsb (String.eqb label) (names df).

(** [df.rename(columns=f)] for a total relabelling [f]: data and order stay. *)
Definition rename_with (f : string -> string) (df : DataFrame) : DataFrame :=
  mkDF (index_len df) (map (fun c => (f (fst c), snd c)) (columns df)).

(** [df.rename(columns={old: new})]: every column labelled [old] is
    relabelled, the others are kept. *)
Definition rename_one (old new : string) (df : DataFrame) : DataFrame :=
  rename_with (fun n => if String.eqb n old then new else n) df.

Definition same_label (label : string) (c : string * list cell) : bool :=
  String.eqb (fst c) label.

(** The columns of [df] that carry [label], in order. *)
Definition select (label : string) (df : DataFrame) : list (string * list cell) :=
  List.filter (same_label label) (columns df).

(** [df[label]]: a KeyError, one column as a Series, or a sub-frame when the
    label is carried by several columns. *)
Inductive item : Type :=
| KeyError
| Series (values : list cell)
| Frame (cols : list (string * list cell)).

Definition getitem (df : DataFrame) (label : string) : item :=
  match select label df with
  | [] => KeyError
  | [c] => Series (snd c)
  | cs => Frame cs
  end.

Definition fill_cell (v c : cell) : cell :=
  match c with
  | CNull => v
  | _ => c
  end.

(** Every column is as long as the index. *)
Definition rectangular (df : DataFrame) : Prop :=
  Forall (fun c => length (snd c) = index_len df) (columns df).

(** [series.fillna(v)] *)
Definition fillna_series (v : cell) (values : list cell) : list cell :=
  map (fill_cell v) values.

(** ** Schema canonicalizer (utils/feature_engineering.py) *)

Module Canon.

(** Characters removed by [str.strip()]; on ASCII these are the code points
    9-13, 28-31 and 32.  Labels are modelled as ASCII strings: code points
    above 127 are left as they are by every step below. *)
Definition is_space (c : ascii) : bool :=
  let n := nat_of_ascii c in
  ((9 <=? n) && (n <=? 13) || (28 <=? n) && (n <=? 32))%nat.

Fixpoint lstrip (s : string) : string :=
  match s with
  | String c s' => if is_space c then lstrip s' else s
  | EmptyString => EmptyString
  end.

Fixpoint rstrip (s : string) : string :=
  match s with
  | String c s' =>
      match rstrip s' with
      | EmptyString => if is_space c then EmptyString else String c EmptyString
      | r => String c r
      end
  | EmptyString => EmptyString
  end.

Definition strip (s : string) : string := rstrip (lstrip s).

Definition lower_char (c : ascii) : ascii :=
  let n := nat_of_ascii c in
  if ((65 <=? n) && (n <=? 90))%nat then ascii_of_nat (n + 32) else c.

Fixpoint map_chars (f : ascii -> ascii) (s : string) : string :=
  match s with
  | String c s' => String (f c) (map_chars f s')
  | EmptyString => EmptyString
  end.

Definition lower (s : string) : string := map_chars lower_char s.

(** [s.replace(old, new)] for one-character [old] and [new]. *)
Definition replace_char (old new : ascii) (s : string) : string :=
  map_chars (fun c => if Ascii.eqb c old then new else c) s.

(** [str(c).strip().lower().replace(" ", "_").replace("-", "_")] *)
Definition normalize (c : string) : string :=
  replace_char "-" "_" (replace_char " " "_" (lower (strip c))).

(** The alias table, in the insertion order that [ALIASES.items()] iterates. *)
Definition ALIASES : list (string * string) :=
  [ ("@timestamp", "timestamp");
    ("time", "timestamp");
    ("date", "timestamp");
    ("datetime", "timestamp");
    ("date_time", "timestamp");
    ("event_time", "timestamp");
    ("event_time_utc", "timestamp");
    ("timestamp_utc", "timestamp");
    ("timecreated", "timestamp");
    ("eventreceivedtime", "timestamp");
    ("event_received_time", "timestamp");
    ("log_time", "timestamp");
    ("logtime", "timestamp");
    ("created", "timestamp");
    ("recorded_time", "timestamp");
    ("recordtime", "timestamp");
    ("src", "source_ip");
    ("src_ip", "source_ip");
    ("sip", "source_ip");
    ("source", "source_ip");
    ("sourceaddress", "source_ip");
    ("source_address", "source_ip");
    ("dst", "destination_ip");
    ("dst_ip", "destination_ip");
    ("dip", "destination_ip");
    ("destination", "destination_ip");
    ("destinationaddress", "destination_ip");
    ("destination_address", "destination_ip");
    ("event", "event_type");
    ("eventid", "event_type");
    ("event_id", "event_type");
    ("eventtype", "event_type");
    ("eventname", "event_type");
    ("event_name", "event_type");
    ("eventcode", "event_type");
    ("event_code", "event_type");
    ("provider", "event_type");
    ("task", "event_type");
    ("opcode", "event_type");
    ("user", "username");
    ("user_name", "username");
    ("useraccount", "username");
    ("user_account", "username");
    ("account", "username");
    ("accountname", "username");
    ("account_name", "username");
    ("subjectusername", "username");
    ("subject_user_name", "username");
    ("logon_account", "username");
    ("result", "status");
    ("outcome", "status");
    ("action", "status") ].

(** One turn of the alias loop:
    [if alias in new_df.columns and target not in new_df.columns: rename]. *)
Definition alias_step (df : DataFrame) (entry : string * string) : DataFrame :=
  let '(alias, target) := entry in
  if has_column alias df && negb (has_column target df)
  then rename_one alias target df
  else df.

Definition apply_aliases (table : list (string * string)) (df : DataFrame)
  : DataFrame :=
  fold_left alias_step table df.

(** [canonicalize_columns(df)] for a frame [df] (not [None]). *)
Definition canonicalize_columns (df : DataFrame) : DataFrame :=
  if df_empty df then df
  else apply_aliases ALIASES (rename_with normalize df).

(** Entries of the alias table that the loop visits before [alias]. *)
Fixpoint entries_before (alias : string) (table : list (string * string))
  : list (string * string) :=
  match table with
  | [] => []
  | e :: rest =>
      if String.eqb (fst e) alias then [] else e :: entries_before alias rest
  end.

(** The alias loop seen on the list of labels alone. *)
Definition relabel (old new : string) (ns : list string) : list string :=
  map (fun n => if String.eqb n old then new else n) ns.

Definition step_names (ns : list string) (e : string * string) : list string :=
  if existsb (String.eqb (fst e)) ns && negb (existsb (String.eqb (snd e)) ns)
  then relabel (fst e) (snd e) ns else ns.

Definition run_aliases (al : list (string * string)) (ns : list string)
  : list string :=
  fold_left step_names al ns.

(** What the alias loop relies on: no alias is listed twice, no alias is
    itself a canonical name, and no entry maps a name to itself. *)
Definition well_formed_table (al : list (string * string)) : Prop :=
  NoDup (map fst al) /\ Forall (fun k => k ∉ map snd al) (map fst al)
  /\ Forall (fun e => fst e <> snd e) al.

(** Two small tables used below: one that carries an alias together with its
    canonical name, one that carries only an alias (under a vendor spelling). *)
Definition both_present : DataFrame :=
  mkDF 1 [("src", [CStr "10.0.0.5"]); ("source_ip", [CStr "172.16.0.9"])].

Definition alias_only : DataFrame :=
  mkDF 2 [ ("Src IP", [CStr "10.0.0.5"; CStr "8.8.8.8"]);
           ("note", [CNull; CStr "x"]) ].

End Canon.

(** ** Feature aligner (utils/feature_engineering.py), on frame values *)

Module Align.

(** [X[col] = v] for a scalar [v]: broadcast over the index; a new label is
    appended as the last column, an existing label has every column that
    carries it overwritten. *)
Definition setitem_scalar (col : string) (v : cell) (X : DataFrame) : DataFrame :=
  let filled := repeat v (index_len X) in
  if has_column col X
  then mkDF (index_len X)
         (map (fun c => if same_label col c then (fst c, filled) else c) (columns X))
  else mkDF (index_len X) (columns X ++ [(col, filled)]).

(** [X[labels]] for a list of labels: for each label in turn, every column
    that carries it; [None] is the KeyError raised when a label is carried by
    no column. *)
Definition getitem_list (labels : list string) (X : DataFrame) : option DataFrame :=
  if forallb (fun l => has_column l X) labels
  then Some (mkDF (index_len X) (flat_map (fun l => select l X) labels))
  else None.

(** [X.fillna(v)] *)
Definition fillna (v : cell) (X : DataFrame) : DataFrame :=
  mkDF (index_len X) (map (fun c => (fst c, fillna_series v (snd c))) (columns X)).

(** The body of the loop: [if col not in X.columns: X[col] = 0]. *)
Definition ensure_column (X : DataFrame) (col : string) : DataFrame :=
  if has_column col X then X else setitem_scalar col (CInt 0) X.

(** [align_features(X, feature_names)] as a function of the frame's value. *)
Definition align_features (X : DataFrame) (feature_names : list string)
  : option DataFrame :=
  let X1 := fold_left ensure_column feature_names X in
  match getitem_list feature_names X1 with
  | Some X2 => Some (fillna (CInt 0) X2)
  | None => None
  end.

(** The column the aligner is expected to produce for one name. *)
Definition expected_column (X : DataFrame) (f : string) : string * list cell :=
  match select f X with
  | c :: _ => (f, fillna_series (CInt 0) (snd c))
  | [] => (f, repeat (CInt 0) (index_len X))
  end.

(** The names of [F] for which the loop appends a column, in the order in
    which it appends them, when the table starts with the labels [ns]. *)
Fixpoint missing (F : list string) (ns : list string) : list string :=
  match F with
  | [] => []
  | f :: F' =>
      if existsb (String.eqb f) ns then missing F' ns
      else f :: missing F' (ns ++ [f])
  end.

(** What [align_features] returns for one expected name: every column of [X]
    that carries it, nulls filled, or a single column of zeros. *)
Definition aligned_group (X : DataFrame) (f : string)
  : list (string * list cell) :=
  match select f X with
  | [] => [(f, repeat (CInt 0) (index_len X))]
  | cs => map (fun c => (fst c, fillna_series (CInt 0) (snd c))) cs
  end.

(** Tables and name lists used below. *)
Definition twice_a : DataFrame :=
  mkDF 1 [("a", [CInt 1]); ("a", [CInt 2])].

Definition once_a : DataFrame := mkDF 1 [("a", [CNull])].

Definition sample_features : DataFrame :=
  mkDF 2 [ ("hour", [CInt 10; CInt 23]);
           ("status_failed", [CInt 1; CNull]);
           ("username_bob", [CInt 0; CInt 1]) ].

End Align.

(** ** Feature aligner, on a store of frame objects

    Python variables hold references.  [X.copy()], [X[names]] and [X.fillna]
    allocate a new frame; [X[col] = 0] updates the referenced frame in place. *)

Module Heap.

Definition loc := nat.
Definition heap := list DataFrame.

(** A computation over the store; [None] is a raised exception. *)
Definition M (A : Type) : Type := heap -> option (A * heap).

Definition ret {A} (a : A) : M A := fun h => Some (a, h).

Definition bind {A B} (m : M A) (k : A -> M B) : M B :=
  fun h => match m h with
           | Some (a, h') => k a h'
           | None => None
           end.

Definition raise {A} : M A := fun _ => None.

Declare Scope heap_scope.
Delimit Scope heap_scope with heap.
Notation "'let!' x ':=' m 'in' k" := (bind m (fun x => k))
  (at level 10, x name, m at level 100, k at level 200) : heap_scope.
Notation "'do!' m 'in' k" := (bind m (fun _ => k))
  (at level 10, m at level 100, k at level 200) : heap_scope.
Local Open Scope heap_scope.

Definition read (l : loc) : M DataFrame :=
  fun h => match h !! l with
           | Some df => Some (df, h)
           | None => None
           end.

Definition alloc (df : DataFrame) : M loc :=
  fun h => Some (length h, h ++ [df]).

Definition write (l : loc) (df : DataFrame) : M unit :=
  fun h => Some (tt, <[l := df]> h).

Fixpoint for_each {A} (items : list A) (body : A -> M unit) : M unit :=
  match items with
  | [] => ret tt
  | x :: rest => do! body x in for_each rest body
  end.

(** [X.copy()] *)
Definition copy (X : loc) : M loc := let! df := read X in alloc df.

(** [col in X.columns] *)
Definition contains (X : loc) (col : string) : M bool :=
  let! df := read X in ret (has_column col df).

(** [X[col] = v] *)
Definition setitem (X : loc) (col : string) (v : cell) : M unit :=
  let! df := read X in write X (Align.setitem_scalar col v df).

(** [X[labels]] *)
Definition getitem (X : loc) (labels : list string) : M loc :=
  let! df := read X in
  match Align.getitem_list labels df with
  | Some d => alloc d
  | None => raise
  end.

(** [X.fillna(v)] *)
Definition fillna (X : loc) (v : cell) : M loc :=
  let! df := read X in alloc (Align.fillna v df).

(** [align_features(X, feature_names)]; the local name [X] is rebound three
    times, here [X1], [X2] and the result. *)
Definition align_features (X : loc) (feature_names : list string) : M loc :=
  let! X1 := copy X in
  do! for_each feature_names (fun col =>
        let! present := contains X1 col in
        if present then ret tt else setitem X1 col (CInt 0)) in
  let! X2 := getitem X1 feature_names in
  fillna X2 (CInt 0).

End Heap.

(** ** Risk labelling (app.py, the loop over [zip(preds, probs)]) *)

Module Risk.

Local Open Scope float_scope.

(** [pr.max()] on a row of class probabilities (numpy: NaN propagates).
    A row of [predict_proba] is never empty; it is given as head and tail. *)
Definition row_max (first : float) (rest : list float) : float :=
  fold_left (fun acc x =>
               if PrimFloat.is_nan acc then acc
               else if PrimFloat.is_nan x then x
               else if acc <? x then x else acc) rest first.

(** The threshold ladder.  [risk >= 0.8] is IEEE comparison of doubles, the
    literals being the doubles nearest to 0.8 and 0.5. *)
Definition label_of_risk (risk : float) : string :=
  if 0.8 <=? risk then "malicious"
  else if 0.5 <=? risk then "suspicious"
  else "benign".

(** The loop: [risk_scores] and [labels], one entry per row. *)
Definition label_rows (probs : list (float * list float))
  : list float * list string :=
  let risk_scores := map (fun pr => row_max (fst pr) (snd pr)) probs in
  (risk_scores, map label_of_risk risk_scores).

(** [0 <= risk <= 1] *)
Definition in_unit_interval (risk : float) : Prop :=
  (0 <=? risk) = true /\ (risk <=? 1) = true.

End Risk.

(** ** Recommendation engine (utils/recommendations.py) *)

Module Recommend.

(** [series == s], elementwise. *)
Definition series_eq (values : list cell) (s : string) : list bool :=
  map (fun c => match c with
                | CStr x => String.eqb x s
                | _ => false
                end) values.

Definition any (bs : list bool) : bool := existsb id bs.
Definition all (bs : list bool) : bool := forallb id bs.

(** [recommend_actions(result_df)]; [None] when the function raises (no
    [classification] column, or several, for which the truth value of the
    reduced frame is ambiguous). *)
Definition recommend_actions (result_df : DataFrame) : option (list string) :=
  match getitem result_df "classification" with
  | Series classification =>
      let actions := [] in
      let actions :=
        if any (series_eq classification "malicious")
        then actions ++
             [ "Isolate affected hosts or user accounts immediately.";
               "Block malicious IPs/domains at firewall and proxy.";
               "Collect forensic artifacts (memory, disk, logs)." ]
        else actions in
      let actions :=
        if any (series_eq classification "suspicious")
        then actions ++
             [ "Increase monitoring and enable detailed logging for affected entities.";
               "Validate user actions with the business owner." ]
        else actions in
      let actions :=
        if all (series_eq classification "benign")
        then actions ++
             [ "No immediate action required; continue routine monitoring." ]
        else actions in
      Some (actions ++
            [ "Create/Update incident ticket and document findings.";
              "Review detection rules to reduce false positives." ])
  | _ => None
  end.

(** A classified table with no rows. *)
Definition empty_classified : DataFrame :=
  mkDF 0 [("source_ip", []); ("risk_score", []); ("classification", [])].

End Recommend.

(** ** Top-K selection for enrichment (app.py)

    Risk scores are finite doubles (maxima of class probabilities); only their
    order matters here, so a score is represented by its exact rational
    value. *)

Module TopK.

Local Open Scope Q_scope.

(** [a < b] on scores, as a boolean. *)
Definition Qltb (a b : Q) : bool := negb (Qle_bool b a).

(** Insertion into a list that is in descending order of score: the new
    entry goes after the entries with a strictly larger score and before every
    other one. *)
Fixpoint insert_desc (x : nat * Q) (l : list (nat * Q)) : list (nat * Q) :=
  match l with
  | [] => [x]
  | y :: l' => if Qltb (snd x) (snd y) then y :: insert_desc x l' else x :: y :: l'
  end.

(** Descending sort that keeps entries of equal score in their order. *)
Definition sort_desc (l : list (nat * Q)) : list (nat * Q) :=
  fold_right insert_desc [] l.

(** pandas [Series.nlargest(n)] with the default [keep="first"], on a series
    given as (index label, value) pairs: the first [n] entries of the
    descending order, equal values in order of appearance.  This is library
    behaviour, taken from the pandas documentation. *)
Definition nlargest (n : nat) (series : list (nat * Q)) : list (nat * Q) :=
  firstn n (sort_desc series).

(** The column [result_df["risk_score"]] under the default RangeIndex. *)
Definition risk_series (risk_scores : list Q) : list (nat * Q) :=
  combine (seq 0 (length risk_scores)) risk_scores.

(** [result_df["risk_score"].nlargest(min(max_enrich, len(result_df))).index] *)
Definition top_idx (max_enrich : nat) (risk_scores : list Q) : list nat :=
  map fst (nlargest (Nat.min max_enrich (length risk_scores))
                    (risk_series risk_scores)).

(** [result_df.loc[top_idx]] on the rows of the table. *)
Definition loc_rows {A} (rows : list A) (idx : list nat) : list A :=
  omap (fun i => rows !! i) idx.

(** The rows sent to enrichment:
    [if enable_enrich and max_enrich > 0 and len(result_df) > 0: ...]. *)
Definition to_enrich {A} (enable_enrich : bool) (max_enrich : nat)
    (rows : list A) (risk_scores : list Q) : list A :=
  if enable_enrich && (0 <? max_enrich)%nat && (0 <? length rows)%nat
  then loc_rows rows (top_idx max_enrich risk_scores)
  else [].

(** Row [i] with score [x] is ranked before row [j] with score [y]: larger
    score first, equal scores in original row order. *)
Definition ranked_before (a b : nat * Q) : Prop :=
  snd b < snd a \/ (snd a == snd b /\ (fst a < fst b)%nat).

(** The same order on row numbers of a table with the given score column. *)
Definition outranks (risk_scores : list Q) (i j : nat) : Prop :=
  exists x y, risk_scores !! i = Some x /\ risk_scores !! j = Some y
              /\ ranked_before (i, x) (j, y).

(** A small classified table: row names and their risk scores. *)
Definition sample_rows : list string := ["r0"; "r1"; "r2"; "r3"; "r4"].

Definition sample_scores : list Q := [9 # 10; 1 # 2; 9 # 10; 7 # 10; 1 # 2].

End TopK.

(** ** Threat-intel providers (api/abuseipdb.py, api/virustotal.py) *)

Module Enrich.

(** Python values that the providers handle: JSON documents and the entries
    returned to the caller. *)
#[warnings="-register-all"]
Inductive json : Type :=
| JNull
| JBool (b : bool)
| JInt (z : Z)
| JFloat (f : float)
| JStr (s : string)
| JArr (items : list json)
| JObj (fields : list (string * json)).

(** A Python dict with string keys, in insertion order (keys are unique). *)
Abbreviation dict := (list (string * json)).

Fixpoint assoc (key : string) (d : dict) : option json :=
  match d with
  | [] => None
  | (k, v) :: rest => if String.eqb k key then Some v else assoc key rest
  end.

(** A computation that may raise; [inl msg] carries [str(e)]. *)
Definition result (A : Type) : Type := string + A.

Definition rbind {A B} (m : result A) (k : A -> result B) : result B :=
  match m with
  | inl msg => inl msg
  | inr a => k a
  end.

Declare Scope result_scope.
Delimit Scope result_scope with result.
Notation "'try!' x ':=' m 'in' k" := (rbind m (fun x => k))
  (at level 10, x name, m at level 100, k at level 200) : result_scope.
Local Open Scope result_scope.

Definition type_name (j : json) : string :=
  match j with
  | JNull => "NoneType"
  | JBool _ => "bool"
  | JInt _ => "int"
  | JFloat _ => "float"
  | JStr _ => "str"
  | JArr _ => "list"
  | JObj _ => "dict"
  end.

(** [j.get(key, default)]: defined on dicts; any other value raises
    AttributeError. *)
Definition get (j : json) (key : string) (default : json) : result json :=
  match j with
  | JObj fields =>
      inr (match assoc key fields with
           | Some v => v
           | None => default
           end)
  | _ => inl ("'" ++ type_name j ++ "' object has no attribute 'get'")%string
  end.

Record request : Type := mkRequest {
  url : string;
  headers : list (string * string);
  params : dict
}.

(** What [resp.json()] does: raises, or returns the parsed document. *)
Inductive body : Type :=
| BadBody (msg : string)
| Body (j : json).

(** What [requests.get(..., timeout=8)] does: raises (connection error,
    timeout, ...), or returns a response. *)
Inductive reply : Type :=
| Raised (msg : string)
| Response (status_code : Z) (b : body).

Definition json_of (b : body) : result json :=
  match b with
  | BadBody msg => inl msg
  | Body j => inr j
  end.

(** The state of the process: the store of entry objects (a reference is a
    position in it), the two module-level caches, and the log of the requests
    sent so far. *)
Record process : Type := mkProcess {
  objects : list dict;
  abuse_cache : gmap string nat;
  vt_cache : gmap string nat;
  sent : list request
}.

(** Evaluating a dict display allocates a new object. *)
Definition new_dict (d : dict) (p : process) : nat * process :=
  (length (objects p),
   mkProcess (objects p ++ [d]) (abuse_cache p) (vt_cache p) (sent p)).

Definition set_abuse_cache (ip : string) (res : nat) (p : process) : process :=
  mkProcess (objects p) (<[ip := res]> (abuse_cache p)) (vt_cache p) (sent p).

Definition set_vt_cache (ip : string) (res : nat) (p : process) : process :=
  mkProcess (objects p) (abuse_cache p) (<[ip := res]> (vt_cache p)) (sent p).

Definition ABUSE_API : string := "https://api.abuseipdb.com/api/v2/check".
Definition VT_API_prefix : string := "https://www.virustotal.com/api/v3/ip_addresses/".

Definition error_entry (msg : string) : dict :=
  [("status", JStr "error"); ("error", JStr msg)].

Definition http_entry (status_code : Z) : dict :=
  [("status", JStr ("http_" ++ pretty status_code)%string)].

(** [not api_key] *)
Definition no_key (api_key : option string) : bool :=
  match api_key with
  | None => true
  | Some k => String.eqb k ""
  end.

Definition key_of (api_key : option string) : string :=
  match api_key with
  | None => ""
  | Some k => k
  end.

(** [requests.get(ABUSE_API, headers=headers, params=params, timeout=8)] *)
Definition abuse_request (api_key ip : string) : request :=
  mkRequest ABUSE_API
    [("Key", api_key); ("Accept", "application/json")]
    [("ipAddress", JStr ip); ("maxAgeInDays", JInt 365)].

(** [requests.get(VT_API.format(ip=ip), headers=headers, timeout=8)] *)
Definition vt_request (api_key ip : string) : request :=
  mkRequest (VT_API_prefix ++ ip)%string [("x-apikey", api_key)] [].

Section Network.

(** The outside world: the reply to the [n]-th request of the process. *)
Variable net : nat -> request -> reply.

Definition requests_get (req : request) (p : process) : reply * process :=
  (net (length (sent p)) req,
   mkProcess (objects p) (abuse_cache p) (vt_cache p) (sent p ++ [req])).

(** The 200 branch of the AbuseIPDB lookup. *)
Definition abuse_ok (b : body) : result dict :=
  try! j := json_of b in
  try! data := get j "data" (JObj []) in
  try! score := get data "abuseConfidenceScore" JNull in
  try! reports := get data "totalReports" JNull in
  try! whitelisted := get data "isWhitelisted" JNull in
  inr [ ("status", JStr "ok");
        ("abuseConfidenceScore", score);
        ("totalReports", reports);
        ("isWhitelisted", whitelisted) ].

(** [enrich_ip_with_abuseipdb(ip)], with [env] the process environment read by
    [os.getenv] at the time of the call.  The result is a reference. *)
Definition enrich_ip_with_abuseipdb (env : string -> option string)
    (ip : string) (p : process) : nat * process :=
  if String.eqb ip "" then new_dict [("status", JStr "no_ip")] p
  else
    match abuse_cache p !! ip with
    | Some res => (res, p)
    | None =>
        let api_key := env "ABUSEIPDB_API_KEY" in
        if no_key api_key then
          let '(res, p) := new_dict [("status", JStr "no_key")] p in
          (res, set_abuse_cache ip res p)
        else
          let req := abuse_request (key_of api_key) ip in
          let '(resp, p) := requests_get req p in
          let entry :=
            match resp with
            | Raised msg => error_entry msg
            | Response status_code b =>
                if (status_code =? 200)%Z then
                  match abuse_ok b with
                  | inr entry => entry
                  | inl msg => error_entry msg
                  end
                else http_entry status_code
            end in
          let '(res, p) := new_dict entry p in
          (res, set_abuse_cache ip res p)
    end.

(** The 200 branch of the VirusTotal lookup. *)
Definition vt_ok (b : body) : result dict :=
  try! data := json_of b in
  try! d := get data "data" (JObj []) in
  try! attributes := get d "attributes" (JObj []) in
  try! stats := get attributes "last_analysis_stats" (JObj []) in
  try! malicious := get stats "malicious" JNull in
  try! suspicious := get stats "suspicious" JNull in
  try! harmless := get stats "harmless" JNull in
  inr [ ("status", JStr "ok");
        ("malicious", malicious);
        ("suspicious", suspicious);
        ("harmless", harmless) ].

(** [enrich_ip_with_virustotal(ip)] *)
Definition enrich_ip_with_virustotal (env : string -> option string)
    (ip : string) (p : process) : nat * process :=
  if String.eqb ip "" then new_dict [("status", JStr "no_ip")] p
  else
    match vt_cache p !! ip with
    | Some res => (res, p)
    | None =>
        let api_key := env "VT_API_KEY" in
        if no_key api_key then
          let '(res, p) := new_dict [("status", JStr "no_key")] p in
          (res, set_vt_cache ip res p)
        else
          let req := vt_request (key_of api_key) ip in
          let '(resp, p) := requests_get req p in
          let entry :=
            match resp with
            | Raised msg => error_entry msg
            | Response status_code b =>
                if (status_code =? 200)%Z then
                  match vt_ok b with
                  | inr entry => entry
                  | inl msg => error_entry msg
                  end
                else http_entry status_code
            end in
          let '(res, p) := new_dict entry p in
          (res, set_vt_cache ip res p)
    end.

(** A lookup made by the rest of the program. *)
Inductive call : Type :=
| CallAbuse (env : string -> option string) (ip : string)
| CallVT (env : string -> option string) (ip : string).

Definition run_call (c : call) (p : process) : nat * process :=
  match c with
  | CallAbuse env ip => enrich_ip_with_abuseipdb env ip p
  | CallVT env ip => enrich_ip_with_virustotal env ip p
  end.

Definition run_calls (cs : list call) (p : process) : process :=
  fold_left (fun p c => snd (run_call c p)) cs p.

End Network.

(** The entry that a lookup stores when it has to ask. *)
Definition entry_of (ok_entry : body -> result dict) (resp : reply) : dict :=
  match resp with
  | Raised msg => error_entry msg
  | Response status_code b =>
      if (status_code =? 200)%Z then
        match ok_entry b with
        | inr entry => entry
        | inl msg => error_entry msg
        end
      else http_entry status_code
  end.

(** What a lookup may do to the state: objects are only appended, a cached
    reference is never replaced. *)
Record extends (p p' : process) : Prop := mkExtends {
  ext_objects : forall l d, objects p !! l = Some d -> objects p' !! l = Some d;
  ext_abuse : forall ip r, abuse_cache p !! ip = Some r ->
                           abuse_cache p' !! ip = Some r;
  ext_vt : forall ip r, vt_cache p !! ip = Some r -> vt_cache p' !! ip = Some r
}.

Section Properties.

Variable net : nat -> request -> reply.

(** One provider, as the properties below see it: its lookup, its cache, the
    name of its credential, the request it sends and its 200 branch. *)
Variable lookup : (string -> option string) -> string -> process -> nat * process.
Variable cache_of : process -> gmap string nat.
Variable key_name : string.
Variable request_for : string -> string -> request.
Variable ok_entry : body -> result dict.

(** Caching: two lookups of a non-empty IP, and any later lookup of it after
    arbitrary other lookups of either provider. *)
Definition caches_lookups : Prop :=
  forall (env1 env2 env3 : string -> option string) (ip : string) (p : process),
    ip <> "" ->
    let res1 := fst (lookup env1 ip p) in
    let p1 := snd (lookup env1 ip p) in
    let res2 := fst (lookup env2 ip p1) in
    let p2 := snd (lookup env2 ip p1) in
    (* the second call: same object, no request, nothing changed *)
    res2 = res1 /\ p2 = p1
    (* the two calls together send at most one request *)
    /\ (length (sent p2) <= length (sent p) + 1)%nat
    (* the entry is cached by the first call, whatever its status *)
    /\ cache_of p1 !! ip = Some res1
    /\ (cache_of p !! ip = None -> exists entry, objects p1 !! res1 = Some entry)
    (* and it is never recomputed *)
    /\ forall (cs : list call),
         let p' := run_calls net cs p1 in
         lookup env3 ip p' = (res1, p')
         /\ forall entry, objects p1 !! res1 = Some entry ->
                          objects p' !! res1 = Some entry.

(** Failure handling of a lookup that gets as far as the credential: the IP
    is not empty and not cached. *)
Definition resilient_lookup : Prop :=
  forall (env : string -> option string) (ip : string) (p : process),
    ip <> "" -> cache_of p !! ip = None ->
    let res := fst (lookup env ip p) in
    let p' := snd (lookup env ip p) in
    let req := request_for (key_of (env key_name)) ip in
    (* a result is always returned, with a status *)
    (exists entry status, objects p' !! res = Some entry
                          /\ assoc "status" entry = Some (JStr status))
    (* missing credential: no_key, and no request sent *)
    /\ (no_key (env key_name) = true ->
        objects p' !! res = Some [("status", JStr "no_key")]
        /\ sent p' = sent p)
    /\ (no_key (env key_name) = false ->
        sent p' = sent p ++ [req]
        (* transport exception *)
        /\ (forall msg, net (length (sent p)) req = Raised msg ->
                        objects p' !! res = Some (error_entry msg))
        (* non-200 response *)
        /\ (forall code b, net (length (sent p)) req = Response code b ->
                           code <> 200%Z ->
                           objects p' !! res
                           = Some [("status", JStr ("http_" ++ pretty code)%string)])
        (* 200 response whose body cannot be parsed or has the wrong shape *)
        /\ (forall b msg, net (length (sent p)) req = Response 200 b ->
                          ok_entry b = inl msg ->
                          objects p' !! res = Some (error_entry msg))
        /\ (forall b entry, net (length (sent p)) req = Response 200 b ->
                            ok_entry b = inr entry ->
                            objects p' !! res = Some entry)).

End Properties.

(** A process that has looked nothing up yet, and a network that refuses
    every connection. *)
Definition fresh_process : process := mkProcess [] ∅ ∅ [].

Definition refusing (n : nat) (req : request) : reply :=
  Raised "connection refused".

Definition no_env (name : string) : option string := None.

Definition some_env (name : string) : option string := Some "secret".

(** [entry["status"]] of the object behind a reference. *)
Definition status_of (p : process) (res : nat) : option json :=
  match objects p !! res with
  | Some entry => assoc "status" entry
  | None => None
  end.

End Enrich.

(** ** Python's [ipaddress.ip_address], on the values a table cell can hold

    A model of the standard-library parser (CPython 3.10 and later): dotted
    quads without leading zeros for IPv4, colon-separated hextets with at most
    one [::], an optional IPv4 suffix and an optional scope id for IPv6.
    [None] stands for the ValueError the library raises. *)

Module Ipaddress.

Inductive address : Type :=
| V4 (ip : Z)
| V6 (ip : Z).

(** [int(address)] *)
Definition to_int (a : address) : Z :=
  match a with
  | V4 ip => ip
  | V6 ip => ip
  end.

Fixpoint all_chars (f : ascii -> bool) (s : string) : bool :=
  match s with
  | EmptyString => true
  | String c s' => f c && all_chars f s'
  end.

Definition has_char (c : ascii) (s : string) : bool :=
  negb (all_chars (fun x => negb (Ascii.eqb x c)) s).

(** [s.split(sep)] for a one-character separator. *)
Fixpoint split (sep : ascii) (s : string) : list string :=
  match s with
  | EmptyString => [EmptyString]
  | String c s' =>
      if Ascii.eqb c sep then EmptyString :: split sep s'
      else match split sep s' with
           | w :: ws => String c w :: ws
           | [] => [String c EmptyString]
           end
  end.

Definition is_digit (c : ascii) : bool :=
  let n := nat_of_ascii c in ((48 <=? n) && (n <=? 57))%nat.

Definition hex_value (c : ascii) : option Z :=
  let n := Z.of_nat (nat_of_ascii c) in
  if ((48 <=? n) && (n <=? 57))%Z then Some (n - 48)%Z
  else if ((65 <=? n) && (n <=? 70))%Z then Some (n - 55)%Z
  else if ((97 <=? n) && (n <=? 102))%Z then Some (n - 87)%Z
  else None.

Definition is_hex_digit (c : ascii) : bool :=
  match hex_value c with
  | Some _ => true
  | None => false
  end.

(** [int(s, base)] for a string of digits of that base. *)
Fixpoint int_of_digits (base : Z) (acc : Z) (s : string) : Z :=
  match s with
  | EmptyString => acc
  | String c s' =>
      int_of_digits base
        (acc * base + match hex_value c with Some d => d | None => 0 end)%Z s'
  end.

(** [IPv4Address._parse_octet] *)
Definition parse_octet (octet_str : string) : option Z :=
  if String.eqb octet_str "" then None
  else if negb (all_chars is_digit octet_str) then None
  else if (3 <? String.length octet_str)%nat then None
  else if negb (String.eqb octet_str "0")
          && match octet_str with
             | String c _ => Ascii.eqb c "0"
             | EmptyString => false
             end
  then None
  else
    let octet_int := int_of_digits 10 0 octet_str in
    if (255 <? octet_int)%Z then None else Some octet_int.

(** The fold of [int.from_bytes(..., 'big')] over parsed parts of [width]
    bits; [None] as soon as one part fails to parse. *)
Fixpoint join_parts (width : Z) (parse : string -> option Z) (acc : Z)
    (parts : list string) : option Z :=
  match parts with
  | [] => Some acc
  | s :: rest =>
      match parse s with
      | Some v => join_parts width parse (Z.lor (Z.shiftl acc width) v) rest
      | None => None
      end
  end.

(** [IPv4Address._ip_int_from_string] *)
Definition v4_int_from_string (ip_str : string) : option Z :=
  if String.eqb ip_str "" then None
  else
    let octets := split "." ip_str in
    if negb (length octets =? 4)%nat then None
    else join_parts 8 parse_octet 0 octets.

(** [IPv4Address(s)] for a string. *)
Definition ipv4_of_string (addr_str : string) : option Z :=
  if has_char "/" addr_str then None else v4_int_from_string addr_str.

(** [IPv6Address._parse_hextet]; [int('', 16)] raises. *)
Definition parse_hextet (hextet_str : string) : option Z :=
  if negb (all_chars is_hex_digit hextet_str) then None
  else if (4 <? String.length hextet_str)%nat then None
  else if String.eqb hextet_str "" then None
  else Some (int_of_digits 16 0 hextet_str).

Definition hex_digit (d : Z) : ascii :=
  ascii_of_nat (Z.to_nat (if (d <? 10)%Z then d + 48 else d + 87)%Z).

Fixpoint to_hex_fuel (fuel : nat) (n : Z) (acc : string) : string :=
  match fuel with
  | O => acc
  | S fuel' =>
      let acc' := String (hex_digit (n mod 16)) acc in
      if (n / 16 =? 0)%Z then acc' else to_hex_fuel fuel' (n / 16)%Z acc'
  end.

(** ['%x' % n] for [0 <= n < 65536]. *)
Definition to_hex (n : Z) : string := to_hex_fuel 4 n "".

(** The positions [1 .. len(parts) - 2] whose part is empty. *)
Definition inner_empty (parts : list string) : list nat :=
  List.filter (fun i => String.eqb (nth i parts "x") "")
              (seq 1 (length parts - 2)).

Definition part_empty (parts : list string) (i : nat) : bool :=
  String.eqb (nth i parts "x") "".

(** [IPv6Address._ip_int_from_string] *)
Definition v6_int_from_string (ip_str : string) : option Z :=
  if String.eqb ip_str "" then None
  else
    let parts := split ":" ip_str in
    if (length parts <? 3)%nat then None
    else
      (* an IPv4-style suffix is converted to two hextets *)
      let last_part := List.last parts "" in
      let parts' :=
        if has_char "." last_part then
          match ipv4_of_string last_part with
          | Some ipv4_int =>
              Some (List.removelast parts ++
                    [ to_hex (Z.land (Z.shiftr ipv4_int 16) 65535);
                      to_hex (Z.land ipv4_int 65535) ])
          | None => None
          end
        else Some parts in
      match parts' with
      | None => None
      | Some parts =>
          if (9 <? length parts)%nat then None
          else
            let n := length parts in
            match inner_empty parts with
            | _ :: _ :: _ => None
            | [skip_index] =>
                let parts_hi := skip_index in
                let parts_lo := (n - skip_index - 1)%nat in
                let lead := part_empty parts 0 in
                let trail := part_empty parts (n - 1) in
                let parts_hi := if lead then (parts_hi - 1)%nat else parts_hi in
                if lead && negb (parts_hi =? 0)%nat then None
                else
                  let parts_lo := if trail then (parts_lo - 1)%nat else parts_lo in
                  if trail && negb (parts_lo =? 0)%nat then None
                  else if (8 <? parts_hi + parts_lo + 1)%nat then None
                  else
                    let parts_skipped := (8 - (parts_hi + parts_lo))%nat in
                    match join_parts 16 parse_hextet 0 (firstn parts_hi parts) with
                    | Some hi =>
                        join_parts 16 parse_hextet
                          (Z.shiftl hi (16 * Z.of_nat parts_skipped))
                          (skipn (n - parts_lo) parts)
                    | None => None
                    end
            | [] =>
                if negb (n =? 8)%nat then None
                else if part_empty parts 0 then None
                else if part_empty parts (n - 1) then None
                else join_parts 16 parse_hextet 0 parts
            end
      end.

(** [str.partition('%')] on an address: the part before the first ['%'] and,
    when there is one, the part after it. *)
Fixpoint partition_scope (s : string) : string * option string :=
  match s with
  | EmptyString => (EmptyString, None)
  | String c s' =>
      if Ascii.eqb c "%" then (EmptyString, Some s')
      else let '(addr, scope) := partition_scope s' in (String c addr, scope)
  end.

(** [IPv6Address(s)] for a string. *)
Definition ipv6_of_string (addr_str : string) : option Z :=
  if has_char "/" addr_str then None
  else
    let '(addr, scope_id) := partition_scope addr_str in
    match scope_id with
    | Some scope =>
        if String.eqb scope "" || has_char "%" scope then None
        else v6_int_from_string addr
    | None => v6_int_from_string addr
    end.

(** [ipaddress.ip_address(s)] for a string: IPv4 first, then IPv6. *)
Definition ip_address_of_string (s : string) : option address :=
  match ipv4_of_string s with
  | Some ip => Some (V4 ip)
  | None =>
      match ipv6_of_string s with
      | Some ip => Some (V6 ip)
      | None => None
      end
  end.

(** [ipaddress.ip_address(x)] for the value of a cell.  An integer is an
    address when it is in range; a missing value or a nested frame has a
    [str()] that is no address. *)
Definition ip_address (x : cell) : option address :=
  match x with
  | CStr s => ip_address_of_string s
  | CInt z =>
      if (0 <=? z)%Z && (z <? 2 ^ 32)%Z then Some (V4 z)
      else if (0 <=? z)%Z && (z <? 2 ^ 128)%Z then Some (V6 z)
      else None
  | CNull => None
  | CFrame => None
  end.

End Ipaddress.

(** ** Feature extractor: the IP features (utils/feature_engineering.py) *)

Module Features.

Section Library.

(** [address.is_private], a property computed by the standard library from
    its table of reserved networks (the table differs between Python
    versions). *)
Variable address_is_private : Ipaddress.address -> bool.

(** [ip_to_int(ip)]: the [except Exception] branch returns 0. *)
Definition ip_to_int (ip : cell) : Z :=
  match Ipaddress.ip_address ip with
  | Some a => Ipaddress.to_int a
  | None => 0
  end.

(** [is_private(ip)] *)
Definition is_private (ip : cell) : Z :=
  match Ipaddress.ip_address ip with
  | Some a => if address_is_private a then 1 else 0
  | None => 0
  end.

(** [_ensure_series(df, column, default_value)] *)
Definition _ensure_series (df : DataFrame) (column : string)
    (default_value : cell) : list cell :=
  if has_column column df then
    match getitem df column with
    | Series val => val
    | _ => repeat CFrame (df_len df)
    end
  else repeat default_value (df_len df).

Record ip_features : Type := mkIpFeatures {
  src_ip_int : list Z;
  dst_ip_int : list Z;
  src_is_private : list Z;
  dst_is_private : list Z
}.

(** The IP part of [preprocess_dataframe(df)]: the four columns assigned from
    the two address series.  (The timestamp columns assigned before it touch
    neither the address columns nor the index.) *)
Definition preprocess_ip_features (df : DataFrame) : ip_features :=
  let df := Canon.canonicalize_columns df in
  let src_ip_series :=
    fillna_series (CStr "") (_ensure_series df "source_ip" (CStr "")) in
  let dst_ip_series :=
    fillna_series (CStr "") (_ensure_series df "destination_ip" (CStr "")) in
  mkIpFeatures (map ip_to_int src_ip_series)
               (map ip_to_int dst_ip_series)
               (map is_private src_ip_series)
               (map is_private dst_ip_series).

End Library.

(** A cell that holds no usable address: missing, or a string that the
    library rejects. *)
Definition malformed_or_absent (c : cell) : Prop :=
  c = CNull \/ exists s, c = CStr s /\ Ipaddress.ip_address_of_string s = None.

End Features.

(** ** Enrichment loop (app.py, the branch after the top-K selection) *)

Module Orchestrator.

Import Enrich.

(** A row as [iterrows] yields it: the labels of the table, each with the
    row's value under it. *)
Definition row : Type := list (string * cell).

(** [row.get(key, default)]: the value under the label, the default when the
    label is absent; under a repeated label pandas returns the sub-series,
    an object that is no string. *)
Definition row_get (r : row) (key : string) (default : cell) : cell :=
  match List.filter (fun c => String.eqb (fst c) key) r with
  | [] => default
  | [c] => snd c
  | _ => CFrame
  end.

(** The dict [row_info]; the two inner dicts map a field name to the reference
    of the entry that the provider returned. *)
Record row_info : Type := mkRowInfo {
  info_source_ip : cell;
  info_destination_ip : cell;
  info_vt : list (string * nat);
  info_abuse : list (string * nat)
}.

(** [d[k] = v] on a dict kept in insertion order. *)
Definition dict_set {V} (d : list (string * V)) (k : string) (v : V)
  : list (string * V) :=
  if existsb (fun e => String.eqb (fst e) k) d
  then map (fun e => if String.eqb (fst e) k then (k, v) else e) d
  else d ++ [(k, v)].

(** [isinstance(ip, str) and len(ip) > 0] for [ip = row.get(ip_field)]. *)
Definition lookup_ip (r : row) (ip_field : string) : option string :=
  match row_get r ip_field CNull with
  | CStr ip => if (0 <? String.length ip)%nat then Some ip else None
  | _ => None
  end.

Section Run.

Variable net : nat -> request -> reply.
Variable env : string -> option string.

(** The body of [for ip_field in ["source_ip", "destination_ip"]]. *)
Definition enrich_field (r : row) (st : row_info * process)
    (ip_field : string) : row_info * process :=
  match lookup_ip r ip_field with
  | Some ip =>
      let '(vt, p) := enrich_ip_with_virustotal net env ip (snd st) in
      let '(ab, p) := enrich_ip_with_abuseipdb net env ip p in
      (mkRowInfo (info_source_ip (fst st)) (info_destination_ip (fst st))
                 (dict_set (info_vt (fst st)) ip_field vt)
                 (dict_set (info_abuse (fst st)) ip_field ab), p)
  | None => st
  end.

(** The body of the loop over [to_enrich.iterrows()], up to the append. *)
Definition enrich_row (r : row) (p : process) : row_info * process :=
  let row_info :=
    mkRowInfo (row_get r "source_ip" (CStr ""))
              (row_get r "destination_ip" (CStr "")) [] [] in
  fold_left (enrich_field r) ["source_ip"; "destination_ip"] (row_info, p).

(** The loop: [enriched_rows] and the state of the process after it. *)
Definition enrich_rows (to_enrich : list row) (p : process)
  : list row_info * process :=
  fold_left (fun st r =>
               let '(info, p) := enrich_row r (snd st) in
               (fst st ++ [info], p))
            to_enrich ([], p).

(** The whole branch, from the classified table to [enriched_rows]. *)
Definition enrichment (enable_enrich : bool) (max_enrich : nat)
    (rows : list row) (risk_scores : list Q) (p : process)
  : list row_info * process :=
  enrich_rows (TopK.to_enrich enable_enrich max_enrich rows risk_scores) p.

End Run.

(** The addresses that the loop looks up for a row, and for a list of rows. *)
Definition row_ips (r : row) : list string :=
  omap (lookup_ip r) ["source_ip"; "destination_ip"].

Definition looked_up (rows : list row) : list string :=
  remove_dups (flat_map row_ips rows).

(** How many of the addresses a cache has no entry for. *)
Definition uncached (cache : gmap string nat) (ips : list string) : nat :=
  length (List.filter (fun ip => bool_decide (cache !! ip = None)) ips).

(** The entry of a row read back from the caches: under each field that holds
    a usable address, the reference that the provider's cache holds for that
    address. *)
Definition cached_refs (cache : gmap string nat) (r : row)
  : list (string * nat) :=
  omap (fun ip_field =>
          match lookup_ip r ip_field with
          | Some ip => option_map (pair ip_field) (cache !! ip)
          | None => None
          end) ["source_ip"; "destination_ip"].

Definition cached_info (p : process) (r : row) : row_info :=
  mkRowInfo (row_get r "source_ip" (CStr ""))
            (row_get r "destination_ip" (CStr ""))
            (cached_refs (vt_cache p) r) (cached_refs (abuse_cache p) r).

(** Both caches have an entry for the address. *)
Definition cached (p : process) (ip : string) : Prop :=
  is_Some (vt_cache p !! ip) /\ is_Some (abuse_cache p !! ip).

(** What lookups of addresses among [ips] may do to the process: the state is
    extended, requests are only appended, and every new request is paid for
    by an address that one of the caches did not hold before. *)
Definition within_budget (ips : list string) (p p' : process) : Prop :=
  extends p p'
  /\ exists new, sent p' = sent p ++ new
       /\ (length new + uncached (vt_cache p') ips
                      + uncached (abuse_cache p') ips
           <= uncached (vt_cache p) ips + uncached (abuse_cache p) ips)%nat.

(** The statuses that a provider entry can carry. *)
Definition known_status (status : string) : Prop :=
  status = "no_ip" \/ status = "no_key" \/ status = "ok" \/ status = "error"
  \/ exists code : Z, status = ("http_" ++ pretty code)%string.

(** A reference that leads to an entry with one of these statuses. *)
Definition valid_ref (p : process) (ref : nat) : Prop :=
  exists entry status,
    objects p !! ref = Some entry
    /\ assoc "status" entry = Some (JStr status)
    /\ known_status status.

(** Every reference held by a cache is valid. *)
Definition well_formed (p : process) : Prop :=
  (forall ip ref, vt_cache p !! ip = Some ref -> valid_ref p ref)
  /\ (forall ip ref, abuse_cache p !! ip = Some ref -> valid_ref p ref).

(** Three alerts: two share their source address, one has no usable
    destination. *)
Definition sample_alerts : list row :=
  [ [ ("source_ip", CStr "10.0.0.5"); ("destination_ip", CStr "8.8.8.8");
      ("classification", CStr "malicious") ];
    [ ("source_ip", CStr "10.0.0.5"); ("destination_ip", CNull);
      ("classification", CStr "benign") ];
    [ ("source_ip", CStr ""); ("destination_ip", CStr "8.8.8.8");
      ("classification", CStr "suspicious") ] ].

End Orchestrator.

(** ** Report helpers (utils/reporting.py) *)

Module Report.

(** [s[:stop]], Python's slice with a stop that may be negative or beyond the
    end. *)
Definition slice_to (s : string) (stop : Z) : string :=
  let n := Z.of_nat (String.length s) in
  let stop := if (stop <? 0)%Z then Z.max 0 (n + stop) else Z.min stop n in
  String.substring 0 (Z.to_nat stop) s.

(** [_shorten(text, max_len)].  [None] is Python's [None]; [Some s] is a value
    whose [str()] is [s] (a string is its own [str()]). *)
Definition _shorten (text : option string) (max_len : Z) : string :=
  match text with
  | None => ""
  | Some text =>
      let s := text in
      if (Z.of_nat (String.length s) <=? max_len)%Z then s
      else (slice_to s (max_len - 3) ++ "...")%string
  end.

(** [(series == s).sum()] *)
Definition count_eq (values : list cell) (s : string) : nat :=
  length (List.filter id (Recommend.series_eq values s)).

(** The numbers of the summary paragraph of [generate_pdf_report]: [n],
    [n_mal], [n_sus] and [n_ben].  When several columns are labelled
    classification, [alerts_df.get] returns a frame and the three sums are
    per-column series, not numbers. *)
Inductive summary : Type :=
| Counts (n n_mal n_sus n_ben : nat)
| PerColumn (n : nat).

Definition summary_counts (alerts_df : DataFrame) : summary :=
  let alerts_df := Canon.canonicalize_columns alerts_df in
  let n := df_len alerts_df in
  match getitem alerts_df "classification" with
  | Series cls_series =>
      Counts n (count_eq cls_series "malicious")
               (count_eq cls_series "suspicious")
               (count_eq cls_series "benign")
  | KeyError => Counts n 0 0 0
  | Frame _ => PerColumn n
  end.

End Report.

(** ** Explanations (model/predict.py, model/train_model.py) *)

Module Predict.

Section Weights.

(** The type of an importance weight (a double in the program). *)
Variable weight : Type.

(** A [SOCModel]: the names of the features it was trained on, and the
    [feature_importances_] of its classifier when the classifier has them. *)
Record SOCModel : Type := mkSOCModel {
  feature_names : list string;
  clf_feature_importances_ : option (list weight)
}.

(** The property [SOCModel.feature_importances_]:
    [getattr(self.clf, "feature_importances_", None)]. *)
Definition feature_importances_ (model : SOCModel) : option (list weight) :=
  clf_feature_importances_ model.

Inductive exception : Type :=
| PyKeyError
| PyValueError (msg : string).

(** [pd.Series(data, index=index)] for a list of values: the lengths must
    agree. *)
Definition pd_Series (data : list weight) (index : list string)
  : exception + list (string * weight) :=
  if (length data =? length index)%nat then inr (combine index data)
  else inl (PyValueError "Length of values does not match length of index").

(** [explain_prediction(model, single_processed_row)] *)
Definition explain_prediction (model : SOCModel)
    (single_processed_row : DataFrame)
  : exception + list (string * weight) :=
  match Align.align_features single_processed_row (feature_names model) with
  | None => inl PyKeyError
  | Some X =>
      let importances := feature_importances_ model in
      let importances :=
        match importances with
        | None => clf_feature_importances_ model
        | Some _ => importances
        end in
      match importances with
      | None => inl (PyValueError "Model does not provide feature_importances_")
      | Some importances => pd_Series importances (feature_names model)
      end
  end.

End Weights.

End Predict.

(** ** Schema canonicalizer, on a store of frame objects

    [df.copy()] allocates a new frame and [rename(..., inplace=True)] updates
    the referenced frame in place; an empty frame is returned as the object
    it is. *)

Module HeapCanon.

Import Heap.
Local Open Scope heap_scope.

(** [X.rename(columns=f, inplace=True)] *)
Definition rename_inplace (X : loc) (f : string -> string) : M unit :=
  let! df := read X in write X (rename_with f df).

(** [canonicalize_columns(df)] for a reference [df] to a frame. *)
Definition canonicalize_columns (df : loc) : M loc :=
  let! d := read df in
  if df_empty d then ret df
  else
    let! new_df := copy df in
    do! rename_inplace new_df Canon.normalize in
    do! for_each Canon.ALIASES (fun entry =>
          let! d := read new_df in
          if has_column (fst entry) d && negb (has_column (snd entry) d)
          then rename_inplace new_df
                 (fun n => if String.eqb n (fst entry) then snd entry else n)
          else ret tt) in
    ret new_df.

End HeapCanon.

(** ** Label codes (model/train_model.py, model/predict.py) *)

Module Labels.

(** [LABEL_MAP] of the trainer, in insertion order. *)
Definition LABEL_MAP : list (string * Z) :=
  [("benign", 0%Z); ("suspicious", 1%Z); ("malicious", 2%Z)].

(** [INV_LABEL_MAP = {v: k for k, v in LABEL_MAP.items()}] *)
Definition INV_LABEL_MAP : list (Z * string) :=
  map (fun kv => (snd kv, fst kv)) LABEL_MAP.

(** [LABELS] of the predictor. *)
Definition LABELS : list string := ["benign"; "suspicious"; "malicious"].

Fixpoint dict_get {K V} (eqb : K -> K -> bool) (d : list (K * V)) (k : K)
  : option V :=
  match d with
  | [] => None
  | (k', v) :: rest => if eqb k' k then Some v else dict_get eqb rest k
  end.

(** One entry of [df["label"].map(LABEL_MAP).fillna(0).astype(int)]: a value
    that is no key of the map becomes NaN under [map] and then 0. *)
Definition encode_label (label : cell) : Z :=
  match label with
  | CStr s =>
      match dict_get String.eqb LABEL_MAP s with
      | Some code => code
      | None => 0%Z
      end
  | _ => 0%Z
  end.

(** [LABELS[i]] of [preds = [LABELS[i] for i in preds_idx]], for a class index
    [i >= 0]; [None] is the IndexError. *)
Definition decode_index (i : Z) : option string := LABELS !! Z.to_nat i.

End Labels.

(** * Properties *)

(** ** Schema canonicalizer *)

Import Canon.

(** The alias loop seen on the list of labels. *)
Lemma names_rename_with f df : names (rename_with f df) = map f (names df).
Proof. unfold names, rename_with; simpl. rewrite !map_map. reflexivity. Qed.

Lemma data_rename_with f df : map snd (columns (rename_with f df)) = map snd (columns df).
Proof. unfold rename_with; simpl. rewrite map_map. reflexivity. Qed.

Lemma names_alias_step df e : names (alias_step df e) = step_names (names df) e.
Proof.
  destruct e as [a t]. unfold alias_step, step_names, has_column. simpl.
  destruct (existsb (String.eqb a) (names df) && negb (existsb (String.eqb t) (names df))); [|done].
  unfold rename_one. by rewrite names_rename_with.
Qed.

Lemma data_alias_step df e :
  map snd (columns (alias_step df e)) = map snd (columns df) /\ index_len (alias_step df e) = index_len df.
Proof.
  destruct e as [a t]. unfold alias_step.
  destruct (has_column a df && negb (has_column t df)); [|done].
  unfold rename_one. by rewrite data_rename_with.
Qed.

Lemma names_apply_aliases al df :
  names (apply_aliases al df) = fold_left step_names al (names df).
Proof.
  revert df. induction al as [|e al IH]; intros df; simpl; [done|].
  unfold apply_aliases in *. simpl. rewrite IH. by rewrite names_alias_step.
Qed.

Lemma data_apply_aliases al df :
  map snd (columns (apply_aliases al df)) = map snd (columns df)
  /\ index_len (apply_aliases al df) = index_len df.
Proof.
  revert df. induction al as [|e al IH]; intros df; simpl; [done|].
  unfold apply_aliases in *; simpl. destruct (IH (alias_step df e)) as [-> ->].
  apply data_alias_step.
Qed.

Lemma existsb_eqb_In x (ns : list string) : existsb (String.eqb x) ns = true <-> In x ns.
Proof.
  rewrite existsb_exists. split.
  - intros (y & Hy & He). apply String.eqb_eq in He. by subst.
  - intros H. exists x. split; [done|]. apply String.eqb_refl.
Qed.

Lemma relabel_lookup old new ns i x :
  relabel old new ns !! i = Some x <->
  exists y, ns !! i = Some y /\ x = (if String.eqb y old then new else y).
Proof.
  unfold relabel. rewrite list_lookup_fmap. destruct (ns !! i) as [y|]; simpl.
  - split; [intros [= <-]; eauto | intros (y' & [= <-] & ->); done].
  - split; [done | intros (y' & ? & _); done].
Qed.

Lemma run_aliases_cons e al ns :
  run_aliases (e :: al) ns = run_aliases al (step_names ns e).
Proof. reflexivity. Qed.

Lemma In_lookup (ns : list string) x : In x ns <-> exists i, ns !! i = Some x.
Proof. rewrite <- list_elem_of_In. apply list_elem_of_lookup. Qed.

Lemma step_names_cases ns e :
  (step_names ns e = ns /\ (~ In (fst e) ns \/ In (snd e) ns)) \/
  (step_names ns e = relabel (fst e) (snd e) ns /\ In (fst e) ns /\ ~ In (snd e) ns).
Proof.
  unfold step_names.
  destruct (existsb (String.eqb (fst e)) ns) eqn:Ha; simpl.
  - destruct (existsb (String.eqb (snd e)) ns) eqn:Ht; simpl.
    + left. split; [done|]. right. by apply existsb_eqb_In.
    + right. split; [done|]. split; [by apply existsb_eqb_In|].
      intros H. apply existsb_eqb_In in H. congruence.
  - left. split; [done|]. left. intros H. apply existsb_eqb_In in H. congruence.
Qed.

Lemma relabel_keeps old new ns i x :
  x <> old -> ns !! i = Some x -> relabel old new ns !! i = Some x.
Proof.
  intros Hne H. apply relabel_lookup. exists x. split; [done|].
  destruct (String.eqb x old) eqn:E; [|done]. apply String.eqb_eq in E. done.
Qed.

Lemma relabel_origin old new ns i x :
  x <> new -> relabel old new ns !! i = Some x -> ns !! i = Some x.
Proof.
  intros Hne H. apply relabel_lookup in H as (y & Hy & ->).
  destruct (String.eqb y old); [done|done].
Qed.

Lemma relabel_renamed old new ns i :
  ns !! i = Some old -> relabel old new ns !! i = Some new.
Proof.
  intros H. apply relabel_lookup. exists old. split; [done|].
  by rewrite String.eqb_refl.
Qed.

Lemma relabel_In_keeps old new ns x : x <> old -> In x ns -> In x (relabel old new ns).
Proof.
  intros Hne H. apply In_lookup in H as [j Hj]. apply In_lookup.
  exists j. by apply relabel_keeps.
Qed.

Lemma relabel_removes old new ns : old <> new -> ~ In old (relabel old new ns).
Proof.
  intros Hne H. apply In_lookup in H as [j Hj].
  apply relabel_lookup in Hj as (y & Hy & Hyo).
  destruct (String.eqb y old) eqn:E; [done|].
  subst y. by rewrite String.eqb_refl in E.
Qed.

(* A label that is no target is never created. *)
Lemma run_no_creation al : forall ns i x,
  ~ In x (map snd al) -> run_aliases al ns !! i = Some x -> ns !! i = Some x.
Proof.
  induction al as [|e al IH]; intros ns i x Hx H; [done|].
  rewrite run_aliases_cons in H. simpl in Hx.
  apply IH in H; [|tauto].
  destruct (step_names_cases ns e) as [[E _]|[E _]]; rewrite E in H; [done|].
  apply relabel_origin in H; [done|]. intros ->. apply Hx. by left.
Qed.

(* A label that is no alias is never relabelled. *)
Lemma run_keeps_non_alias al : forall ns i x,
  ~ In x (map fst al) -> ns !! i = Some x -> run_aliases al ns !! i = Some x.
Proof.
  induction al as [|e al IH]; intros ns i x Hx H; [done|].
  rewrite run_aliases_cons. simpl in Hx.
  apply IH; [tauto|].
  destruct (step_names_cases ns e) as [[E _]|[E _]]; rewrite E; [done|].
  apply relabel_keeps; [|done]. intros ->. apply Hx. by left.
Qed.

(* While the target is present, nothing new receives its label. *)
Lemma run_present_target_fixed al : forall ns i t,
  In t ns -> ~ In t (map fst al) ->
  run_aliases al ns !! i = Some t -> ns !! i = Some t.
Proof.
  induction al as [|e al IH]; intros ns i t Ht Hk H; [done|].
  rewrite run_aliases_cons in H. simpl in Hk.
  destruct (step_names_cases ns e) as [[E _]|[E (Ha & Hn)]]; rewrite E in H.
  - apply IH in H; tauto.
  - apply IH in H; [|apply relabel_In_keeps; [intros ->; apply Hk; by left|done]|tauto].
    apply relabel_origin in H; [done|]. intros ->. contradiction.
Qed.

(* While the target is present, its aliases keep their label. *)
Lemma run_blocked_alias al : forall ns i a t,
  In t ns -> ~ In t (map fst al) ->
  (forall t', In (a, t') al -> t' = t) ->
  ns !! i = Some a -> run_aliases al ns !! i = Some a.
Proof.
  induction al as [|e al IH]; intros ns i a t Ht Hk Hu H; [done|].
  rewrite run_aliases_cons. simpl in Hk.
  assert (Hu' : forall t', In (a, t') al -> t' = t) by (intros; apply Hu; by right).
  destruct (step_names_cases ns e) as [[E _]|[E (Ha & Hn)]]; rewrite E.
  - apply (IH ns i a t); auto.
  - assert (Hne : a <> fst e).
    { intros ->. destruct e as [a' t']; simpl in *.
      rewrite (Hu t') in Hn by auto. contradiction. }
    apply (IH _ i a t); [|tauto|done|by apply relabel_keeps].
    apply relabel_In_keeps; [intros ->; apply Hk; by left|done].
Qed.

(* A target none of whose aliases is present is not created. *)
Lemma run_absent_target al : forall ns t,
  (forall k, In k (map fst al) -> ~ In k (map snd al)) ->
  ~ In t ns -> (forall a, In (a, t) al -> ~ In a ns) ->
  ~ In t (run_aliases al ns).
Proof.
  induction al as [|e al IH]; intros ns t Hd Ht Ha; [done|].
  rewrite run_aliases_cons.
  assert (Hd' : forall k, In k (map fst al) -> ~ In k (map snd al)).
  { intros k Hk Hs. apply (Hd k); simpl; auto. }
  assert (Ha' : forall a, In (a, t) al -> ~ In a ns).
  { intros a Hin. apply Ha. by right. }
  destruct (step_names_cases ns e) as [[E _]|[E (Hin & Hn)]]; rewrite E.
  - apply IH; auto.
  - destruct e as [a1 t1]; simpl in *.
    assert (Hne : t1 <> t).
    { intros ->. apply (Ha a1); auto. }
    apply IH; [done| |].
    + intros H. apply In_lookup in H as [j Hj].
      apply relabel_origin in Hj; [|done]. apply Ht. apply In_lookup. eauto.
    + intros a Hin' H. apply In_lookup in H as [j Hj].
      assert (a <> t1).
      { intros ->. apply (Hd t1).
        - right. apply in_map_iff. exists (t1, t). auto.
        - by left. }
      apply relabel_origin in Hj; [|done].
      apply (Ha' a); [done|]. apply In_lookup. eauto.
Qed.


Lemma entries_before_split (al : list (string * string)) : forall (a t : string),
  NoDup (map fst al) -> In (a, t) al ->
  exists rest, al = entries_before a al ++ (a, t) :: rest
               /\ ~ In a (map fst (entries_before a al)).
Proof.
  induction al as [|[a1 t1] al IH]; intros a t Hnd Hin; [done|].
  simpl in *. apply NoDup_cons in Hnd as [Hn1 Hnd].
  destruct (String.eqb a1 a) eqn:E.
  - apply String.eqb_eq in E. subst a1. exists al. split; [|tauto].
    destruct Hin as [[= ->]|Hin]; [done|].
    exfalso. apply Hn1. apply list_elem_of_In, in_map_iff. exists (a, t). auto.
  - apply String.eqb_neq in E.
    destruct Hin as [[= -> ->]|Hin]; [done|].
    destruct (IH a t Hnd Hin) as (rest & Heq & Hni).
    exists rest. split; [simpl; by rewrite <- Heq|].
    simpl. intros [?|?]; tauto.
Qed.

Lemma unique_target (al : list (string * string)) (a t t' : string) :
  NoDup (map fst al) -> In (a, t) al -> In (a, t') al -> t = t'.
Proof.
  induction al as [|[a1 t1] al IH]; intros Hnd H1 H2; [done|].
  simpl in *. apply NoDup_cons in Hnd as [Hn1 Hnd].
  assert (Hk : forall x, In (a1, x) al -> False).
  { intros x Hx. apply Hn1. apply list_elem_of_In, in_map_iff. exists (a1, x). auto. }
  destruct H1 as [H1|H1], H2 as [H2|H2].
  - congruence.
  - inversion H1; subst. exfalso; eauto.
  - inversion H2; subst. exfalso; eauto.
  - auto.
Qed.

Lemma run_target_present al ns a t :
  well_formed_table al -> In (a, t) al -> In t ns ->
  forall i, (ns !! i = Some a <-> run_aliases al ns !! i = Some a)
         /\ (ns !! i = Some t <-> run_aliases al ns !! i = Some t).
Proof.
  intros (Hnd & Hdis & _) Hin Ht i.
  assert (Hkey : In a (map fst al)) by (apply in_map_iff; exists (a, t); auto).
  assert (Htar : In t (map snd al)) by (apply in_map_iff; exists (a, t); auto).
  rewrite Forall_forall in Hdis.
  assert (Ha_nt : ~ In a (map snd al)).
  { intros H. apply (Hdis a); apply list_elem_of_In; assumption. }
  assert (Ht_nk : ~ In t (map fst al)).
  { intros H. apply (Hdis t); apply list_elem_of_In; assumption. }
  split; split.
  - apply (run_blocked_alias al ns i a t); auto.
    intros t' H'. symmetry. by apply (unique_target al a).
  - by apply run_no_creation.
  - by apply run_keeps_non_alias.
  - by apply run_present_target_fixed.
Qed.

Lemma run_app al1 al2 ns :
  run_aliases (al1 ++ al2) ns = run_aliases al2 (run_aliases al1 ns).
Proof. unfold run_aliases. apply fold_left_app. Qed.

Lemma run_first_alias al ns a t :
  well_formed_table al -> In (a, t) al -> In a ns -> ~ In t ns ->
  (forall a', In (a', t) (entries_before a al) -> ~ In a' ns) ->
  ~ In a (run_aliases al ns) /\ In t (run_aliases al ns)
  /\ forall i, ns !! i = Some a <-> run_aliases al ns !! i = Some t.
Proof.
  intros (Hnd & Hdis & Hirr) Hin Ha Ht Hfirst.
  rewrite Forall_forall in Hdis. rewrite Forall_forall in Hirr.
  assert (Hdis' : forall k, In k (map fst al) -> ~ In k (map snd al)).
  { intros k Hk Hs. apply (Hdis k); apply list_elem_of_In; assumption. }
  assert (Hat : a <> t).
  { apply (Hirr (a, t)). by apply list_elem_of_In. }
  destruct (entries_before_split al a t Hnd Hin) as (rest & Heq & Hnk).
  remember (entries_before a al) as al1 eqn:Hal1.
  assert (Hk1 : forall k, In k (map fst al1) -> In k (map fst al)).
  { intros k Hk. rewrite Heq, map_app, in_app_iff. by left. }
  assert (Hs1 : forall k, In k (map snd al1) -> In k (map snd al)).
  { intros k Hk. rewrite Heq, map_app, in_app_iff. by left. }
  assert (Hk2 : forall k, In k (map fst rest) -> In k (map fst al)).
  { intros k Hk. rewrite Heq, map_app, in_app_iff. right. by right. }
  assert (Hs2 : forall k, In k (map snd rest) -> In k (map snd al)).
  { intros k Hk. rewrite Heq, map_app, in_app_iff. right. by right. }
  assert (Hakey : In a (map fst al)) by (apply in_map_iff; exists (a, t); auto).
  assert (Httar : In t (map snd al)) by (apply in_map_iff; exists (a, t); auto).
  set (m := run_aliases al1 ns).
  assert (Hm_t : ~ In t m).
  { apply run_absent_target; [|done|done].
    intros k Hk Hs. apply (Hdis' k); auto. }
  assert (Hm_a : forall i, ns !! i = Some a <-> m !! i = Some a).
  { intros i. split.
    - by apply run_keeps_non_alias.
    - apply run_no_creation. intros H. apply (Hdis' a); auto. }
  assert (Hstep : step_names m (a, t) = relabel a t m).
  { destruct (step_names_cases m (a, t)) as [[_ [H|H]]|[E _]]; simpl in *; [|done|done].
    exfalso. apply H. apply In_lookup in Ha as [j Hj]. apply In_lookup.
    exists j. by apply Hm_a. }
  assert (Hrun : run_aliases al ns = run_aliases rest (relabel a t m)).
  { rewrite Heq at 1. rewrite run_app. fold m. rewrite run_aliases_cons. by rewrite Hstep. }
  set (m' := relabel a t m) in *.
  assert (Hm'_t : forall i, ns !! i = Some a <-> m' !! i = Some t).
  { intros i. rewrite Hm_a. split.
    - apply relabel_renamed.
    - intros H. apply relabel_lookup in H as (y & Hy & Hyt).
      destruct (String.eqb y a) eqn:E; [apply String.eqb_eq in E; by subst|].
      subst y. exfalso. apply Hm_t. apply In_lookup. eauto. }
  assert (Hm'_in : In t m').
  { apply In_lookup in Ha as [j Hj]. apply In_lookup. exists j. by apply Hm'_t. }
  assert (Ht_nk : ~ In t (map fst rest)).
  { intros H. apply (Hdis' t); auto. }
  rewrite Hrun. split; [|split].
  - intros H. apply In_lookup in H as [j Hj].
    apply run_no_creation in Hj; [|intros H; apply (Hdis' a); auto].
    apply (relabel_removes a t m Hat). apply In_lookup. eauto.
  - apply In_lookup in Hm'_in as [j Hj]. apply In_lookup. exists j.
    by apply run_keeps_non_alias.
  - intros i. rewrite Hm'_t. split.
    + by apply run_keeps_non_alias.
    + by apply run_present_target_fixed.
Qed.

Lemma ALIASES_well_formed : well_formed_table ALIASES.
Proof.
  repeat split.
  - apply (bool_decide_unpack _). by vm_compute.
  - apply (bool_decide_unpack _). by vm_compute.
  - apply (bool_decide_unpack _). by vm_compute.
Qed.

Lemma names_canonicalize (df : DataFrame) :
  df_empty df = false ->
  names (canonicalize_columns df)
  = run_aliases ALIASES (map normalize (names df)).
Proof.
  intros He. unfold canonicalize_columns. rewrite He.
  rewrite names_apply_aliases. rewrite names_rename_with. unfold run_aliases. reflexivity.
Qed.

Lemma data_canonicalize (df : DataFrame) :
  map snd (columns (canonicalize_columns df)) = map snd (columns df)
  /\ index_len (canonicalize_columns df) = index_len df.
Proof.
  unfold canonicalize_columns. destruct (df_empty df); [split; reflexivity|].
  destruct (data_apply_aliases ALIASES (rename_with normalize df)) as [E1 E2].
  rewrite E1, E2. rewrite data_rename_with. split; reflexivity.
Qed.

(** C1, as the code has it.  For a non-empty table and an entry
    [alias -> target] of the alias table, with [N] the normalized labels:
    the data of every column stays where it is; when the target is among [N],
    the columns labelled [alias] keep that label (they are not dropped) and
    the columns labelled [target] are exactly those of the input; when the
    alias is among [N], the target is not, and no alias of the same target
    that the table lists earlier is among [N], the columns labelled [alias]
    are relabelled [target], so the target is present and the alias absent. *)
Theorem canonicalize_alias_policy (df : DataFrame) (alias target : string) :
  df_empty df = false ->
  In (alias, target) ALIASES ->
  let N := map normalize (names df) in
  let out := canonicalize_columns df in
  (map snd (columns out) = map snd (columns df) /\ index_len out = index_len df)
  /\ (In target N ->
      forall i, (N !! i = Some alias <-> names out !! i = Some alias)
             /\ (N !! i = Some target <-> names out !! i = Some target))
  /\ (In alias N -> ~ In target N ->
      (forall a, In (a, target) (entries_before alias ALIASES) -> ~ In a N) ->
      ~ In alias (names out) /\ In target (names out)
      /\ forall i, N !! i = Some alias <-> names out !! i = Some target).
Proof.
  intros He Hin N out. subst N out.
  rewrite (names_canonicalize df He).
  split; [apply data_canonicalize|]. split.
  - intros Ht. apply run_target_present.
    + exact ALIASES_well_formed.
    + exact Hin.
    + exact Ht.
  - intros Ha Ht Hfirst. apply run_first_alias.
    + exact ALIASES_well_formed.
    + exact Hin.
    + exact Ha.
    + exact Ht.
    + exact Hfirst.
Qed.

Lemma In_decide (x : string) (l : list string) :
  existsb (String.eqb x) l = true -> In x l.
Proof. apply existsb_eqb_In. Qed.

Lemma not_In_decide (x : string) (l : list string) :
  existsb (String.eqb x) l = false -> ~ In x l.
Proof. intros H Hin. apply existsb_eqb_In in Hin. congruence. Qed.

Lemma In_entry_decide (a t : string) (al : list (string * string)) :
  existsb (fun e => String.eqb (fst e) a && String.eqb (snd e) t) al = true ->
  In (a, t) al.
Proof.
  intros H. apply existsb_exists in H as ([a' t'] & Hin & He).
  apply andb_true_iff in He as [Ha Ht]. simpl in *.
  apply String.eqb_eq in Ha, Ht. by subst.
Qed.

Lemma earlier_aliases_decide (t : string) (al : list (string * string))
    (ns : list string) :
  forallb (fun e => negb (String.eqb (snd e) t)
                    || negb (existsb (String.eqb (fst e)) ns)) al = true ->
  forall a, In (a, t) al -> ~ In a ns.
Proof.
  intros H a Hin Ha. rewrite forallb_forall in H.
  specialize (H _ Hin). simpl in H. rewrite String.eqb_refl in H. simpl in H.
  apply negb_true_iff in H. apply existsb_eqb_In in Ha. congruence.
Qed.

(** C1 as stated fails: a table that carries the alias [src] and its target
    [source_ip] comes back unchanged, the alias column still there. *)
Lemma canonicalize_keeps_alias_counterexample :
  In ("src", "source_ip") ALIASES
  /\ In "src" (names both_present) /\ In "source_ip" (names both_present)
  /\ canonicalize_columns both_present = both_present
  /\ In "src" (names (canonicalize_columns both_present)).
Proof.
  split; [apply In_entry_decide; vm_compute; reflexivity|].
  split; [apply In_decide; vm_compute; reflexivity|].
  split; [apply In_decide; vm_compute; reflexivity|].
  split; [vm_compute; reflexivity|].
  apply In_decide; vm_compute; reflexivity.
Qed.

Lemma canonicalize_alias_policy_witness :
  df_empty alias_only = false
  /\ In ("src_ip", "source_ip") ALIASES
  /\ let N := map normalize (names alias_only) in
     let out := canonicalize_columns alias_only in
     (map snd (columns out) = map snd (columns alias_only)
      /\ index_len out = index_len alias_only)
     /\ (In "source_ip" N ->
         forall i, (N !! i = Some "src_ip" <-> names out !! i = Some "src_ip")
                /\ (N !! i = Some "source_ip"
                    <-> names out !! i = Some "source_ip"))
     /\ (In "src_ip" N -> ~ In "source_ip" N ->
         (forall a, In (a, "source_ip") (entries_before "src_ip" ALIASES) ->
                    ~ In a N) ->
         ~ In "src_ip" (names out) /\ In "source_ip" (names out)
         /\ forall i, N !! i = Some "src_ip"
                      <-> names out !! i = Some "source_ip").
Proof.
  assert (He : df_empty alias_only = false) by (vm_compute; reflexivity).
  assert (Hin : In ("src_ip", "source_ip") ALIASES)
    by (apply In_entry_decide; vm_compute; reflexivity).
  split; [exact He|]. split; [exact Hin|].
  exact (canonicalize_alias_policy alias_only "src_ip" "source_ip" He Hin).
Defined.

(** On that table the alias is indeed the one relabelled. *)
Example canonicalize_alias_only :
  names (canonicalize_columns alias_only) = ["source_ip"; "note"].
Proof. vm_compute. reflexivity. Qed.

(** ** Feature aligner *)

Section AlignFacts.

Import Align.

Lemma has_column_In (label : string) (X : DataFrame) :
  has_column label X = true <-> In label (names X).
Proof. unfold has_column. apply existsb_eqb_In. Qed.

Lemma same_label_true (f : string) (c : string * list cell) :
  same_label f c = true <-> fst c = f.
Proof. unfold same_label. apply String.eqb_eq. Qed.

Lemma select_labels (f : string) (X : DataFrame) (c : string * list cell) :
  In c (select f X) -> fst c = f.
Proof.
  unfold select. intros H. apply filter_In in H as [_ H].
  by apply same_label_true.
Qed.

Lemma select_nil_iff (f : string) (X : DataFrame) :
  select f X = [] <-> ~ In f (names X).
Proof.
  unfold select, names. induction (columns X) as [|c cs IH]; simpl.
  - tauto.
  - destruct (same_label f c) eqn:E.
    + apply same_label_true in E. split; [done|]. intros H. exfalso. apply H. by left.
    + split.
      * intros H [Hc|Hc]; [|by apply IH].
        apply same_label_true in Hc. congruence.
      * intros H. apply IH. tauto.
Qed.

Lemma ensure_column_eq (X : DataFrame) (col : string) :
  ensure_column X col
  = if has_column col X then X
    else mkDF (index_len X) (columns X ++ [(col, repeat (CInt 0) (index_len X))]).
Proof.
  unfold ensure_column, setitem_scalar. by destruct (has_column col X).
Qed.

(** The loop only appends: one column of zeros per missing name. *)
Lemma fold_ensure_column (F : list string) : forall X,
  fold_left ensure_column F X
  = mkDF (index_len X)
      (columns X ++ map (fun f => (f, repeat (CInt 0) (index_len X)))
                        (missing F (names X))).
Proof.
  induction F as [|f F IH]; intros X; simpl.
  - rewrite app_nil_r. by destruct X.
  - rewrite IH, ensure_column_eq. unfold has_column.
    destruct (existsb (String.eqb f) (names X)); [done|].
    simpl. unfold names at 1. simpl. rewrite map_app. simpl.
    by rewrite <- app_assoc.
Qed.

Lemma missing_In (F : list string) : forall ns f,
  In f (missing F ns) <-> In f F /\ ~ In f ns.
Proof.
  induction F as [|g F IH]; intros ns f; simpl; [tauto|].
  destruct (existsb (String.eqb g) ns) eqn:E.
  - apply existsb_eqb_In in E. rewrite IH. split.
    + tauto.
    + intros [[->|H] Hn]; tauto.
  - assert (Hg : ~ In g ns) by (intros H; apply existsb_eqb_In in H; congruence).
    simpl. rewrite IH, in_app_iff. simpl. split.
    + intros [->|(H1 & H2)]; tauto.
    + intros [[->|H] Hn]; [by left|].
      destruct (String.eqb_spec g f) as [->|Hne]; [by left|]. right. tauto.
Qed.

Lemma missing_NoDup (F : list string) : forall ns, NoDup (missing F ns).
Proof.
  induction F as [|g F IH]; intros ns; simpl; [constructor|].
  destruct (existsb (String.eqb g) ns); [apply IH|].
  constructor; [|apply IH].
  rewrite list_elem_of_In, missing_In, in_app_iff. simpl. tauto.
Qed.

Lemma filter_zero_columns (n : nat) (f : string) (M : list string) :
  NoDup M ->
  List.filter (same_label f) (map (fun g => (g, repeat (CInt 0) n)) M)
  = if existsb (String.eqb f) M then [(f, repeat (CInt 0) n)] else [].
Proof.
  induction M as [|g M IH]; intros Hnd; simpl; [done|].
  apply NoDup_cons in Hnd as [Hg Hnd]. rewrite (IH Hnd).
  unfold same_label at 1. simpl. rewrite (String.eqb_sym f g).
  destruct (String.eqb_spec g f) as [->|Hne]; simpl; [|done].
  destruct (existsb (String.eqb f) M) eqn:E; [|done].
  apply existsb_eqb_In in E. exfalso. apply Hg. by apply list_elem_of_In.
Qed.

(** The columns selected for one expected name after the loop. *)
Lemma select_after_loop (X : DataFrame) (F : list string) (f : string) :
  In f F ->
  map (fun c => (fst c, fillna_series (CInt 0) (snd c)))
      (select f (fold_left ensure_column F X))
  = aligned_group X f.
Proof.
  intros Hf. rewrite fold_ensure_column. unfold select, aligned_group. simpl.
  rewrite List.filter_app, (filter_zero_columns _ _ _ (missing_NoDup F (names X))).
  fold (select f X).
  destruct (select f X) as [|c cs] eqn:Hs.
  - assert (Hm : existsb (String.eqb f) (missing F (names X)) = true).
    { apply existsb_eqb_In, missing_In. split; [done|]. by apply select_nil_iff. }
    rewrite Hm. simpl. unfold fillna_series.
    f_equal. f_equal. induction (index_len X); simpl; congruence.
  - assert (Hm : existsb (String.eqb f) (missing F (names X)) = false).
    { destruct (existsb (String.eqb f) (missing F (names X))) eqn:E; [|done].
      apply existsb_eqb_In, missing_In in E as [_ E]. exfalso. apply E.
      assert (Hc : In c (select f X)) by (rewrite Hs; by left).
      unfold select in Hc. apply filter_In in Hc as [Hc Hl].
      apply same_label_true in Hl. subst f.
      unfold names. apply in_map_iff. by exists c. }
    rewrite Hm, app_nil_r. done.
Qed.

End AlignFacts.

Section AlignTheorems.

Import Align.

Lemma flat_map_ext_In {A B : Type} (g h : A -> list B) (l : list A) :
  (forall x, In x l -> g x = h x) -> flat_map g l = flat_map h l.
Proof.
  induction l as [|x l IH]; intros H; simpl; [done|].
  rewrite (H x) by (by left). f_equal. apply IH. intros y Hy. apply H. by right.
Qed.

Lemma loop_has_all (X : DataFrame) (F : list string) :
  forallb (fun l => has_column l (fold_left ensure_column F X)) F = true.
Proof.
  apply forallb_forall. intros f Hf. apply has_column_In.
  rewrite fold_ensure_column. unfold names. simpl. rewrite map_app, in_app_iff.
  destruct (existsb (String.eqb f) (names X)) eqn:E.
  - left. by apply existsb_eqb_In.
  - right. rewrite map_map. simpl. rewrite map_id. apply missing_In.
    split; [done|]. intros H. apply existsb_eqb_In in H.
    unfold names in E. congruence.
Qed.

(** What the aligner returns, for any table and any list of names. *)
Lemma align_features_columns (X : DataFrame) (F : list string) :
  align_features X F
  = Some (mkDF (index_len X) (flat_map (aligned_group X) F)).
Proof.
  unfold align_features, getitem_list. rewrite loop_has_all.
  unfold fillna. simpl. f_equal. f_equal.
  - by rewrite fold_ensure_column.
  - rewrite flat_map_concat_map, concat_map, map_map, <- flat_map_concat_map.
    apply flat_map_ext_In. intros f Hf. by apply select_after_loop.
Qed.

Lemma aligned_group_single (X : DataFrame) (f : string) :
  (length (select f X) <= 1)%nat -> aligned_group X f = [expected_column X f].
Proof.
  unfold aligned_group, expected_column. intros H.
  destruct (select f X) as [|c [|c' cs]] eqn:Hs; simpl in *; [done| |lia].
  assert (Hc : In c (select f X)) by (rewrite Hs; by left).
  apply select_labels in Hc. by rewrite Hc.
Qed.

(** C5, as the code has it.  Alignment always returns a table.  When no
    expected name is carried by more than one column of [X], that table has
    exactly [len(F)] columns, named [F] in order: for a name absent from [X] a
    column of zeros, for a name present in [X] that column with its nulls
    replaced by 0; columns of [X] whose name is not in [F] do not occur. *)
Theorem align_features_shape (X : DataFrame) (F : list string) :
  (forall f, In f F -> (length (select f X) <= 1)%nat) ->
  exists Y, align_features X F = Some Y
    /\ index_len Y = index_len X
    /\ names Y = F
    /\ length (columns Y) = length F
    /\ columns Y = map (expected_column X) F.
Proof.
  intros Huniq. rewrite align_features_columns. eexists. split; [reflexivity|].
  assert (Hcols : flat_map (aligned_group X) F = map (expected_column X) F).
  { rewrite (flat_map_ext_In _ (fun f => [expected_column X f])).
    - clear Huniq. induction F as [|f F IH]; simpl; congruence.
    - intros f Hf. apply aligned_group_single. by apply Huniq. }
  simpl. rewrite Hcols. split; [done|]. split; [|split; [by rewrite length_map|done]].
  unfold names. simpl. rewrite map_map.
  rewrite <- (map_id F) at 2. apply map_ext. intros f.
  unfold expected_column. by destruct (select f X).
Qed.

(** Alignment is total, whatever the table and the names. *)
Lemma align_features_total (X : DataFrame) (F : list string) :
  exists Y, align_features X F = Some Y.
Proof. rewrite align_features_columns. eauto. Qed.

(** C5 as stated fails: with a label carried by two columns, the aligned table
    has two columns for a single expected name. *)
Lemma align_features_width_counterexample :
  exists Y, align_features twice_a ["a"] = Some Y
    /\ length (columns Y) = 2%nat /\ length ["a"] = 1%nat.
Proof. eexists. split; [vm_compute; reflexivity|]. split; reflexivity. Qed.

Lemma align_features_shape_witness :
  (forall f, In f ["hour"; "dst_ip_int"; "username_bob"] ->
             (length (select f sample_features) <= 1)%nat)
  /\ exists Y, align_features sample_features ["hour"; "dst_ip_int"; "username_bob"]
               = Some Y
    /\ index_len Y = index_len sample_features
    /\ names Y = ["hour"; "dst_ip_int"; "username_bob"]
    /\ length (columns Y) = length ["hour"; "dst_ip_int"; "username_bob"]
    /\ columns Y = map (expected_column sample_features)
                       ["hour"; "dst_ip_int"; "username_bob"].
Proof.
  assert (H : forall f, In f ["hour"; "dst_ip_int"; "username_bob"] ->
                        (length (select f sample_features) <= 1)%nat).
  { intros f [<-|[<-|[<-|[]]]]; vm_compute; lia. }
  split; [exact H|].
  exact (align_features_shape sample_features
           ["hour"; "dst_ip_int"; "username_bob"] H).
Defined.

Example align_sample :
  align_features sample_features ["hour"; "dst_ip_int"; "username_bob"]
  = Some (mkDF 2 [ ("hour", [CInt 10; CInt 23]);
                   ("dst_ip_int", [CInt 0; CInt 0]);
                   ("username_bob", [CInt 0; CInt 1]) ]).
Proof. vm_compute. reflexivity. Qed.

End AlignTheorems.

Section AlignIdempotent.

Import Align.

Lemma filter_none {A : Type} (p : A -> bool) (l : list A) :
  (forall x, In x l -> p x = false) -> List.filter p l = [].
Proof.
  induction l as [|x l IH]; intros H; simpl; [done|].
  rewrite (H x) by (by left). apply IH. intros y Hy. apply H. by right.
Qed.

Lemma filter_all {A : Type} (p : A -> bool) (l : list A) :
  (forall x, In x l -> p x = true) -> List.filter p l = l.
Proof.
  induction l as [|x l IH]; intros H; simpl; [done|].
  rewrite (H x) by (by left). f_equal. apply IH. intros y Hy. apply H. by right.
Qed.

Lemma fill_cell_idem (v c : cell) : v <> CNull -> fill_cell v (fill_cell v c) = fill_cell v c.
Proof. intros Hv. destruct c; simpl; try done. by destruct v. Qed.

Lemma fillna_series_idem (l : list cell) :
  fillna_series (CInt 0) (fillna_series (CInt 0) l) = fillna_series (CInt 0) l.
Proof.
  unfold fillna_series. rewrite map_map. apply map_ext. intros c.
  by apply fill_cell_idem.
Qed.

Lemma fillna_zeros (n : nat) :
  fillna_series (CInt 0) (repeat (CInt 0) n) = repeat (CInt 0) n.
Proof. unfold fillna_series. induction n; simpl; congruence. Qed.

Lemma aligned_group_labels (X : DataFrame) (f : string) (c : string * list cell) :
  In c (aligned_group X f) -> fst c = f.
Proof.
  unfold aligned_group. destruct (select f X) as [|c0 cs] eqn:Hs.
  - intros [<-|[]]. done.
  - intros H. apply in_map_iff in H as (c1 & <- & H1). simpl.
    apply (select_labels f X). by rewrite Hs.
Qed.

Lemma aligned_group_nonempty (X : DataFrame) (f : string) :
  aligned_group X f <> [].
Proof. unfold aligned_group. by destruct (select f X). Qed.

Lemma aligned_group_filled (X : DataFrame) (f : string) :
  map (fun c => (fst c, fillna_series (CInt 0) (snd c))) (aligned_group X f)
  = aligned_group X f.
Proof.
  unfold aligned_group. destruct (select f X) as [|c0 cs]; simpl.
  - by rewrite fillna_zeros.
  - rewrite fillna_series_idem. f_equal. rewrite map_map. apply map_ext.
    intros c. simpl. by rewrite fillna_series_idem.
Qed.

(** With pairwise distinct names, selecting one name from the groups laid out
    name by name gives back that name's group. *)
Lemma filter_groups (g : string -> list (string * list cell)) (F : list string)
    (f : string) :
  NoDup F -> (forall f' c, In c (g f') -> fst c = f') -> In f F ->
  List.filter (same_label f) (flat_map g F) = g f.
Proof.
  intros Hnd Hlab. induction F as [|h F IH]; intros Hf; [done|].
  apply NoDup_cons in Hnd as [Hh Hnd]. simpl. rewrite List.filter_app.
  assert (Hother : forall f1 f2, f1 <> f2 -> List.filter (same_label f1) (g f2) = []).
  { intros f1 f2 Hne. apply filter_none. intros c Hc.
    destruct (same_label f1 c) eqn:E; [|done].
    apply same_label_true in E. apply Hlab in Hc. congruence. }
  assert (Hsame : forall f1, List.filter (same_label f1) (g f1) = g f1).
  { intros f1. apply filter_all. intros c Hc.
    apply same_label_true. by apply Hlab. }
  destruct (String.eqb_spec h f) as [->|Hne].
  - rewrite Hsame.
    assert (Hrest : List.filter (same_label f) (flat_map g F) = []).
    { clear IH Hnd Hf. induction F as [|k F IH]; [done|]. simpl.
      rewrite List.filter_app, Hother, IH; [done| |].
      - intros H. apply Hh. apply list_elem_of_In. right.
        by apply list_elem_of_In in H.
      - intros ->. apply Hh. apply list_elem_of_In. by left. }
    rewrite Hrest. apply app_nil_r.
  - rewrite Hother by done. simpl. apply IH; [done|].
    destruct Hf as [Hf|Hf]; [congruence|done].
Qed.

Lemma aligned_group_again (X : DataFrame) (F : list string) (f : string) :
  NoDup F -> In f F ->
  aligned_group (mkDF (index_len X) (flat_map (aligned_group X) F)) f
  = aligned_group X f.
Proof.
  intros Hnd Hf. unfold aligned_group at 1. unfold select. simpl.
  rewrite (filter_groups (aligned_group X) F f Hnd (aligned_group_labels X) Hf).
  pose proof (aligned_group_nonempty X f) as Hne.
  pose proof (aligned_group_filled X f) as Hfill.
  destruct (aligned_group X f) as [|c cs]; [done|exact Hfill].
Qed.

(** C6, as the code has it: for pairwise distinct expected names, aligning an
    aligned table changes nothing, whatever the table [X]. *)
Theorem align_features_idempotent (X : DataFrame) (F : list string) :
  NoDup F ->
  match align_features X F with
  | Some Y => align_features Y F
  | None => None
  end = align_features X F.
Proof.
  intros Hnd. rewrite (align_features_columns X F).
  rewrite align_features_columns. simpl. f_equal. f_equal.
  apply flat_map_ext_In. intros f Hf. by apply aligned_group_again.
Qed.

(** C6 as stated fails: with an expected name listed twice, the first
    alignment returns two columns and the second one four. *)
Lemma align_features_idempotent_counterexample :
  exists Y Z, align_features once_a ["a"; "a"] = Some Y
    /\ align_features Y ["a"; "a"] = Some Z
    /\ length (columns Y) = 2%nat /\ length (columns Z) = 4%nat /\ Z <> Y.
Proof.
  eexists. eexists. split; [vm_compute; reflexivity|].
  split; [vm_compute; reflexivity|]. split; [reflexivity|].
  split; [reflexivity|]. intros H. discriminate H.
Qed.

Lemma align_features_idempotent_witness :
  NoDup ["hour"; "dst_ip_int"; "username_bob"]
  /\ match align_features sample_features ["hour"; "dst_ip_int"; "username_bob"] with
     | Some Y => align_features Y ["hour"; "dst_ip_int"; "username_bob"]
     | None => None
     end = align_features sample_features ["hour"; "dst_ip_int"; "username_bob"].
Proof.
  assert (H : NoDup ["hour"; "dst_ip_int"; "username_bob"]).
  { apply (bool_decide_unpack _). vm_compute. reflexivity. }
  split; [exact H|].
  exact (align_features_idempotent sample_features
           ["hour"; "dst_ip_int"; "username_bob"] H).
Defined.

End AlignIdempotent.

(** ** Feature aligner on the store: the argument is left alone *)

Section HeapFacts.

Import Heap.
Local Open Scope heap_scope.

Lemma insert_last (h : heap) (d d' : DataFrame) :
  <[length h := d']> (h ++ [d]) = h ++ [d'].
Proof.
  rewrite insert_app_r_alt by lia. by rewrite Nat.sub_diag.
Qed.

Lemma lookup_last (h : heap) (d : DataFrame) : (h ++ [d]) !! length h = Some d.
Proof. rewrite lookup_app_r by lia. by rewrite Nat.sub_diag. Qed.

Lemma bind_run {A B} (m : M A) (k : A -> M B) (h h1 : heap) (a : A) :
  m h = Some (a, h1) -> bind m k h = k a h1.
Proof. intros H. unfold bind. by rewrite H. Qed.

Lemma read_run (h : heap) (l : loc) (d : DataFrame) :
  h !! l = Some d -> read l h = Some (d, h).
Proof. intros H. unfold read. by rewrite H. Qed.

Lemma copy_run (h : heap) (X : loc) (d : DataFrame) :
  h !! X = Some d -> copy X h = Some (length h, h ++ [d]).
Proof. intros H. unfold copy. by rewrite (bind_run _ _ _ _ _ (read_run _ _ _ H)). Qed.

Lemma contains_run (h : heap) (X : loc) (d : DataFrame) (col : string) :
  h !! X = Some d -> contains X col h = Some (has_column col d, h).
Proof. intros H. unfold contains. by rewrite (bind_run _ _ _ _ _ (read_run _ _ _ H)). Qed.

Lemma setitem_run (h : heap) (X : loc) (d : DataFrame) (col : string) (v : cell) :
  h !! X = Some d ->
  setitem X col v h = Some (tt, <[X := Align.setitem_scalar col v d]> h).
Proof. intros H. unfold setitem. by rewrite (bind_run _ _ _ _ _ (read_run _ _ _ H)). Qed.

Lemma getitem_run (h : heap) (X : loc) (d d2 : DataFrame) (labels : list string) :
  h !! X = Some d -> Align.getitem_list labels d = Some d2 ->
  getitem X labels h = Some (length h, h ++ [d2]).
Proof.
  intros H H2. unfold getitem.
  rewrite (bind_run _ _ _ _ _ (read_run _ _ _ H)). by rewrite H2.
Qed.

Lemma fillna_run (h : heap) (X : loc) (d : DataFrame) (v : cell) :
  h !! X = Some d -> fillna X v h = Some (length h, h ++ [Align.fillna v d]).
Proof. intros H. unfold fillna. by rewrite (bind_run _ _ _ _ _ (read_run _ _ _ H)). Qed.

(** The loop touches the copy only, and does to it what the value-level loop
    does. *)
Lemma for_each_ensure (F : list string) : forall (h : heap) (d : DataFrame),
  for_each F (fun col =>
                let! present := contains (length h) col in
                if present then ret tt else setitem (length h) col (CInt 0))
           (h ++ [d])
  = Some (tt, h ++ [fold_left Align.ensure_column F d]).
Proof.
  induction F as [|f F IH]; intros h d; simpl; [done|].
  unfold Align.ensure_column at 2.
  rewrite (bind_run _ _ (h ++ [d])
             (if has_column f d then h ++ [d]
              else h ++ [Align.setitem_scalar f (CInt 0) d]) tt).
  - destruct (has_column f d); apply IH.
  - rewrite (bind_run _ _ _ _ _ (contains_run _ _ d f (lookup_last h d))).
    destruct (has_column f d); [done|].
    rewrite (setitem_run _ _ d _ _ (lookup_last h d)). by rewrite insert_last.
Qed.

(** C10.  Running [align_features] on a reference [X] of the store returns
    normally with a new reference; the frame behind [X], and every other frame
    that existed before the call, is the same afterwards; the new reference
    holds the aligned value of the frame behind [X]. *)
Theorem align_features_keeps_input (h : heap) (X : loc) (F : list string)
    (df : DataFrame) :
  h !! X = Some df ->
  exists (res : loc) (h' : heap),
    Heap.align_features X F h = Some (res, h')
    /\ h' !! X = Some df
    /\ (forall l d, h !! l = Some d -> h' !! l = Some d)
    /\ h !! res = None
    /\ exists Y, Align.align_features df F = Some Y /\ h' !! res = Some Y.
Proof.
  intros HX.
  destruct (align_features_total df F) as [Y HY].
  assert (Hget : exists X2, Align.getitem_list F (fold_left Align.ensure_column F df)
                            = Some X2 /\ Y = Align.fillna (CInt 0) X2).
  { unfold Align.align_features in HY.
    destruct (Align.getitem_list F (fold_left Align.ensure_column F df)) as [X2|];
      [|done].
    exists X2. split; [done|]. congruence. }
  destruct Hget as (X2 & Hget & ->).
  exists (S (S (length h))),
    (h ++ [fold_left Align.ensure_column F df] ++ [X2]
       ++ [Align.fillna (CInt 0) X2]).
  split; [|split; [|split; [|split]]].
  - unfold Heap.align_features.
    rewrite (bind_run _ _ _ _ _ (copy_run _ _ _ HX)).
    rewrite (bind_run _ _ _ _ _ (for_each_ensure F h df)).
    rewrite (bind_run _ _ _ _ _
               (getitem_run _ _ _ _ _ (lookup_last h _) Hget)).
    rewrite (fillna_run _ (length (h ++ [fold_left Align.ensure_column F df])) X2).
    + rewrite !length_app. simpl. rewrite <- !app_assoc. simpl.
      f_equal. f_equal. lia.
    + apply lookup_last.
  - apply lookup_app_l_Some. exact HX.
  - intros l d Hl. by apply lookup_app_l_Some.
  - apply lookup_ge_None. lia.
  - exists (Align.fillna (CInt 0) X2). split; [exact HY|].
    unfold heap, loc in *. rewrite lookup_app_r by lia.
    replace (S (S (length h)) - length h)%nat with 2%nat by lia. reflexivity.
Qed.

Lemma align_features_keeps_input_witness :
  [Align.sample_features] !! 0%nat = Some Align.sample_features
  /\ exists (res : loc) (h' : heap),
      Heap.align_features 0%nat ["hour"; "dst_ip_int"] [Align.sample_features]
      = Some (res, h')
      /\ h' !! 0%nat = Some Align.sample_features
      /\ (forall l d, [Align.sample_features] !! l = Some d -> h' !! l = Some d)
      /\ [Align.sample_features] !! res = None
      /\ exists Y, Align.align_features Align.sample_features ["hour"; "dst_ip_int"]
                   = Some Y /\ h' !! res = Some Y.
Proof.
  assert (H : [Align.sample_features] !! 0%nat = Some Align.sample_features)
    by reflexivity.
  split; [exact H|].
  exact (align_features_keeps_input [Align.sample_features] 0%nat
           ["hour"; "dst_ip_int"] Align.sample_features H).
Defined.

(** The store after one call: the argument, the copy with the appended
    column, the selection, and the result. *)
Example align_features_store :
  Heap.align_features 0%nat ["hour"; "dst_ip_int"] [Align.sample_features]
  = Some (3%nat,
          [ Align.sample_features;
            mkDF 2 [ ("hour", [CInt 10; CInt 23]);
                     ("status_failed", [CInt 1; CNull]);
                     ("username_bob", [CInt 0; CInt 1]);
                     ("dst_ip_int", [CInt 0; CInt 0]) ];
            mkDF 2 [ ("hour", [CInt 10; CInt 23]);
                     ("dst_ip_int", [CInt 0; CInt 0]) ];
            mkDF 2 [ ("hour", [CInt 10; CInt 23]);
                     ("dst_ip_int", [CInt 0; CInt 0]) ] ]).
Proof. vm_compute. reflexivity. Qed.

End HeapFacts.

(** ** Risk labelling *)

Section RiskFacts.

Import Risk.
Local Open Scope float_scope.

Lemma SFcompare_antisym (a b : spec_float) :
  SFcompare b a = option_map CompOpp (SFcompare a b).
Proof.
  destruct a as [sa|sa| |sa ma ea], b as [sb|sb| |sb mb eb]; simpl;
    try reflexivity; try (destruct sa; reflexivity);
    try (destruct sb; reflexivity);
    try (destruct sa, sb; reflexivity).
  pose proof (Pos.compare_cont_antisym ma mb Eq) as HH. simpl in HH.
  destruct sa, sb; simpl; try reflexivity;
    rewrite (Z.compare_antisym ea eb); destruct (ea ?= eb)%Z; simpl;
    rewrite <- ?HH, ?CompOpp_involutive; reflexivity.
Qed.

Lemma SFcompare_None (a b : spec_float) :
  SFcompare a b = None -> a = S754_nan \/ b = S754_nan.
Proof.
  destruct a as [sa|sa| |sa ma ea], b as [sb|sb| |sb mb eb]; simpl;
    intros H; try discriminate H; auto.
Qed.

(** On floats that are not NaN, [x < y] is the negation of [y <= x]. *)
Lemma ltb_negb_leb (x y : float) :
  Prim2SF x <> S754_nan -> Prim2SF y <> S754_nan ->
  (x <? y) = negb (y <=? x).
Proof.
  intros Hx Hy. rewrite ltb_spec, leb_spec. unfold SFltb, SFleb.
  rewrite (SFcompare_antisym (Prim2SF x) (Prim2SF y)).
  destruct (SFcompare (Prim2SF x) (Prim2SF y)) as [[]|] eqn:E; simpl; try reflexivity.
  apply SFcompare_None in E. tauto.
Qed.

Lemma leb_not_nan_r (x y : float) : (x <=? y) = true -> Prim2SF y <> S754_nan.
Proof.
  rewrite leb_spec. unfold SFleb. intros H Hn. rewrite Hn in H.
  by destruct (Prim2SF x).
Qed.

Lemma ltb_not_nan_l (x y : float) : (x <? y) = true -> Prim2SF x <> S754_nan.
Proof.
  rewrite ltb_spec. unfold SFltb. intros H Hn. rewrite Hn in H. done.
Qed.

Lemma SF_0_8 : Prim2SF 0.8 = S754_finite false 7205759403792794 (-53).
Proof. vm_compute. reflexivity. Qed.

Lemma SF_0_5 : Prim2SF 0.5 = S754_finite false 4503599627370496 (-53).
Proof. vm_compute. reflexivity. Qed.

Lemma compare_cont_le (a b m : positive) :
  (a <= b)%positive ->
  match Pos.compare_cont Eq b m with Lt | Eq => true | Gt => false end = true ->
  match Pos.compare_cont Eq a m with Lt | Eq => true | Gt => false end = true.
Proof.
  change (Pos.compare_cont Eq b m) with (b ?= m)%positive.
  change (Pos.compare_cont Eq a m) with (a ?= m)%positive.
  intros Hab.
  destruct (Pos.compare_spec b m) as [H|H|H];
    destruct (Pos.compare_spec a m) as [H'|H'|H'];
    intros Hc; first [reflexivity | discriminate Hc | lia].
Qed.

(** The two thresholds are ordered: what reaches 0.8 reaches 0.5. *)
Lemma leb_0_8_0_5 (risk : float) :
  (0.8 <=? risk) = true -> (0.5 <=? risk) = true.
Proof.
  rewrite !leb_spec, SF_0_8, SF_0_5. unfold SFleb, SFcompare.
  destruct (Prim2SF risk) as [s|s| |s m e]; cbv beta iota;
    [exact (fun H => H)|exact (fun H => H)|exact (fun H => H)|].
  destruct s; [exact (fun H => H)|].
  destruct (-53 ?= e)%Z; [|exact (fun H => H)|exact (fun H => H)].
  apply compare_cont_le. vm_compute. discriminate.
Qed.

(** C2.  For a risk score in [0, 1] exactly one rung of the ladder applies and
    it decides the label: at least 0.8 gives malicious, at least 0.5 and below
    0.8 gives suspicious, below 0.5 gives benign; 0.8 itself is malicious, 0.5
    itself suspicious, 0.79999 suspicious and 0.49999 benign. *)
Theorem label_of_risk_ladder (risk : float) :
  in_unit_interval risk ->
  ((0.8 <=? risk) = true -> label_of_risk risk = "malicious"%string)
  /\ ((0.5 <=? risk) = true -> (risk <? 0.8) = true ->
      label_of_risk risk = "suspicious"%string)
  /\ ((risk <? 0.5) = true -> label_of_risk risk = "benign"%string)
  /\ ((0.8 <=? risk) = true
      \/ ((0.5 <=? risk) = true /\ (risk <? 0.8) = true)
      \/ (risk <? 0.5) = true)
  /\ label_of_risk 0.8 = "malicious"%string
  /\ label_of_risk 0.5 = "suspicious"%string
  /\ label_of_risk 0.79999 = "suspicious"%string
  /\ label_of_risk 0.49999 = "benign"%string.
Proof.
  intros [H0 H1].
  assert (Hn : Prim2SF risk <> S754_nan) by (by apply (leb_not_nan_r 0 risk)).
  assert (Hn8 : Prim2SF 0.8 <> S754_nan) by (rewrite SF_0_8; discriminate).
  assert (Hn5 : Prim2SF 0.5 <> S754_nan) by (rewrite SF_0_5; discriminate).
  pose proof (ltb_negb_leb risk 0.8 Hn Hn8) as L8.
  pose proof (ltb_negb_leb risk 0.5 Hn Hn5) as L5.
  pose proof (leb_0_8_0_5 risk) as T.
  unfold label_of_risk.
  repeat split; try (vm_compute; reflexivity).
  - intros H. by rewrite H.
  - intros H5 H8. rewrite H8 in L8. apply (f_equal negb) in L8.
    rewrite negb_involutive in L8. simpl in L8. by rewrite <- L8, H5.
  - intros H5. rewrite H5 in L5. apply (f_equal negb) in L5.
    rewrite negb_involutive in L5. simpl in L5.
    destruct (0.8 <=? risk) eqn:E8; [|by rewrite <- L5].
    rewrite T in L5 by done. discriminate L5.
  - destruct (0.8 <=? risk) eqn:E8; [by left|]. right.
    destruct (0.5 <=? risk) eqn:E5; simpl in *; [left|right]; by rewrite ?L8, ?L5.
Qed.

Lemma label_of_risk_ladder_witness :
  in_unit_interval 0.8
  /\ ((0.8 <=? 0.8) = true -> label_of_risk 0.8 = "malicious"%string)
  /\ ((0.5 <=? 0.8) = true -> (0.8 <? 0.8) = true ->
      label_of_risk 0.8 = "suspicious"%string)
  /\ ((0.8 <? 0.5) = true -> label_of_risk 0.8 = "benign"%string)
  /\ ((0.8 <=? 0.8) = true
      \/ ((0.5 <=? 0.8) = true /\ (0.8 <? 0.8) = true)
      \/ (0.8 <? 0.5) = true)
  /\ label_of_risk 0.8 = "malicious"%string
  /\ label_of_risk 0.5 = "suspicious"%string
  /\ label_of_risk 0.79999 = "suspicious"%string
  /\ label_of_risk 0.49999 = "benign"%string.
Proof.
  assert (H : in_unit_interval 0.8) by (split; vm_compute; reflexivity).
  split; [exact H|]. exact (label_of_risk_ladder 0.8 H).
Defined.

(** The loop labels each row by the maximum of its class probabilities. *)
Example label_rows_sample :
  label_rows [ (0.1, [0.1; 0.8]); (0.5, [0.25; 0.25]); (0.4, [0.3; 0.3]) ]
  = ([0.8; 0.5; 0.4], ["malicious"; "suspicious"; "benign"]%string).
Proof. vm_compute. reflexivity. Qed.

End RiskFacts.

(** ** Recommendation engine *)

Section RecommendFacts.

Import Recommend.

(** C9.  For a classified table with zero rows, the recommendation list is the
    no-action string followed by the two closing actions: no row is malicious
    or suspicious, and "all rows are benign" holds of no rows. *)
Theorem recommend_actions_empty (result_df : DataFrame) :
  index_len result_df = 0%nat ->
  rectangular result_df ->
  length (select "classification" result_df) = 1%nat ->
  recommend_actions result_df
  = Some [ "No immediate action required; continue routine monitoring.";
           "Create/Update incident ticket and document findings.";
           "Review detection rules to reduce false positives." ].
Proof.
  intros Hrows Hrect Hone. unfold recommend_actions, getitem.
  destruct (select "classification" result_df) as [|c [|c' cs]] eqn:Hs;
    simpl in Hone; try lia.
  assert (Hc : In c (columns result_df)).
  { assert (H : In c (select "classification" result_df)) by (rewrite Hs; by left).
    unfold select in H. by apply filter_In in H as [H _]. }
  unfold rectangular in Hrect. rewrite Forall_forall in Hrect.
  apply list_elem_of_In, Hrect in Hc. rewrite Hrows in Hc.
  destruct (snd c) as [|x xs]; [|discriminate Hc]. reflexivity.
Qed.

Lemma recommend_actions_empty_witness :
  index_len empty_classified = 0%nat
  /\ rectangular empty_classified
  /\ length (select "classification" empty_classified) = 1%nat
  /\ recommend_actions empty_classified
     = Some [ "No immediate action required; continue routine monitoring.";
              "Create/Update incident ticket and document findings.";
              "Review detection rules to reduce false positives." ].
Proof.
  assert (H1 : index_len empty_classified = 0%nat) by reflexivity.
  assert (H2 : rectangular empty_classified).
  { unfold rectangular, empty_classified. simpl. repeat constructor. }
  assert (H3 : length (select "classification" empty_classified) = 1%nat)
    by (vm_compute; reflexivity).
  split; [exact H1|]. split; [exact H2|]. split; [exact H3|].
  exact (recommend_actions_empty empty_classified H1 H2 H3).
Defined.

(** With rows, the rules add their strings in rule order. *)
Example recommend_actions_mixed :
  recommend_actions
    (mkDF 2 [("classification", [CStr "malicious"; CStr "benign"])])
  = Some [ "Isolate affected hosts or user accounts immediately.";
           "Block malicious IPs/domains at firewall and proxy.";
           "Collect forensic artifacts (memory, disk, logs).";
           "Create/Update incident ticket and document findings.";
           "Review detection rules to reduce false positives." ].
Proof. vm_compute. reflexivity. Qed.

End RecommendFacts.

(** ** Feature extractor: malformed and absent addresses *)

Section FeatureFacts.

Import Features.

Variable address_is_private : Ipaddress.address -> bool.

Lemma empty_string_rejected : Ipaddress.ip_address_of_string "" = None.
Proof. vm_compute. reflexivity. Qed.

Lemma not_an_ip_rejected : Ipaddress.ip_address_of_string "not-an-ip" = None.
Proof. vm_compute. reflexivity. Qed.

(** Once nulls are replaced by the empty string, a malformed or absent cell
    makes [ipaddress.ip_address] raise. *)
Lemma malformed_after_fillna (c : cell) :
  malformed_or_absent c -> Ipaddress.ip_address (fill_cell (CStr "") c) = None.
Proof.
  intros [->|(s & -> & Hs)]; simpl; [apply empty_string_rejected|exact Hs].
Qed.

Lemma ip_to_int_malformed (c : cell) :
  malformed_or_absent c -> ip_to_int (fill_cell (CStr "") c) = 0%Z.
Proof. intros H. unfold ip_to_int. by rewrite (malformed_after_fillna c H). Qed.

Lemma is_private_malformed (c : cell) :
  malformed_or_absent c ->
  is_private address_is_private (fill_cell (CStr "") c) = 0%Z.
Proof. intros H. unfold is_private. by rewrite (malformed_after_fillna c H). Qed.

Lemma lookup_map_fill {B : Type} (f : cell -> B) (series : list cell) (i : nat)
    (c : cell) :
  series !! i = Some c ->
  map f (fillna_series (CStr "") series) !! i = Some (f (fill_cell (CStr "") c)).
Proof.
  intros H. unfold fillna_series. rewrite map_map, list_lookup_fmap.
  by rewrite H.
Qed.

Lemma map_repeat {A B : Type} (f : A -> B) (x : A) (n : nat) :
  map f (repeat x n) = repeat (f x) n.
Proof. induction n; simpl; congruence. Qed.

Lemma ensure_series_absent (df : DataFrame) (column : string) (d : cell) :
  has_column column df = false ->
  _ensure_series df column d = repeat d (df_len df).
Proof. intros H. unfold _ensure_series. by rewrite H. Qed.

(** C8.  In the table handed to the extractor (after canonicalization), a
    row whose address cell is missing or holds a string that is no IPv4 or
    IPv6 address gets integer form 0 and privacy flag 0, for the source and
    for the destination address; when the address column itself is absent,
    every row gets 0 and 0.  The strings "not-an-ip" and "" are such strings.
    The four feature columns are always produced, one entry per entry of the
    address series: nothing is raised. *)
Theorem malformed_ip_features (df : DataFrame) (i : nat) :
  let cdf := Canon.canonicalize_columns df in
  let feats := preprocess_ip_features address_is_private df in
  (forall c, _ensure_series cdf "source_ip" (CStr "") !! i = Some c ->
             malformed_or_absent c ->
             src_ip_int feats !! i = Some 0%Z
             /\ src_is_private feats !! i = Some 0%Z)
  /\ (forall c, _ensure_series cdf "destination_ip" (CStr "") !! i = Some c ->
                malformed_or_absent c ->
                dst_ip_int feats !! i = Some 0%Z
                /\ dst_is_private feats !! i = Some 0%Z)
  /\ (has_column "source_ip" cdf = false ->
      src_ip_int feats = repeat 0%Z (df_len cdf)
      /\ src_is_private feats = repeat 0%Z (df_len cdf))
  /\ (has_column "destination_ip" cdf = false ->
      dst_ip_int feats = repeat 0%Z (df_len cdf)
      /\ dst_is_private feats = repeat 0%Z (df_len cdf))
  /\ malformed_or_absent (CStr "not-an-ip")
  /\ malformed_or_absent (CStr "")
  /\ length (src_ip_int feats) = length (_ensure_series cdf "source_ip" (CStr ""))
  /\ length (src_is_private feats) = length (src_ip_int feats)
  /\ length (dst_ip_int feats)
     = length (_ensure_series cdf "destination_ip" (CStr ""))
  /\ length (dst_is_private feats) = length (dst_ip_int feats).
Proof.
  intros cdf feats. subst feats. unfold preprocess_ip_features. fold cdf. simpl.
  split; [|split; [|split; [|split; [|split; [|split]]]]].
  - intros c Hc Hm. split.
    + rewrite (lookup_map_fill _ _ _ _ Hc). by rewrite ip_to_int_malformed.
    + rewrite (lookup_map_fill _ _ _ _ Hc). by rewrite is_private_malformed.
  - intros c Hc Hm. split.
    + rewrite (lookup_map_fill _ _ _ _ Hc). by rewrite ip_to_int_malformed.
    + rewrite (lookup_map_fill _ _ _ _ Hc). by rewrite is_private_malformed.
  - intros H. rewrite (ensure_series_absent _ _ _ H).
    unfold fillna_series. by rewrite !map_repeat.
  - intros H. rewrite (ensure_series_absent _ _ _ H).
    unfold fillna_series. by rewrite !map_repeat.
  - right. exists "not-an-ip". split; [done|apply not_an_ip_rejected].
  - right. exists "". split; [done|apply empty_string_rejected].
  - unfold fillna_series. rewrite !length_map. done.
Qed.

End FeatureFacts.

(** A table with a malformed source address, a missing one, a valid one, and
    no destination column at all. *)
Example malformed_ip_features_sample :
  Features.preprocess_ip_features (fun _ => true)
    (mkDF 3 [("Src-IP", [CStr "not-an-ip"; CNull; CStr "10.0.0.5"])])
  = Features.mkIpFeatures [0; 0; 167772165]%Z [0; 0; 0]%Z
                          [0; 0; 1]%Z [0; 0; 0]%Z.
Proof. vm_compute. reflexivity. Qed.

(** ** Threat-intel providers *)

Section EnrichFacts.

Import Enrich.

Variable net : nat -> request -> reply.

Lemma eqb_empty_false (ip : string) : ip <> "" -> String.eqb ip "" = false.
Proof. intros H. by apply String.eqb_neq. Qed.

Lemma abuse_hit (env : string -> option string) (ip : string) (p : process)
    (res : nat) :
  ip <> "" -> abuse_cache p !! ip = Some res ->
  enrich_ip_with_abuseipdb net env ip p = (res, p).
Proof.
  intros Hip Hc. unfold enrich_ip_with_abuseipdb.
  by rewrite (eqb_empty_false ip Hip), Hc.
Qed.

Lemma vt_hit (env : string -> option string) (ip : string) (p : process)
    (res : nat) :
  ip <> "" -> vt_cache p !! ip = Some res ->
  enrich_ip_with_virustotal net env ip p = (res, p).
Proof.
  intros Hip Hc. unfold enrich_ip_with_virustotal.
  by rewrite (eqb_empty_false ip Hip), Hc.
Qed.

(** A lookup that misses the cache allocates one entry, caches its reference
    and sends a request exactly when a credential is configured. *)
Lemma abuse_miss (env : string -> option string) (ip : string) (p : process) :
  ip <> "" -> abuse_cache p !! ip = None ->
  enrich_ip_with_abuseipdb net env ip p
  = let req := abuse_request (key_of (env "ABUSEIPDB_API_KEY")) ip in
    if no_key (env "ABUSEIPDB_API_KEY")
    then (length (objects p),
          mkProcess (objects p ++ [[("status", JStr "no_key")]])
                    (<[ip := length (objects p)]> (abuse_cache p))
                    (vt_cache p) (sent p))
    else (length (objects p),
          mkProcess (objects p ++ [entry_of abuse_ok (net (length (sent p)) req)])
                    (<[ip := length (objects p)]> (abuse_cache p))
                    (vt_cache p) (sent p ++ [req])).
Proof.
  intros Hip Hc. unfold enrich_ip_with_abuseipdb.
  rewrite (eqb_empty_false ip Hip), Hc.
  destruct (no_key (env "ABUSEIPDB_API_KEY")); reflexivity.
Qed.

Lemma vt_miss (env : string -> option string) (ip : string) (p : process) :
  ip <> "" -> vt_cache p !! ip = None ->
  enrich_ip_with_virustotal net env ip p
  = let req := vt_request (key_of (env "VT_API_KEY")) ip in
    if no_key (env "VT_API_KEY")
    then (length (objects p),
          mkProcess (objects p ++ [[("status", JStr "no_key")]])
                    (abuse_cache p)
                    (<[ip := length (objects p)]> (vt_cache p)) (sent p))
    else (length (objects p),
          mkProcess (objects p ++ [entry_of vt_ok (net (length (sent p)) req)])
                    (abuse_cache p)
                    (<[ip := length (objects p)]> (vt_cache p))
                    (sent p ++ [req])).
Proof.
  intros Hip Hc. unfold enrich_ip_with_virustotal.
  rewrite (eqb_empty_false ip Hip), Hc.
  destruct (no_key (env "VT_API_KEY")); reflexivity.
Qed.

Lemma extends_refl (p : process) : extends p p.
Proof. by constructor. Qed.

Lemma extends_trans (p q r : process) : extends p q -> extends q r -> extends p r.
Proof. intros [] []. constructor; eauto. Qed.


Lemma new_dict_extends (d : dict) (p : process) :
  extends p (snd (new_dict d p)).
Proof.
  constructor; simpl; auto. intros l x H. by apply lookup_app_l_Some.
Qed.

Lemma abuse_extends (env : string -> option string) (ip : string) (p : process) :
  extends p (snd (enrich_ip_with_abuseipdb net env ip p)).
Proof.
  destruct (String.eqb_spec ip "") as [->|Hip].
  - apply new_dict_extends.
  - destruct (abuse_cache p !! ip) as [res|] eqn:Hc.
    + rewrite (abuse_hit env ip p res Hip Hc). apply extends_refl.
    + rewrite (abuse_miss env ip p Hip Hc).
      destruct (no_key (env "ABUSEIPDB_API_KEY")); constructor; simpl; auto;
        try (intros l x H; by apply lookup_app_l_Some);
        intros ip' r H; (rewrite lookup_insert_ne; [done|]); intros ->; congruence.
Qed.

Lemma vt_extends (env : string -> option string) (ip : string) (p : process) :
  extends p (snd (enrich_ip_with_virustotal net env ip p)).
Proof.
  destruct (String.eqb_spec ip "") as [->|Hip].
  - apply new_dict_extends.
  - destruct (vt_cache p !! ip) as [res|] eqn:Hc.
    + rewrite (vt_hit env ip p res Hip Hc). apply extends_refl.
    + rewrite (vt_miss env ip p Hip Hc).
      destruct (no_key (env "VT_API_KEY")); constructor; simpl; auto;
        try (intros l x H; by apply lookup_app_l_Some);
        intros ip' r H; (rewrite lookup_insert_ne; [done|]); intros ->; congruence.
Qed.

Lemma run_calls_extends (cs : list call) : forall p, extends p (run_calls net cs p).
Proof.
  induction cs as [|c cs IH]; intros p; [apply extends_refl|].
  unfold run_calls. simpl. fold (run_calls net cs (snd (run_call net c p))).
  apply (extends_trans _ (snd (run_call net c p))); [|apply IH].
  destruct c; [apply abuse_extends|apply vt_extends].
Qed.

(** C3, first provider. *)
Lemma abuse_caches :
  caches_lookups net (enrich_ip_with_abuseipdb net) abuse_cache.
Proof.
  intros env1 env2 env3 ip p Hip res1 p1 res2 p2.
  assert (Hcached : abuse_cache p1 !! ip = Some res1).
  { subst res1 p1. destruct (abuse_cache p !! ip) as [r|] eqn:Hc.
    - by rewrite (abuse_hit env1 ip p r Hip Hc).
    - rewrite (abuse_miss env1 ip p Hip Hc).
      destruct (no_key (env1 "ABUSEIPDB_API_KEY")); simpl; apply lookup_insert_eq. }
  assert (Hsecond : enrich_ip_with_abuseipdb net env2 ip p1 = (res1, p1))
    by (by apply abuse_hit).
  subst res2 p2. rewrite Hsecond. simpl.
  split; [done|]. split; [done|].
  split.
  { subst p1. destruct (abuse_cache p !! ip) as [r|] eqn:Hc.
    - rewrite (abuse_hit env1 ip p r Hip Hc). simpl. lia.
    - rewrite (abuse_miss env1 ip p Hip Hc).
      destruct (no_key (env1 "ABUSEIPDB_API_KEY")); simpl;
        rewrite ?length_app; simpl; lia. }
  split; [exact Hcached|].
  split.
  { intros Hc. subst res1 p1. rewrite (abuse_miss env1 ip p Hip Hc).
    destruct (no_key (env1 "ABUSEIPDB_API_KEY")); simpl; eexists;
      (rewrite lookup_app_r by lia); rewrite Nat.sub_diag; reflexivity. }
  intros cs. pose proof (run_calls_extends cs p1) as [Ho Ha _]. split.
  - apply abuse_hit; [done|]. by apply Ha.
  - intros entry. apply Ho.
Qed.

(** C3, second provider. *)
Lemma vt_caches :
  caches_lookups net (enrich_ip_with_virustotal net) vt_cache.
Proof.
  intros env1 env2 env3 ip p Hip res1 p1 res2 p2.
  assert (Hcached : vt_cache p1 !! ip = Some res1).
  { subst res1 p1. destruct (vt_cache p !! ip) as [r|] eqn:Hc.
    - by rewrite (vt_hit env1 ip p r Hip Hc).
    - rewrite (vt_miss env1 ip p Hip Hc).
      destruct (no_key (env1 "VT_API_KEY")); simpl; apply lookup_insert_eq. }
  assert (Hsecond : enrich_ip_with_virustotal net env2 ip p1 = (res1, p1))
    by (by apply vt_hit).
  subst res2 p2. rewrite Hsecond. simpl.
  split; [done|]. split; [done|].
  split.
  { subst p1. destruct (vt_cache p !! ip) as [r|] eqn:Hc.
    - rewrite (vt_hit env1 ip p r Hip Hc). simpl. lia.
    - rewrite (vt_miss env1 ip p Hip Hc).
      destruct (no_key (env1 "VT_API_KEY")); simpl;
        rewrite ?length_app; simpl; lia. }
  split; [exact Hcached|].
  split.
  { intros Hc. subst res1 p1. rewrite (vt_miss env1 ip p Hip Hc).
    destruct (no_key (env1 "VT_API_KEY")); simpl; eexists;
      (rewrite lookup_app_r by lia); rewrite Nat.sub_diag; reflexivity. }
  intros cs. pose proof (run_calls_extends cs p1) as [Ho _ Hv]. split.
  - apply vt_hit; [done|]. by apply Hv.
  - intros entry. apply Ho.
Qed.

(** C3.  For each of the two providers and every non-empty IP: the second of
    two lookups returns the very object the first one returned and changes
    nothing, the two together send at most one request, the entry is in the
    provider's cache after the first lookup whatever its status, and after any
    further lookups of either provider the IP is answered from the cache with
    the same, unchanged object. *)
Theorem lookups_are_cached :
  caches_lookups net (enrich_ip_with_abuseipdb net) abuse_cache
  /\ caches_lookups net (enrich_ip_with_virustotal net) vt_cache.
Proof. split; [apply abuse_caches|apply vt_caches]. Qed.

End EnrichFacts.

Lemma lookups_are_cached_witness :
  "8.8.8.8" <> ""
  /\ let lookup := Enrich.enrich_ip_with_abuseipdb Enrich.refusing in
     let p := Enrich.fresh_process in
     let res1 := fst (lookup Enrich.no_env "8.8.8.8" p) in
     let p1 := snd (lookup Enrich.no_env "8.8.8.8" p) in
     let res2 := fst (lookup Enrich.no_env "8.8.8.8" p1) in
     let p2 := snd (lookup Enrich.no_env "8.8.8.8" p1) in
     res2 = res1 /\ p2 = p1
     /\ (length (Enrich.sent p2) <= length (Enrich.sent p) + 1)%nat
     /\ Enrich.abuse_cache p1 !! "8.8.8.8" = Some res1
     /\ (Enrich.abuse_cache p !! "8.8.8.8" = None ->
         exists entry, Enrich.objects p1 !! res1 = Some entry)
     /\ forall (cs : list Enrich.call),
          let p' := Enrich.run_calls Enrich.refusing cs p1 in
          lookup Enrich.no_env "8.8.8.8" p' = (res1, p')
          /\ forall entry, Enrich.objects p1 !! res1 = Some entry ->
                           Enrich.objects p' !! res1 = Some entry.
Proof.
  assert (H : "8.8.8.8" <> "") by discriminate.
  split; [exact H|].
  exact (proj1 (lookups_are_cached Enrich.refusing)
               Enrich.no_env Enrich.no_env Enrich.no_env "8.8.8.8"
               Enrich.fresh_process H).
Defined.

(** Two lookups without a credential: one entry, cached, no request. *)
Example no_key_twice :
  let p1 := snd (Enrich.enrich_ip_with_virustotal Enrich.refusing Enrich.no_env
                   "8.8.8.8" Enrich.fresh_process) in
  let '(res2, p2) := Enrich.enrich_ip_with_virustotal Enrich.refusing
                       Enrich.no_env "8.8.8.8" p1 in
  res2 = 0%nat /\ Enrich.objects p2 = [[("status", Enrich.JStr "no_key")]]
  /\ Enrich.sent p2 = [].
Proof. vm_compute. repeat split. Qed.

Section EnrichResilience.

Import Enrich.

Variable net : nat -> request -> reply.

Lemma error_entry_status (msg : string) :
  assoc "status" (error_entry msg) = Some (JStr "error").
Proof. reflexivity. Qed.

Lemma ok_entry_status (ok_entry : body -> result dict) :
  (forall b entry, ok_entry b = inr entry ->
                   assoc "status" entry = Some (JStr "ok")) ->
  forall resp, exists status,
    assoc "status" (entry_of ok_entry resp) = Some (JStr status).
Proof.
  intros Hok [msg|code b]; simpl; [by eexists|].
  destruct (code =? 200)%Z; [|by eexists].
  destruct (ok_entry b) as [msg|entry] eqn:E; [by eexists|].
  eexists. by apply (Hok b).
Qed.

Lemma rbind_inr {A B} (m : result A) (k : A -> result B) (y : B) :
  rbind m k = inr y -> exists a, m = inr a /\ k a = inr y.
Proof. destruct m as [msg|a]; simpl; [done|]. eauto. Qed.

Lemma abuse_ok_status (b : body) (entry : dict) :
  abuse_ok b = inr entry -> assoc "status" entry = Some (JStr "ok").
Proof.
  unfold abuse_ok. intros H.
  repeat (apply rbind_inr in H as (? & _ & H)). by inversion H.
Qed.

Lemma vt_ok_status (b : body) (entry : dict) :
  vt_ok b = inr entry -> assoc "status" entry = Some (JStr "ok").
Proof.
  unfold vt_ok. intros H.
  repeat (apply rbind_inr in H as (? & _ & H)). by inversion H.
Qed.

Lemma lookup_new (l : list dict) (d : dict) : (l ++ [d]) !! length l = Some d.
Proof. rewrite lookup_app_r by lia. by rewrite Nat.sub_diag. Qed.

Lemma abuse_resilient :
  resilient_lookup net (enrich_ip_with_abuseipdb net) abuse_cache
    "ABUSEIPDB_API_KEY" abuse_request abuse_ok.
Proof.
  intros env ip p Hip Hc res p' req. subst res p' req.
  rewrite (abuse_miss net env ip p Hip Hc).
  destruct (no_key (env "ABUSEIPDB_API_KEY")) eqn:Hk; simpl.
  - split; [|split; [|done]].
    + exists [("status", JStr "no_key")], "no_key". split; [apply lookup_new|done].
    + intros _. split; [apply lookup_new|done].
  - split; [|split; [done|]].
    + destruct (ok_entry_status abuse_ok abuse_ok_status
                  (net (length (sent p))
                       (abuse_request (key_of (env "ABUSEIPDB_API_KEY")) ip)))
        as [status Hs].
      eexists. exists status. split; [apply lookup_new|exact Hs].
    + intros _. split; [done|]. repeat split.
      * intros msg ->. apply lookup_new.
      * intros code b -> Hne. rewrite lookup_new. simpl.
        apply Z.eqb_neq in Hne. by rewrite Hne.
      * intros b msg -> Hb. rewrite lookup_new. simpl. by rewrite Hb.
      * intros b entry -> Hb. rewrite lookup_new. simpl. by rewrite Hb.
Qed.

Lemma vt_resilient :
  resilient_lookup net (enrich_ip_with_virustotal net) vt_cache
    "VT_API_KEY" vt_request vt_ok.
Proof.
  intros env ip p Hip Hc res p' req. subst res p' req.
  rewrite (vt_miss net env ip p Hip Hc).
  destruct (no_key (env "VT_API_KEY")) eqn:Hk; simpl.
  - split; [|split; [|done]].
    + exists [("status", JStr "no_key")], "no_key". split; [apply lookup_new|done].
    + intros _. split; [apply lookup_new|done].
  - split; [|split; [done|]].
    + destruct (ok_entry_status vt_ok vt_ok_status
                  (net (length (sent p))
                       (vt_request (key_of (env "VT_API_KEY")) ip)))
        as [status Hs].
      eexists. exists status. split; [apply lookup_new|exact Hs].
    + intros _. split; [done|]. repeat split.
      * intros msg ->. apply lookup_new.
      * intros code b -> Hne. rewrite lookup_new. simpl.
        apply Z.eqb_neq in Hne. by rewrite Hne.
      * intros b msg -> Hb. rewrite lookup_new. simpl. by rewrite Hb.
      * intros b entry -> Hb. rewrite lookup_new. simpl. by rewrite Hb.
Qed.

(** C4, as the code has it.  For each provider, a lookup of an IP that is not
    empty and not yet cached always returns an entry with a status; without a
    credential the entry is no_key and no request is sent; with one, exactly
    one request is sent, and a transport exception gives status error with the
    exception's text, a non-200 response gives status http_<code>, and a 200
    response whose body fails to parse or lacks the expected shape gives
    status error with the text of that exception. *)
Theorem lookups_are_resilient :
  resilient_lookup net (enrich_ip_with_abuseipdb net) abuse_cache
    "ABUSEIPDB_API_KEY" abuse_request abuse_ok
  /\ resilient_lookup net (enrich_ip_with_virustotal net) vt_cache
       "VT_API_KEY" vt_request vt_ok.
Proof. split; [apply abuse_resilient|apply vt_resilient]. Qed.

End EnrichResilience.

(** C4 as stated fails for the empty IP string: without a credential the
    lookup answers no_ip, not no_key (and it caches nothing). *)
Lemma missing_credential_counterexample :
  Enrich.no_key (Enrich.no_env "ABUSEIPDB_API_KEY") = true
  /\ Enrich.no_key (Enrich.no_env "VT_API_KEY") = true
  /\ (let '(res, p) := Enrich.enrich_ip_with_abuseipdb Enrich.refusing
                         Enrich.no_env "" Enrich.fresh_process in
      Enrich.status_of p res = Some (Enrich.JStr "no_ip")
      /\ Enrich.status_of p res <> Some (Enrich.JStr "no_key"))
  /\ (let '(res, p) := Enrich.enrich_ip_with_virustotal Enrich.refusing
                         Enrich.no_env "" Enrich.fresh_process in
      Enrich.status_of p res = Some (Enrich.JStr "no_ip")
      /\ Enrich.status_of p res <> Some (Enrich.JStr "no_key")).
Proof.
  split; [reflexivity|]. split; [reflexivity|].
  split; (split; [vm_compute; reflexivity|vm_compute; discriminate]).
Qed.

Lemma lookups_are_resilient_witness :
  "8.8.8.8" <> ""
  /\ Enrich.abuse_cache Enrich.fresh_process !! "8.8.8.8" = None
  /\ let lookup := Enrich.enrich_ip_with_abuseipdb Enrich.refusing in
     let p := Enrich.fresh_process in
     let res := fst (lookup Enrich.some_env "8.8.8.8" p) in
     let p' := snd (lookup Enrich.some_env "8.8.8.8" p) in
     let req := Enrich.abuse_request
                  (Enrich.key_of (Enrich.some_env "ABUSEIPDB_API_KEY"))
                  "8.8.8.8" in
     (exists entry status, Enrich.objects p' !! res = Some entry
         /\ Enrich.assoc "status" entry = Some (Enrich.JStr status))
     /\ (Enrich.no_key (Enrich.some_env "ABUSEIPDB_API_KEY") = true ->
         Enrich.objects p' !! res = Some [("status", Enrich.JStr "no_key")]
         /\ Enrich.sent p' = Enrich.sent p)
     /\ (Enrich.no_key (Enrich.some_env "ABUSEIPDB_API_KEY") = false ->
         Enrich.sent p' = Enrich.sent p ++ [req]
         /\ (forall msg,
               Enrich.refusing (length (Enrich.sent p)) req = Enrich.Raised msg ->
               Enrich.objects p' !! res = Some (Enrich.error_entry msg))
         /\ (forall code b,
               Enrich.refusing (length (Enrich.sent p)) req
               = Enrich.Response code b ->
               code <> 200%Z ->
               Enrich.objects p' !! res
               = Some [("status", Enrich.JStr ("http_" ++ pretty code)%string)])
         /\ (forall b msg,
               Enrich.refusing (length (Enrich.sent p)) req
               = Enrich.Response 200 b ->
               Enrich.abuse_ok b = inl msg ->
               Enrich.objects p' !! res = Some (Enrich.error_entry msg))
         /\ (forall b entry,
               Enrich.refusing (length (Enrich.sent p)) req
               = Enrich.Response 200 b ->
               Enrich.abuse_ok b = inr entry ->
               Enrich.objects p' !! res = Some entry)).
Proof.
  assert (H1 : "8.8.8.8" <> "") by discriminate.
  assert (H2 : Enrich.abuse_cache Enrich.fresh_process !! "8.8.8.8" = None)
    by reflexivity.
  split; [exact H1|]. split; [exact H2|].
  exact (proj1 (lookups_are_resilient Enrich.refusing)
               Enrich.some_env "8.8.8.8" Enrich.fresh_process H1 H2).
Defined.

(** A refused connection, and a 200 response whose document is a list. *)
Example lookup_failures :
  (let '(res, p) := Enrich.enrich_ip_with_abuseipdb Enrich.refusing
                      Enrich.some_env "8.8.8.8" Enrich.fresh_process in
   Enrich.objects p !! res
   = Some [ ("status", Enrich.JStr "error");
            ("error", Enrich.JStr "connection refused") ])
  /\ (let '(res, p) := Enrich.enrich_ip_with_virustotal
                         (fun _ _ => Enrich.Response 200
                                       (Enrich.Body (Enrich.JArr [])))
                         Enrich.some_env "8.8.8.8" Enrich.fresh_process in
      Enrich.objects p !! res
      = Some [ ("status", Enrich.JStr "error");
               ("error", Enrich.JStr "'list' object has no attribute 'get'") ])
  /\ (let '(res, p) := Enrich.enrich_ip_with_virustotal
                         (fun _ _ => Enrich.Response 429 (Enrich.BadBody ""))
                         Enrich.some_env "8.8.8.8" Enrich.fresh_process in
      Enrich.objects p !! res = Some [("status", Enrich.JStr "http_429")]).
Proof. vm_compute. repeat split. Qed.

(** ** Top-K selection (C7) *)

Section TopKFacts.

Import TopK.
Local Open Scope Q_scope.

Lemma Qltb_true (a b : Q) : Qltb a b = true <-> a < b.
Proof.
  unfold Qltb. rewrite negb_true_iff. split.
  - intros H. apply Qnot_le_lt. intros Hle.
    apply Qle_bool_iff in Hle. congruence.
  - intros H. destruct (Qle_bool b a) eqn:E; [|done].
    apply Qle_bool_iff in E. exfalso. by apply (Qlt_not_le a b).
Qed.

Lemma Qltb_false (a b : Q) : Qltb a b = false <-> b <= a.
Proof.
  unfold Qltb. rewrite negb_false_iff. apply Qle_bool_iff.
Qed.

Lemma ranked_before_le (x z : nat * Q) :
  snd z <= snd x -> (fst x < fst z)%nat -> ranked_before x z.
Proof.
  intros Hle Hlt. apply Qle_lteq in Hle as [H|H].
  - by left.
  - right. split; [by symmetry|done].
Qed.

Lemma ranked_before_trans_le (x y z : nat * Q) :
  snd y <= snd x -> ranked_before y z -> snd z <= snd x.
Proof.
  intros Hle [H|[H _]].
  - apply Qlt_le_weak. by apply Qlt_le_trans with (snd y).
  - by rewrite <- H.
Qed.

Lemma insert_desc_perm (x : nat * Q) (l : list (nat * Q)) :
  Permutation (insert_desc x l) (x :: l).
Proof.
  induction l as [|y l IH]; simpl; [done|].
  destruct (Qltb (snd x) (snd y)); [|done].
  rewrite IH. apply perm_swap.
Qed.

Lemma sort_desc_perm (l : list (nat * Q)) : Permutation (sort_desc l) l.
Proof.
  induction l as [|x l IH]; simpl; [done|].
  rewrite insert_desc_perm. by constructor.
Qed.

Lemma insert_desc_sorted (x : nat * Q) (l : list (nat * Q)) :
  StronglySorted ranked_before l ->
  Forall (fun y => (fst x < fst y)%nat) l ->
  StronglySorted ranked_before (insert_desc x l).
Proof.
  induction l as [|y l IH]; intros Hs Hi; simpl.
  - repeat constructor.
  - apply StronglySorted_cons in Hs as [Hy Hs].
    apply Forall_cons in Hi as [Hxy Hi].
    destruct (Qltb (snd x) (snd y)) eqn:E.
    + apply Qltb_true in E. apply StronglySorted_cons. split; [|by apply IH].
      rewrite insert_desc_perm. constructor; [by left|done].
    + apply Qltb_false in E. apply StronglySorted_cons. split.
      * constructor; [by apply ranked_before_le|].
        rewrite Forall_forall in Hy, Hi. apply Forall_forall. intros z Hz.
        apply ranked_before_le; [|by apply Hi].
        apply (ranked_before_trans_le x y z); [done|by apply Hy].
      * by apply StronglySorted_cons.
Qed.

Lemma sort_desc_sorted (l : list (nat * Q)) :
  StronglySorted (fun a b => (fst a < fst b)%nat) l ->
  StronglySorted ranked_before (sort_desc l).
Proof.
  induction l as [|x l IH]; intros Hs; simpl; [constructor|].
  apply StronglySorted_cons in Hs as [Hx Hs].
  apply insert_desc_sorted; [by apply IH|].
  by rewrite sort_desc_perm.
Qed.

Lemma risk_series_from (s : list Q) (k : nat) :
  forall i x, (i, x) ∈ combine (seq k (length s)) s
              <-> (k <= i)%nat /\ s !! (i - k)%nat = Some x.
Proof.
  revert k. induction s as [|y s IH]; intros k i x; simpl.
  - split; [by intros ?%elem_of_nil|by intros [_ ?]].
  - rewrite elem_of_cons, IH. split.
    + intros [[= -> ->]|[Hle Hl]].
      * split; [lia|]. by rewrite Nat.sub_diag.
      * split; [lia|]. by replace (i - k)%nat with (S (i - S k)) by lia.
    + intros [Hle Hl]. destruct (decide (i = k)) as [->|Hne].
      * left. rewrite Nat.sub_diag in Hl. simpl in Hl. congruence.
      * right. split; [lia|].
        by replace (i - k)%nat with (S (i - S k)) in Hl by lia.
Qed.

Lemma risk_series_elem (s : list Q) (i : nat) (x : Q) :
  (i, x) ∈ risk_series s <-> s !! i = Some x.
Proof.
  unfold risk_series. rewrite risk_series_from, Nat.sub_0_r.
  split; [by intros [_ ?]|]. split; [lia|done].
Qed.

Lemma risk_series_fst (s : list Q) : map fst (risk_series s) = seq 0 (length s).
Proof.
  unfold risk_series. generalize 0%nat.
  induction s as [|y s IH]; intros k; simpl; [done|]. by rewrite IH.
Qed.

Lemma risk_series_length (s : list Q) : length (risk_series s) = length s.
Proof. by rewrite <- (length_map fst), risk_series_fst, length_seq. Qed.

Lemma risk_series_increasing (s : list Q) :
  StronglySorted (fun a b => (fst a < fst b)%nat) (risk_series s).
Proof.
  unfold risk_series. generalize 0%nat.
  induction s as [|y s IH]; intros k; simpl; [constructor|].
  constructor; [apply IH|].
  apply Forall_forall. intros [i x] Hin. simpl.
  apply risk_series_from in Hin as [Hle _]. lia.
Qed.

Lemma sorted_outranks (s : list Q) (l : list (nat * Q)) :
  (forall e, e ∈ l -> e ∈ risk_series s) ->
  StronglySorted ranked_before l ->
  StronglySorted (outranks s) (map fst l).
Proof.
  induction l as [|[i x] l IH]; intros Hin Hs; simpl; [constructor|].
  apply StronglySorted_cons in Hs as [Hx Hs].
  constructor.
  - apply IH; [|done]. intros e He. apply Hin. by right.
  - apply Forall_forall. intros j Hj.
    apply list_elem_of_In, in_map_iff in Hj as ([j' y] & <- & Hy).
    apply list_elem_of_In in Hy. simpl.
    exists x, y. split; [|split].
    + apply risk_series_elem, Hin. by left.
    + apply risk_series_elem, Hin. by right.
    + rewrite Forall_forall in Hx. by apply Hx.
Qed.

Lemma loc_rows_defined {A} (rows : list A) (idx : list nat) :
  Forall (fun i => (i < length rows)%nat) idx ->
  Forall2 (fun i r => rows !! i = Some r) idx (loc_rows rows idx).
Proof.
  unfold loc_rows. induction idx as [|i idx IH]; intros H; simpl; [constructor|].
  apply Forall_cons in H as [Hi H].
  destruct (lookup_lt_is_Some_2 rows i Hi) as [r Hr].
  rewrite Hr. simpl. constructor; [done|by apply IH].
Qed.

(** C7.  For every table (its rows and their risk scores) and every top-K
    setting, the row numbers selected for enrichment are exactly
    min(top_k, number of rows) distinct rows of the table, listed by
    descending risk score with equal scores in original row order, and every
    row left out is ranked after every selected row in that order; with
    enrichment switched on the orchestrator takes exactly these rows, in this
    order. *)
Theorem top_k_selection {A} (max_enrich : nat) (rows : list A)
    (risk_scores : list Q) :
  length risk_scores = length rows ->
  let idx := top_idx max_enrich risk_scores in
  length idx = Nat.min max_enrich (length rows)
  /\ NoDup idx
  /\ Forall (fun i => (i < length rows)%nat) idx
  /\ StronglySorted (outranks risk_scores) idx
  /\ (forall i j, i ∈ idx -> (j < length rows)%nat -> j ∉ idx ->
                  outranks risk_scores i j)
  /\ Forall2 (fun i r => rows !! i = Some r) idx
             (to_enrich true max_enrich rows risk_scores)
  /\ to_enrich false max_enrich rows risk_scores = [].
Proof.
  intros Hlen idx.
  set (n := Nat.min max_enrich (length risk_scores)).
  set (sorted := sort_desc (risk_series risk_scores)).
  assert (Hperm : Permutation sorted (risk_series risk_scores))
    by apply sort_desc_perm.
  assert (Hsorted : StronglySorted ranked_before sorted)
    by apply sort_desc_sorted, risk_series_increasing.
  assert (Hidx : idx = map fst (firstn n sorted)) by reflexivity.
  assert (Hsplit : sorted = firstn n sorted ++ skipn n sorted)
    by (symmetry; apply firstn_skipn).
  assert (Hsel : forall e, e ∈ firstn n sorted -> e ∈ risk_series risk_scores).
  { intros e He. rewrite <- Hperm, Hsplit. apply elem_of_app. by left. }
  assert (Hnd : NoDup (map fst sorted)).
  { rewrite Hperm, risk_series_fst. apply NoDup_ListNoDup, List.seq_NoDup. }
  assert (Hvalid : Forall (fun i => (i < length rows)%nat) idx).
  { rewrite Hidx. apply Forall_forall. intros i Hi.
    apply list_elem_of_In, in_map_iff in Hi as ([i' x] & <- & Hx).
    apply list_elem_of_In, Hsel, risk_series_elem, lookup_lt_Some in Hx.
    simpl. by rewrite <- Hlen. }
  split; [|split; [|split; [|split; [|split; [|split]]]]].
  - rewrite Hidx, length_map, length_firstn.
    rewrite Hperm, risk_series_length. unfold n. lia.
  - rewrite Hidx. rewrite Hsplit, map_app in Hnd.
    by apply NoDup_app in Hnd as [Hnd _].
  - exact Hvalid.
  - rewrite Hidx. apply sorted_outranks; [done|].
    rewrite Hsplit in Hsorted. by apply StronglySorted_app_1_l in Hsorted.
  - intros i j Hi Hj Hnj. rewrite Hidx in Hi, Hnj.
    apply list_elem_of_In, in_map_iff in Hi as ([i' x] & <- & Hx).
    apply list_elem_of_In in Hx. simpl.
    rewrite <- Hlen in Hj.
    destruct (lookup_lt_is_Some_2 risk_scores j Hj) as [y Hy].
    assert (Hjy : (j, y) ∈ skipn n sorted).
    { assert (H : (j, y) ∈ sorted) by (rewrite Hperm; by apply risk_series_elem).
      rewrite Hsplit in H. apply elem_of_app in H as [H|H]; [|done].
      exfalso. apply Hnj. apply list_elem_of_In, in_map_iff.
      exists (j, y). split; [done|by apply list_elem_of_In]. }
    exists x, y. split; [|split; [done|]].
    + by apply risk_series_elem, Hsel.
    + rewrite Hsplit in Hsorted.
      by apply (StronglySorted_app_1_elem_of _ _ _ _ _ Hsorted).
  - unfold to_enrich. simpl.
    destruct (0 <? max_enrich)%nat eqn:Ek; simpl.
    + destruct (0 <? length rows)%nat eqn:En; simpl.
      * by apply loc_rows_defined.
      * apply Nat.ltb_ge in En.
        assert (Hnil : idx = []).
        { apply length_zero_iff_nil.
          rewrite Hidx, length_map, length_firstn. unfold n. lia. }
        rewrite Hnil. constructor.
    + apply Nat.ltb_ge in Ek.
      assert (Hnil : idx = []).
      { apply length_zero_iff_nil.
        rewrite Hidx, length_map, length_firstn. unfold n. lia. }
      rewrite Hnil. constructor.
  - reflexivity.
Qed.

End TopKFacts.

Lemma top_k_selection_witness :
  length TopK.sample_scores = length TopK.sample_rows
  /\ (let idx := TopK.top_idx 3 TopK.sample_scores in
      length idx = Nat.min 3 (length TopK.sample_rows)
      /\ NoDup idx
      /\ Forall (fun i => (i < length TopK.sample_rows)%nat) idx
      /\ StronglySorted (TopK.outranks TopK.sample_scores) idx
      /\ (forall i j, i ∈ idx -> (j < length TopK.sample_rows)%nat -> j ∉ idx ->
                      TopK.outranks TopK.sample_scores i j)
      /\ Forall2 (fun i r => TopK.sample_rows !! i = Some r) idx
                 (TopK.to_enrich true 3 TopK.sample_rows TopK.sample_scores)
      /\ TopK.to_enrich false 3 TopK.sample_rows TopK.sample_scores = []).
Proof.
  split; [reflexivity|].
  exact (top_k_selection 3 TopK.sample_rows TopK.sample_scores eq_refl).
Defined.

(** The selection on the sample table: the two rows of score 0.9 in row
    order, then the row of score 0.7; with a larger top-K than rows, all rows,
    the two of score 0.5 last and in row order. *)
Example top_idx_sample :
  TopK.top_idx 3 TopK.sample_scores = [0; 2; 3]%nat
  /\ TopK.top_idx 8 TopK.sample_scores = [0; 2; 3; 1; 4]%nat
  /\ TopK.top_idx 0 TopK.sample_scores = []
  /\ TopK.to_enrich true 3 TopK.sample_rows TopK.sample_scores
     = ["r0"; "r2"; "r3"]
  /\ TopK.to_enrich true 3 ([] : list string) [] = [].
Proof. vm_compute. repeat split. Qed.

(** * Further properties of the code *)

(** ** Schema canonicalizer: normal forms *)

Section CanonNormalForms.

Import Canon.

Lemma lstrip_length (s : string) :
  (String.length (lstrip s) <= String.length s)%nat.
Proof.
  induction s as [|c s IH]; simpl; [lia|].
  destruct (is_space c); simpl; lia.
Qed.

Lemma lstrip_head (s : string) :
  lstrip s = EmptyString
  \/ exists c u, lstrip s = String c u /\ is_space c = false.
Proof.
  induction s as [|c s IH]; simpl; [by left|].
  destruct (is_space c) eqn:E; [exact IH|].
  right. by exists c, s.
Qed.

Lemma rstrip_idem (s : string) : rstrip (rstrip s) = rstrip s.
Proof.
  induction s as [|c s IH]; simpl; [done|].
  destruct (rstrip s) as [|d r] eqn:E.
  - destruct (is_space c) eqn:Ec; simpl; [done|]. by rewrite Ec.
  - simpl in *. by rewrite IH.
Qed.

Lemma rstrip_keeps_head (c : ascii) (u : string) :
  is_space c = false -> exists r, rstrip (String c u) = String c r.
Proof.
  intros Hc. simpl. destruct (rstrip u) as [|d r].
  - rewrite Hc. by exists EmptyString.
  - by exists (String d r).
Qed.

Lemma strip_lstrip (s : string) : lstrip (strip s) = strip s.
Proof.
  unfold strip. destruct (lstrip_head s) as [->|(c & u & -> & Hc)]; [done|].
  destruct (rstrip_keeps_head c u Hc) as [r ->]. simpl. by rewrite Hc.
Qed.

Lemma strip_rstrip (s : string) : rstrip (strip s) = strip s.
Proof. unfold strip. apply rstrip_idem. Qed.

Lemma lstrip_map_chars (f : ascii -> ascii) (t : string) :
  (forall c, is_space c = false -> is_space (f c) = false) ->
  lstrip t = t -> lstrip (map_chars f t) = map_chars f t.
Proof.
  intros Hf. destruct t as [|c t]; simpl; [done|].
  destruct (is_space c) eqn:E.
  - intros H. pose proof (lstrip_length t) as Hl. rewrite H in Hl.
    simpl in Hl. lia.
  - intros _. by rewrite (Hf c E).
Qed.

Lemma rstrip_map_chars (f : ascii -> ascii) (t : string) :
  (forall c, is_space c = false -> is_space (f c) = false) ->
  rstrip t = t -> rstrip (map_chars f t) = map_chars f t.
Proof.
  intros Hf. induction t as [|c t IH]; simpl; [done|].
  destruct (rstrip t) as [|d r] eqn:E.
  - destruct (is_space c) eqn:Ec; [done|].
    intros [= <-]. simpl. by rewrite (Hf c Ec).
  - intros [= <-]. rewrite IH by done. by simpl.
Qed.

Lemma map_chars_compose (f g : ascii -> ascii) (s : string) :
  map_chars f (map_chars g s) = map_chars (fun c => f (g c)) s.
Proof. induction s as [|c s IH]; simpl; [done|]. by rewrite IH. Qed.

Lemma map_chars_ext (f g : ascii -> ascii) (s : string) :
  (forall c, f c = g c) -> map_chars f s = map_chars g s.
Proof. intros H. induction s as [|c s IH]; simpl; [done|]. by rewrite H, IH. Qed.

Lemma map_chars_In (f : ascii -> ascii) (s : string) (ch : ascii) :
  In ch (list_ascii_of_string (map_chars f s)) -> exists c, ch = f c.
Proof.
  induction s as [|c s IH]; simpl; [done|].
  intros [<-|H]; [by exists c|by apply IH].
Qed.

(** The three character maps of [normalize], in one. *)
Lemma normalize_chars (c : string) :
  normalize c
  = map_chars (fun x =>
                 let y := lower_char x in
                 let z := if Ascii.eqb y " " then "_"%char else y in
                 if Ascii.eqb z "-" then "_"%char else z) (strip c).
Proof.
  unfold normalize, replace_char, lower. by rewrite !map_chars_compose.
Qed.

Lemma normalize_char_facts (x : ascii) :
  let h := fun x =>
             let y := lower_char x in
             let z := if Ascii.eqb y " " then "_"%char else y in
             if Ascii.eqb z "-" then "_"%char else z in
  h (h x) = h x /\ h x <> " "%char /\ h x <> "-"%char
  /\ lower_char (h x) = h x
  /\ (is_space x = false -> is_space (h x) = false).
Proof.
  destruct x as [[] [] [] [] [] [] [] []];
    (split; [reflexivity|]); (split; [discriminate|]);
    (split; [discriminate|]); (split; [reflexivity|]);
    vm_compute; congruence.
Qed.

Lemma normalize_stripped (c : string) : strip (normalize c) = normalize c.
Proof.
  rewrite normalize_chars. unfold strip at 1.
  rewrite lstrip_map_chars; [|intros x; apply normalize_char_facts|apply strip_lstrip].
  apply rstrip_map_chars; [intros x; apply normalize_char_facts|apply strip_rstrip].
Qed.

Lemma normalize_idem (c : string) : normalize (normalize c) = normalize c.
Proof.
  rewrite (normalize_chars (normalize c)), normalize_stripped.
  rewrite normalize_chars, map_chars_compose.
  apply map_chars_ext. intros x. apply normalize_char_facts.
Qed.

(** Normalizing a column label twice is the same as normalizing it once, and
    a normalized label has no white space at either end, no space, no dash and
    no upper-case ASCII letter. *)
Theorem normalize_normal_form (c : string) :
  normalize (normalize c) = normalize c
  /\ strip (normalize c) = normalize c
  /\ forall ch, In ch (list_ascii_of_string (normalize c)) ->
       ch <> " "%char /\ ch <> "-"%char /\ lower_char ch = ch.
Proof.
  split; [apply normalize_idem|]. split; [apply normalize_stripped|].
  intros ch Hch. rewrite normalize_chars in Hch.
  apply map_chars_In in Hch as [x ->].
  pose proof (normalize_char_facts x) as (_ & H1 & H2 & H3 & _).
  by repeat split.
Qed.

End CanonNormalForms.

(** ** Schema canonicalizer: what the alias loop leaves behind *)

Section CanonClosure.

Import Canon.

(** Where a label ends up: the loop keeps it or replaces it by the canonical
    name of one of its entries. *)
Lemma run_lookup_cases (T : list string) (al : list (string * string)) :
  (forall e, In e al -> In (snd e) T) ->
  (forall e, In e al -> ~ In (fst e) T) ->
  forall ns i y, ns !! i = Some y ->
    exists x, run_aliases al ns !! i = Some x /\ (x = y \/ In (y, x) al).
Proof.
  induction al as [|[a t] al IH]; intros HT HA ns i y Hy.
  - exists y. split; [done|by left].
  - rewrite run_aliases_cons.
    assert (HT' : forall e, In e al -> In (snd e) T)
      by (intros e He; apply HT; by right).
    assert (HA' : forall e, In e al -> ~ In (fst e) T)
      by (intros e He; apply HA; by right).
    destruct (step_names_cases ns (a, t)) as [[-> _]|[-> _]]; simpl.
    + destruct (IH HT' HA' ns i y Hy) as (x & Hx & [->|Hin]).
      * exists y. split; [done|by left].
      * exists x. split; [done|]. right. by right.
    + destruct (String.eqb y a) eqn:E.
      * apply String.eqb_eq in E. subst y.
        pose proof (relabel_renamed a t ns i Hy) as Ht.
        destruct (IH HT' HA' _ i t Ht) as (x & Hx & [->|Hin]).
        -- exists t. split; [done|]. right. by left.
        -- exfalso. apply (HA' (t, x) Hin). simpl.
           apply (HT (a, t)). by left.
      * apply String.eqb_neq in E.
        pose proof (relabel_keeps a t ns i y E Hy) as Hk.
        destruct (IH HT' HA' _ i y Hk) as (x & Hx & [->|Hin]).
        -- exists y. split; [done|by left].
        -- exists x. split; [done|]. right. by right.
Qed.

Lemma well_formed_disjoint (al : list (string * string)) :
  well_formed_table al ->
  (forall e, In e al -> In (snd e) (map snd al))
  /\ (forall e, In e al -> ~ In (fst e) (map snd al)).
Proof.
  intros (_ & Hdis & _). rewrite Forall_forall in Hdis. split.
  - intros e He. by apply in_map.
  - intros e He Hin. apply (Hdis (fst e)).
    + apply list_elem_of_In. by apply in_map.
    + by apply list_elem_of_In.
Qed.

(** After the loop, an alias that is still a label has its canonical name
    among the labels too. *)
Lemma run_closed (al : list (string * string)) (ns : list string) (a t : string) :
  well_formed_table al -> In (a, t) al ->
  In a (run_aliases al ns) -> In t (run_aliases al ns).
Proof.
  intros Hwf Hin Ha.
  pose proof Hwf as (Hnd & _ & Hirr).
  destruct (well_formed_disjoint al Hwf) as [HT HA].
  rewrite Forall_forall in Hirr.
  assert (Hat : a <> t) by (apply (Hirr (a, t)); by apply list_elem_of_In).
  destruct (entries_before_split al a t Hnd Hin) as (rest & Heq & _).
  remember (entries_before a al) as al1 eqn:Hal1. clear Hal1.
  assert (Ha_nt : ~ In a (map snd rest)).
  { intros H. apply (HA (a, t) Hin). simpl.
    rewrite Heq, map_app, in_app_iff. right. by right. }
  assert (Ht_nk : ~ In t (map fst rest)).
  { intros H. apply in_map_iff in H as (e & He1 & He2).
    apply (HA e).
    - rewrite Heq, in_app_iff. right. by right.
    - rewrite He1. apply (HT (a, t) Hin). }
  rewrite Heq, run_app, run_aliases_cons in Ha |- *.
  set (m := run_aliases al1 ns) in *.
  destruct (step_names_cases m (a, t)) as [[E [H|H]]|[E _]];
    simpl in *; rewrite E in Ha |- *.
  - exfalso. apply H. apply In_lookup in Ha as [i Hi]. apply In_lookup.
    exists i. by apply (run_no_creation rest).
  - apply In_lookup in H as [i Hi]. apply In_lookup. exists i.
    by apply run_keeps_non_alias.
  - exfalso. apply In_lookup in Ha as [i Hi].
    apply (run_no_creation rest) in Hi; [|done].
    apply (relabel_removes a t m Hat). apply In_lookup. eauto.
Qed.

(** A table whose aliases all have their canonical names is left alone. *)
Lemma apply_aliases_fixed (al : list (string * string)) (df : DataFrame) :
  (forall e, In e al -> In (fst e) (names df) -> In (snd e) (names df)) ->
  apply_aliases al df = df.
Proof.
  unfold apply_aliases. induction al as [|[a t] al IH]; intros H; simpl; [done|].
  assert (E : has_column a df && negb (has_column t df) = false).
  { destruct (has_column a df) eqn:Ea; [|done]. simpl.
    apply negb_false_iff. apply existsb_eqb_In.
    apply (H (a, t)); [by left|]. by apply existsb_eqb_In. }
  rewrite E. apply IH. intros e He. apply H. by right.
Qed.

Lemma rename_with_fixed (f : string -> string) (df : DataFrame) :
  (forall n, In n (names df) -> f n = n) -> rename_with f df = df.
Proof.
  destruct df as [n cols]. unfold rename_with, names. simpl. intros H.
  f_equal. induction cols as [|[l v] cols IH]; simpl; [done|].
  rewrite IH by (intros k Hk; apply H; by right).
  rewrite (H l) by (by left). done.
Qed.

Lemma df_empty_canonicalize (df : DataFrame) :
  df_empty (canonicalize_columns df) = df_empty df.
Proof.
  destruct (data_canonicalize df) as [Hd Hi].
  unfold df_empty. rewrite Hi.
  assert (Hl : length (columns (canonicalize_columns df)) = length (columns df)).
  { by rewrite <- (length_map snd), Hd, length_map. }
  destruct (index_len df); [done|].
  destruct (columns (canonicalize_columns df)), (columns df); simpl in Hl;
    done || lia.
Qed.

Lemma targets_normalized :
  forall e, In e ALIASES -> normalize (snd e) = snd e.
Proof.
  apply List.Forall_forall. apply (bool_decide_unpack _). by vm_compute.
Qed.

Lemma canonical_names_normalized (df : DataFrame) (n : string) :
  df_empty df = false ->
  In n (names (canonicalize_columns df)) -> normalize n = n.
Proof.
  intros Hne Hn. rewrite (names_canonicalize df Hne) in Hn.
  apply In_lookup in Hn as [i Hi].
  destruct (lookup_lt_is_Some_2 (map normalize (names df)) i) as [y Hy].
  { apply lookup_lt_Some in Hi. revert Hi. unfold run_aliases.
    clear. generalize (map normalize (names df)) as ns.
    induction ALIASES as [|e al IH]; intros ns; simpl; [done|].
    intros H. apply IH in H.
    unfold step_names, relabel in H.
    destruct (_ && _) in H; [by rewrite length_map in H|done]. }
  destruct (well_formed_disjoint ALIASES ALIASES_well_formed) as [HT HA].
  destruct (run_lookup_cases _ ALIASES HT HA _ i y Hy) as (x & Hx & Hc).
  rewrite Hi in Hx. injection Hx as <-.
  destruct Hc as [->|Hin].
  - assert (Hy' : In y (map normalize (names df)))
      by (apply In_lookup; eauto).
    apply in_map_iff in Hy' as (c & <- & _). apply normalize_idem.
  - apply (targets_normalized (y, n) Hin).
Qed.

(** The canonicalizer is idempotent: a canonicalized table is returned as it
    is when it is canonicalized again (as [preprocess_dataframe] and the report
    do with the table the application has already canonicalized). *)
Theorem canonicalize_idempotent (df : DataFrame) :
  canonicalize_columns (canonicalize_columns df) = canonicalize_columns df.
Proof.
  destruct (df_empty df) eqn:Hne.
  - unfold canonicalize_columns. by rewrite !Hne.
  - pose proof (df_empty_canonicalize df) as He. rewrite Hne in He.
    set (out := canonicalize_columns df) in *.
    unfold canonicalize_columns at 1. rewrite He.
    rewrite rename_with_fixed
      by (intros n Hn; by apply (canonical_names_normalized df)).
    apply apply_aliases_fixed. intros [a t] Hin Ha. simpl in *.
    unfold out in *. rewrite (names_canonicalize df Hne) in Ha |- *.
    by apply (run_closed ALIASES _ a t ALIASES_well_formed).
Qed.

(** Whenever a column of a non-empty table is named, after normalization, by
    an alias or by its canonical name, the canonicalized table has a column
    with the canonical name. *)
Theorem canonicalize_provides_target (df : DataFrame) (alias target : string) :
  df_empty df = false ->
  In (alias, target) ALIASES ->
  In alias (map normalize (names df)) \/ In target (map normalize (names df)) ->
  In target (names (canonicalize_columns df)).
Proof.
  intros Hne Hin Hp. rewrite (names_canonicalize df Hne).
  pose proof ALIASES_well_formed as Hwf.
  destruct (well_formed_disjoint ALIASES Hwf) as [HT HA].
  destruct Hp as [Ha|Ht].
  - apply In_lookup in Ha as [i Hi].
    destruct (run_lookup_cases _ ALIASES HT HA _ i alias Hi) as (x & Hx & Hc).
    destruct Hc as [->|Hin'].
    + apply (run_closed ALIASES _ alias target Hwf Hin).
      apply In_lookup. eauto.
    + destruct Hwf as (Hnd & _).
      rewrite (unique_target ALIASES alias target x Hnd Hin Hin').
      apply In_lookup. eauto.
  - apply In_lookup in Ht as [i Hi]. apply In_lookup. exists i.
    apply run_keeps_non_alias; [|done].
    intros H. apply in_map_iff in H as (e & He1 & He2).
    apply (HA e He2). rewrite He1. apply (HT (alias, target) Hin).
Qed.

End CanonClosure.

Lemma canonicalize_provides_target_witness :
  df_empty Canon.alias_only = false
  /\ In ("src_ip", "source_ip") Canon.ALIASES
  /\ (In "src_ip" (map Canon.normalize (names Canon.alias_only))
      \/ In "source_ip" (map Canon.normalize (names Canon.alias_only)))
  /\ In "source_ip" (names (Canon.canonicalize_columns Canon.alias_only)).
Proof.
  assert (H1 : df_empty Canon.alias_only = false) by reflexivity.
  assert (H2 : In ("src_ip", "source_ip") Canon.ALIASES)
    by (apply In_entry_decide; vm_compute; reflexivity).
  assert (H3 : In "src_ip" (map Canon.normalize (names Canon.alias_only))
               \/ In "source_ip" (map Canon.normalize (names Canon.alias_only)))
    by (left; apply In_decide; vm_compute; reflexivity).
  split; [exact H1|]. split; [exact H2|]. split; [exact H3|].
  exact (canonicalize_provides_target Canon.alias_only "src_ip" "source_ip"
           H1 H2 H3).
Defined.

(** ** Feature aligner: projections and the cells of the result *)

Section AlignMore.

Import Align.

(** Aligning against a list [F] of distinct names and then against names
    taken from [F] gives what aligning against those names directly gives: the
    first alignment loses nothing that the second one needs. *)
Theorem align_features_projection (X : DataFrame) (F G : list string) :
  NoDup F -> (forall g, In g G -> In g F) ->
  match align_features X F with
  | Some Y => align_features Y G
  | None => None
  end = align_features X G.
Proof.
  intros Hnd Hsub. rewrite (align_features_columns X F).
  rewrite !align_features_columns. simpl. f_equal. f_equal.
  apply flat_map_ext_In. intros g Hg.
  apply aligned_group_again; [done|by apply Hsub].
Qed.

Lemma fill_cell_not_null (c : cell) : fill_cell (CInt 0) c <> CNull.
Proof. by destruct c. Qed.

Lemma aligned_group_cells (X : DataFrame) (f : string) (c : string * list cell) :
  In c (aligned_group X f) ->
  fst c = f
  /\ (forall v, In v (snd c) -> v <> CNull)
  /\ (rectangular X -> length (snd c) = index_len X)
  /\ ((exists c0, In c0 (select f X)
                  /\ snd c = fillna_series (CInt 0) (snd c0))
      \/ (~ In f (names X) /\ snd c = repeat (CInt 0) (index_len X))).
Proof.
  intros Hc. split; [by apply (aligned_group_labels X f)|].
  unfold aligned_group in Hc.
  destruct (select f X) as [|c1 cs] eqn:E.
  - destruct Hc as [<-|[]]. simpl. split; [|split].
    + intros v Hv. apply repeat_spec in Hv. by subst.
    + intros _. apply repeat_length.
    + right. split; [by apply select_nil_iff|done].
  - apply in_map_iff in Hc as (c0 & <- & Hc0). simpl. split; [|split].
    + intros v Hv. apply in_map_iff in Hv as (v0 & <- & _).
      apply fill_cell_not_null.
    + intros Hrect. unfold fillna_series. rewrite length_map.
      unfold rectangular in Hrect. rewrite List.Forall_forall in Hrect.
      apply Hrect. rewrite <- E in Hc0. unfold select in Hc0.
      by apply filter_In in Hc0 as [? _].
    + left. by exists c0.
Qed.

(** The aligned table has the rows of the input, only columns named in the
    expected list and at least one for each expected name, and no missing
    value in any cell; each column is a column of the input with its missing
    values replaced by 0, or a column of zeros for a name the input lacks.
    It is rectangular when the input is. *)
Theorem align_features_cells (X : DataFrame) (F : list string) :
  exists Y, align_features X F = Some Y
    /\ index_len Y = index_len X
    /\ (forall f, In f (names Y) <-> In f F)
    /\ (forall c v, In c (columns Y) -> In v (snd c) -> v <> CNull)
    /\ (forall c, In c (columns Y) ->
          (exists c0, In c0 (columns X) /\ fst c0 = fst c
                      /\ snd c = fillna_series (CInt 0) (snd c0))
          \/ (~ In (fst c) (names X)
              /\ snd c = repeat (CInt 0) (index_len X)))
    /\ (rectangular X -> rectangular Y).
Proof.
  exists (mkDF (index_len X) (flat_map (aligned_group X) F)).
  split; [apply align_features_columns|]. simpl.
  split; [done|]. split; [|split; [|split]].
  - intros f. unfold names. simpl. rewrite in_map_iff. split.
    + intros (c & <- & Hc). apply in_flat_map in Hc as (g & Hg & Hc).
      by rewrite (aligned_group_labels X g c Hc).
    + intros Hf.
      destruct (aligned_group X f) as [|c cs] eqn:E;
        [by apply aligned_group_nonempty in E|].
      exists c. split.
      * apply (aligned_group_labels X f). rewrite E. by left.
      * apply in_flat_map. exists f. split; [done|]. rewrite E. by left.
  - intros c v Hc Hv. apply in_flat_map in Hc as (g & _ & Hc).
    by apply (aligned_group_cells X g c Hc).
  - intros c Hc. apply in_flat_map in Hc as (g & _ & Hc).
    destruct (aligned_group_cells X g c Hc) as (Hl & _ & _ & [H|H]).
    + left. destruct H as (c0 & Hc0 & Hs). exists c0.
      split; [|split; [|done]].
      * unfold select in Hc0. by apply filter_In in Hc0 as [? _].
      * rewrite Hl. by apply (select_labels g X).
    + right. by rewrite Hl.
  - intros Hrect. unfold rectangular. simpl. apply List.Forall_forall.
    intros c Hc. apply in_flat_map in Hc as (g & _ & Hc).
    by apply (aligned_group_cells X g c Hc).
Qed.

End AlignMore.

Lemma align_features_projection_witness :
  NoDup ["hour"; "dst_ip_int"; "username_bob"]
  /\ (forall g, In g ["username_bob"; "hour"] ->
                In g ["hour"; "dst_ip_int"; "username_bob"])
  /\ match Align.align_features Align.sample_features
             ["hour"; "dst_ip_int"; "username_bob"] with
     | Some Y => Align.align_features Y ["username_bob"; "hour"]
     | None => None
     end = Align.align_features Align.sample_features ["username_bob"; "hour"].
Proof.
  assert (H1 : NoDup ["hour"; "dst_ip_int"; "username_bob"])
    by (apply (bool_decide_unpack _); vm_compute; exact I).
  assert (H2 : forall g, In g ["username_bob"; "hour"] ->
                         In g ["hour"; "dst_ip_int"; "username_bob"])
    by (simpl; intros g [<-|[<-|[]]]; tauto).
  split; [exact H1|]. split; [exact H2|].
  exact (align_features_projection Align.sample_features _ _ H1 H2).
Defined.

(** ** Recommendation engine: the rules *)

Section RecommendRules.

Import Recommend.

Lemma any_series_eq (cls : list cell) (s : string) :
  any (series_eq cls s) = true <-> In (CStr s) cls.
Proof.
  unfold any, series_eq. induction cls as [|c cls IH]; simpl; [by split|].
  rewrite orb_true_iff, IH. unfold id. split.
  - intros [H|H]; [|by right]. left. destruct c; try done.
    apply String.eqb_eq in H. by subst.
  - intros [->|H]; [|by right]. left. apply String.eqb_refl.
Qed.

Lemma all_series_eq (cls : list cell) (s : string) :
  all (series_eq cls s) = true <-> List.Forall (fun c => c = CStr s) cls.
Proof.
  unfold all, series_eq. induction cls as [|c cls IH]; simpl.
  - split; [constructor|done].
  - rewrite andb_true_iff, IH. unfold id. split.
    + intros [H1 H2]. constructor; [|done]. destruct c; try done.
      apply String.eqb_eq in H1. by subst.
    + intros H. apply Forall_cons in H as [-> H]. split; [|done].
      apply String.eqb_refl.
Qed.

Lemma any_false_iff (cls : list cell) (s : string) :
  any (series_eq cls s) = false <-> ~ In (CStr s) cls.
Proof.
  rewrite <- any_series_eq. destruct (any _); split; congruence.
Qed.

Lemma all_false_iff (cls : list cell) (s : string) :
  all (series_eq cls s) = false <-> ~ List.Forall (fun c => c = CStr s) cls.
Proof.
  rewrite <- all_series_eq. destruct (all _); split; congruence.
Qed.

Lemma recommend_actions_series (df : DataFrame) (cls : list cell) :
  getitem df "classification" = Series cls ->
  recommend_actions df
  = Some ((if any (series_eq cls "malicious")
           then [ "Isolate affected hosts or user accounts immediately.";
                  "Block malicious IPs/domains at firewall and proxy.";
                  "Collect forensic artifacts (memory, disk, logs)." ]
           else [])
          ++ (if any (series_eq cls "suspicious")
              then [ "Increase monitoring and enable detailed logging for affected entities.";
                     "Validate user actions with the business owner." ]
              else [])
          ++ (if all (series_eq cls "benign")
              then [ "No immediate action required; continue routine monitoring." ]
              else [])
          ++ [ "Create/Update incident ticket and document findings.";
               "Review detection rules to reduce false positives." ]).
Proof.
  intros H. unfold recommend_actions. rewrite H.
  destruct (any (series_eq cls "malicious")),
           (any (series_eq cls "suspicious")),
           (all (series_eq cls "benign")); reflexivity.
Qed.

(** What each recommendation means.  When the table has one classification
    column, the isolation action is recommended exactly when some row is
    malicious, heightened monitoring exactly when some row is suspicious, and
    the no-action line exactly when every row is benign; the list always ends
    with the two closing actions; and the no-action line never comes with any
    other rule's action. *)
Theorem recommend_actions_rules (df : DataFrame) (cls : list cell) :
  getitem df "classification" = Series cls ->
  exists actions, recommend_actions df = Some actions
    /\ (In "Isolate affected hosts or user accounts immediately." actions
        <-> In (CStr "malicious") cls)
    /\ (In "Increase monitoring and enable detailed logging for affected entities."
           actions
        <-> In (CStr "suspicious") cls)
    /\ (In "No immediate action required; continue routine monitoring." actions
        <-> List.Forall (fun c => c = CStr "benign") cls)
    /\ (exists rules, actions
          = rules ++ [ "Create/Update incident ticket and document findings.";
                       "Review detection rules to reduce false positives." ])
    /\ (In "No immediate action required; continue routine monitoring." actions ->
        actions
        = [ "No immediate action required; continue routine monitoring.";
            "Create/Update incident ticket and document findings.";
            "Review detection rules to reduce false positives." ]).
Proof.
  intros H. rewrite (recommend_actions_series df cls H).
  eexists. split; [reflexivity|].
  assert (Hx : forall s, s <> "benign" -> In (CStr s) cls ->
                 List.Forall (fun c => c = CStr "benign") cls -> False).
  { intros s Hs Hin Hall. rewrite List.Forall_forall in Hall.
    apply Hall in Hin. congruence. }
  rewrite <- !existsb_eqb_In.
  destruct (any (series_eq cls "malicious")) eqn:Em;
    [apply any_series_eq in Em|apply any_false_iff in Em];
    (destruct (any (series_eq cls "suspicious")) eqn:Es;
     [apply any_series_eq in Es|apply any_false_iff in Es]);
    (destruct (all (series_eq cls "benign")) eqn:Eb;
     [apply all_series_eq in Eb|apply all_false_iff in Eb]);
    try (exfalso; apply (Hx "malicious"); done);
    try (exfalso; apply (Hx "suspicious"); done).
  all: repeat match goal with
       | |- (existsb ?f ?l = true <-> _) /\ _ =>
           let b := eval vm_compute in (existsb f l) in
           change (existsb f l) with b; split; [split; [try done|done]|]
       end.
  all: split; [|vm_compute; try done].
  all: try (by exists []).
  all: try (by eexists [_]).
  all: try (by eexists [_; _]).
  all: try (by eexists [_; _; _]).
  all: try (by eexists [_; _; _; _]).
  all: by eexists [_; _; _; _; _].
Qed.

Lemma existsb_Permutation {A} (f : A -> bool) (l l' : list A) :
  Permutation l l' -> existsb f l = existsb f l'.
Proof.
  induction 1; simpl; try congruence.
  by destruct (f x), (f y).
Qed.

Lemma forallb_Permutation {A} (f : A -> bool) (l l' : list A) :
  Permutation l l' -> forallb f l = forallb f l'.
Proof.
  induction 1; simpl; try congruence.
  by destruct (f x), (f y).
Qed.

(** The recommendations do not depend on the order of the rows. *)
Theorem recommend_actions_row_order (df df' : DataFrame) (cls cls' : list cell) :
  getitem df "classification" = Series cls ->
  getitem df' "classification" = Series cls' ->
  Permutation cls cls' ->
  recommend_actions df = recommend_actions df'.
Proof.
  intros H H' Hp.
  rewrite (recommend_actions_series df cls H),
          (recommend_actions_series df' cls' H').
  unfold any, all, series_eq.
  by rewrite !(existsb_Permutation id _ _ (Permutation_map _ Hp)),
             !(forallb_Permutation id _ _ (Permutation_map _ Hp)).
Qed.


End RecommendRules.

Lemma recommend_actions_rules_witness :
  getitem (mkDF 2 [("classification", [CStr "suspicious"; CStr "benign"])])
          "classification"
  = Series [CStr "suspicious"; CStr "benign"]
  /\ exists actions,
       Recommend.recommend_actions
         (mkDF 2 [("classification", [CStr "suspicious"; CStr "benign"])])
       = Some actions
    /\ (In "Isolate affected hosts or user accounts immediately." actions
        <-> In (CStr "malicious") [CStr "suspicious"; CStr "benign"])
    /\ (In "Increase monitoring and enable detailed logging for affected entities."
           actions
        <-> In (CStr "suspicious") [CStr "suspicious"; CStr "benign"])
    /\ (In "No immediate action required; continue routine monitoring." actions
        <-> List.Forall (fun c => c = CStr "benign")
                        [CStr "suspicious"; CStr "benign"])
    /\ (exists rules, actions
          = rules ++ [ "Create/Update incident ticket and document findings.";
                       "Review detection rules to reduce false positives." ])
    /\ (In "No immediate action required; continue routine monitoring." actions ->
        actions
        = [ "No immediate action required; continue routine monitoring.";
            "Create/Update incident ticket and document findings.";
            "Review detection rules to reduce false positives." ]).
Proof.
  split; [reflexivity|].
  exact (recommend_actions_rules
           (mkDF 2 [("classification", [CStr "suspicious"; CStr "benign"])])
           [CStr "suspicious"; CStr "benign"] eq_refl).
Defined.

Lemma recommend_actions_row_order_witness :
  getitem (mkDF 2 [("classification", [CStr "suspicious"; CStr "benign"])])
          "classification"
  = Series [CStr "suspicious"; CStr "benign"]
  /\ getitem (mkDF 2 [ ("risk_score", [CInt 0; CInt 1]);
                       ("classification", [CStr "benign"; CStr "suspicious"]) ])
             "classification"
     = Series [CStr "benign"; CStr "suspicious"]
  /\ Permutation [CStr "suspicious"; CStr "benign"]
                 [CStr "benign"; CStr "suspicious"]
  /\ Recommend.recommend_actions
       (mkDF 2 [("classification", [CStr "suspicious"; CStr "benign"])])
     = Recommend.recommend_actions
         (mkDF 2 [ ("risk_score", [CInt 0; CInt 1]);
                   ("classification", [CStr "benign"; CStr "suspicious"]) ]).
Proof.
  split; [reflexivity|]. split; [reflexivity|]. split; [apply perm_swap|].
  exact (recommend_actions_row_order
           (mkDF 2 [("classification", [CStr "suspicious"; CStr "benign"])])
           (mkDF 2 [ ("risk_score", [CInt 0; CInt 1]);
                     ("classification", [CStr "benign"; CStr "suspicious"]) ])
           _ _ eq_refl eq_refl (perm_swap _ _ _)).
Defined.

(** ** Risk labelling: order and NaN *)

Section RiskOrder.

Import Risk.
Local Open Scope float_scope.

(** Transitivity of [<=] on doubles, from a positive finite bound. *)
Lemma SFleb_trans_from_positive (m0 : positive) (e0 : Z) (b c : spec_float) :
  SFleb (S754_finite false m0 e0) b = true ->
  SFleb b c = true ->
  SFleb (S754_finite false m0 e0) c = true.
Proof.
  unfold SFleb, SFcompare.
  destruct b as [sb|sb| |sb mb eb]; try discriminate.
  - destruct sb; [discriminate|]. intros _.
    destruct c as [sc|sc| |sc mc ec]; try discriminate.
    + destruct sc; [discriminate|reflexivity].
  - destruct sb; [discriminate|]. intros Hab.
    destruct c as [sc|sc| |sc mc ec]; try discriminate.
    + destruct sc; [discriminate|reflexivity].
    + destruct sc; [discriminate|]. revert Hab.
      change (Pos.compare_cont Eq m0 mb) with (m0 ?= mb)%positive.
      change (Pos.compare_cont Eq mb mc) with (mb ?= mc)%positive.
      change (Pos.compare_cont Eq m0 mc) with (m0 ?= mc)%positive.
      destruct (Z.compare_spec e0 eb), (Z.compare_spec eb ec),
               (Z.compare_spec e0 ec);
        try discriminate; try reflexivity; try lia;
        destruct (Pos.compare_spec m0 mb), (Pos.compare_spec mb mc),
                 (Pos.compare_spec m0 mc);
        try discriminate; try reflexivity; lia.
Qed.

Lemma leb_trans_0_8 (r1 r2 : float) :
  (0.8 <=? r1) = true -> (r1 <=? r2) = true -> (0.8 <=? r2) = true.
Proof.
  rewrite !leb_spec, SF_0_8. apply SFleb_trans_from_positive.
Qed.

Lemma leb_trans_0_5 (r1 r2 : float) :
  (0.5 <=? r1) = true -> (r1 <=? r2) = true -> (0.5 <=? r2) = true.
Proof.
  rewrite !leb_spec, SF_0_5. apply SFleb_trans_from_positive.
Qed.

(** The ladder is monotone: a score that is at least as high never gets a
    milder label.  This holds for every pair of doubles, in [0, 1] or not. *)
Theorem label_of_risk_monotone (r1 r2 : float) :
  (r1 <=? r2) = true ->
  (label_of_risk r1 = "malicious"%string -> label_of_risk r2 = "malicious"%string)
  /\ (label_of_risk r1 = "suspicious"%string ->
      label_of_risk r2 <> "benign"%string)
  /\ (label_of_risk r2 = "benign"%string -> label_of_risk r1 = "benign"%string).
Proof.
  intros Hle. unfold label_of_risk.
  destruct (0.8 <=? r1) eqn:H8.
  - rewrite (leb_trans_0_8 r1 r2 H8 Hle). by repeat split.
  - destruct (0.5 <=? r1) eqn:H5.
    + rewrite (leb_trans_0_5 r1 r2 H5 Hle).
      destruct (0.8 <=? r2); by repeat split.
    + destruct (0.8 <=? r2); [by repeat split|].
      destruct (0.5 <=? r2); by repeat split.
Qed.

Lemma SFcompare_refl (a : spec_float) :
  a <> S754_nan -> SFcompare a a = Some Eq.
Proof.
  destruct a as [s|s| |s m e]; simpl; try done.
  - by destruct s.
  - intros _. rewrite Z.compare_refl.
    change (Pos.compare_cont Eq m m) with (m ?= m)%positive.
    rewrite Pos.compare_refl. by destruct s.
Qed.

Lemma is_nan_spec (x : float) :
  PrimFloat.is_nan x = true <-> Prim2SF x = S754_nan.
Proof.
  unfold PrimFloat.is_nan. rewrite negb_true_iff, FloatAxioms.eqb_spec. unfold SFeqb.
  split.
  - intros H. destruct (Prim2SF x) eqn:E; try done;
      rewrite SFcompare_refl in H; done.
  - by intros ->.
Qed.

Lemma leb_nan_r (c x : float) :
  PrimFloat.is_nan x = true -> (c <=? x) = false.
Proof.
  intros H. apply is_nan_spec in H. rewrite leb_spec, H. unfold SFleb.
  by destruct (Prim2SF c).
Qed.

Lemma row_max_nan_first (first : float) (rest : list float) :
  PrimFloat.is_nan first = true -> row_max first rest = first.
Proof.
  unfold row_max. induction rest as [|x rest IH]; intros H; simpl; [done|].
  rewrite H. by apply IH.
Qed.

Lemma row_max_nan (first : float) (rest : list float) :
  PrimFloat.is_nan first = true
  \/ List.Exists (fun x => PrimFloat.is_nan x = true) rest ->
  PrimFloat.is_nan (row_max first rest) = true.
Proof.
  revert first. induction rest as [|x rest IH]; intros first [H|H].
  - done.
  - inversion H.
  - by rewrite row_max_nan_first.
  - destruct (PrimFloat.is_nan first) eqn:Ef;
      [by rewrite row_max_nan_first|].
    change (row_max first (x :: rest))
      with (row_max (if PrimFloat.is_nan first then first
                     else if PrimFloat.is_nan x then x
                     else if first <? x then x else first) rest).
    rewrite Ef. inversion H as [? ? Hx|? ? Hr]; subst.
    + rewrite Hx. apply IH. by left.
    + apply IH. by right.
Qed.

(** A row of probabilities that contains a NaN has a NaN risk score, and a
    NaN risk score is labelled benign: every comparison with NaN is false, so
    both rungs of the ladder are skipped. *)
Theorem nan_row_is_benign (first : float) (rest : list float) :
  PrimFloat.is_nan first = true
  \/ List.Exists (fun x => PrimFloat.is_nan x = true) rest ->
  PrimFloat.is_nan (row_max first rest) = true
  /\ label_of_risk (row_max first rest) = "benign"%string
  /\ snd (label_rows [(first, rest)]) = ["benign"%string].
Proof.
  intros H. pose proof (row_max_nan first rest H) as Hn.
  assert (Hl : label_of_risk (row_max first rest) = "benign"%string).
  { unfold label_of_risk. by rewrite !(leb_nan_r _ _ Hn). }
  split; [done|]. split; [done|]. unfold label_rows. simpl. by rewrite Hl.
Qed.

End RiskOrder.

Lemma label_of_risk_monotone_witness :
  PrimFloat.leb 0.6%float 0.9%float = true
  /\ (Risk.label_of_risk 0.6%float = "malicious" ->
      Risk.label_of_risk 0.9%float = "malicious")
  /\ (Risk.label_of_risk 0.6%float = "suspicious" ->
      Risk.label_of_risk 0.9%float <> "benign")
  /\ (Risk.label_of_risk 0.9%float = "benign" ->
      Risk.label_of_risk 0.6%float = "benign").
Proof.
  split; [reflexivity|].
  exact (label_of_risk_monotone 0.6%float 0.9%float eq_refl).
Defined.

Lemma nan_row_is_benign_witness :
  (PrimFloat.is_nan 0.9%float = true
   \/ List.Exists (fun x => PrimFloat.is_nan x = true) [0.05%float; nan])
  /\ PrimFloat.is_nan (Risk.row_max 0.9%float [0.05%float; nan]) = true
  /\ Risk.label_of_risk (Risk.row_max 0.9%float [0.05%float; nan]) = "benign"
  /\ snd (Risk.label_rows [(0.9%float, [0.05%float; nan])]) = ["benign"].
Proof.
  assert (H : PrimFloat.is_nan 0.9%float = true
              \/ List.Exists (fun x => PrimFloat.is_nan x = true)
                             [0.05%float; nan]).
  { right. apply Exists_cons_tl. apply Exists_cons_hd. reflexivity. }
  split; [exact H|].
  exact (nan_row_is_benign 0.9%float [0.05%float; nan] H).
Defined.

(** ** Feature extractor: well-formed addresses *)

Section AddressValues.

Import Ipaddress.

Lemma Z_lor_shiftl_add (acc v w : Z) :
  (0 <= w)%Z -> (0 <= v < 2 ^ w)%Z ->
  Z.lor (Z.shiftl acc w) v = (acc * 2 ^ w + v)%Z.
Proof.
  intros Hw Hv. rewrite <- Z.shiftl_mul_pow2 by done.
  assert (Hland : Z.land (Z.shiftl acc w) v = 0%Z).
  { apply Z.bits_inj'. intros n Hn. rewrite Z.land_spec, Z.bits_0.
    destruct (Z.lt_ge_cases n w) as [Hlt|Hge].
    - by rewrite Z.shiftl_spec_low.
    - apply andb_false_iff. right.
      destruct (Z.eq_dec v 0%Z) as [->|Hv0]; [apply Z.bits_0|].
      apply Z.bits_above_log2; [lia|].
      assert (Z.log2 v < w)%Z by (apply Z.log2_lt_pow2; lia). lia. }
  rewrite <- Z.lxor_lor by done. symmetry. by apply Z.add_nocarry_lxor.
Qed.

Lemma all_chars_app (f : ascii -> bool) (s t : string) :
  all_chars f (s ++ t)%string = all_chars f s && all_chars f t.
Proof.
  induction s as [|c s IH]; simpl; [done|]. by rewrite IH, andb_assoc.
Qed.

Lemma has_char_app (c : ascii) (s t : string) :
  has_char c (s ++ t)%string = has_char c s || has_char c t.
Proof. unfold has_char. by rewrite all_chars_app, negb_andb. Qed.

Lemma split_no_sep (sep : ascii) (s : string) :
  has_char sep s = false -> split sep s = [s].
Proof.
  unfold has_char. rewrite negb_false_iff.
  induction s as [|c s IH]; simpl; [done|].
  intros H. apply andb_true_iff in H as [Hc Hs].
  apply negb_true_iff in Hc. rewrite Hc, (IH Hs). done.
Qed.

Lemma split_app_sep (sep : ascii) (s rest : string) :
  has_char sep s = false ->
  split sep (s ++ String sep rest)%string = s :: split sep rest.
Proof.
  unfold has_char. rewrite negb_false_iff.
  induction s as [|c s IH]; simpl.
  - intros _. by rewrite Ascii.eqb_refl.
  - intros H. apply andb_true_iff in H as [Hc Hs].
    apply negb_true_iff in Hc. rewrite Hc, (IH Hs). done.
Qed.

(** The decimal spelling of an octet is read back as that octet. *)
Lemma octet_round_trip (a : Z) :
  (0 <= a <= 255)%Z ->
  parse_octet (pretty a) = Some a
  /\ has_char "." (pretty a) = false
  /\ has_char "/" (pretty a) = false.
Proof.
  intros Ha.
  assert (Hall : forallb (fun n =>
                   let a := Z.of_nat n in
                   match parse_octet (pretty a) with
                   | Some v => (v =? a)%Z
                   | None => false
                   end
                   && negb (has_char "." (pretty a))
                   && negb (has_char "/" (pretty a))) (seq 0 256) = true)
    by (vm_compute; reflexivity).
  rewrite forallb_forall in Hall.
  specialize (Hall (Z.to_nat a)).
  rewrite Z2Nat.id in Hall by lia.
  assert (Hin : In (Z.to_nat a) (seq 0 256)) by (apply in_seq; lia).
  apply Hall in Hin. cbv zeta in Hin.
  apply andb_true_iff in Hin as [Hin H3].
  apply andb_true_iff in Hin as [H1 H2].
  apply negb_true_iff in H2, H3.
  destruct (parse_octet (pretty a)) as [v|]; [|done].
  apply Z.eqb_eq in H1. by subst.
Qed.

Lemma dotted_quad_parsed (a b c d : Z) :
  (0 <= a <= 255)%Z -> (0 <= b <= 255)%Z ->
  (0 <= c <= 255)%Z -> (0 <= d <= 255)%Z ->
  ip_address_of_string
    (pretty a ++ "." ++ pretty b ++ "." ++ pretty c ++ "." ++ pretty d)%string
  = Some (V4 (a * 2 ^ 24 + b * 2 ^ 16 + c * 2 ^ 8 + d)%Z).
Proof.
  intros Ha Hb Hc Hd.
  destruct (octet_round_trip a Ha) as (Pa & Da & Sa).
  destruct (octet_round_trip b Hb) as (Pb & Db & Sb).
  destruct (octet_round_trip c Hc) as (Pc & Dc & Sc).
  destruct (octet_round_trip d Hd) as (Pd & Dd & Sd).
  unfold ip_address_of_string, ipv4_of_string.
  assert (Hslash : has_char "/"
            (pretty a ++ "." ++ pretty b ++ "." ++ pretty c ++ "." ++ pretty d)%string
            = false).
  { rewrite !has_char_app, Sa, Sb, Sc, Sd. reflexivity. }
  rewrite Hslash. unfold v4_int_from_string.
  assert (Hne : String.eqb
            (pretty a ++ "." ++ pretty b ++ "." ++ pretty c ++ "." ++ pretty d)%string
            "" = false).
  { apply String.eqb_neq. intros H.
    assert (Hd0 : has_char "."
              (pretty a ++ "." ++ pretty b ++ "." ++ pretty c ++ "." ++ pretty d)%string
              = false) by (by rewrite H).
    rewrite !has_char_app in Hd0. apply orb_false_iff in Hd0 as [_ Hd0].
    by apply orb_false_iff in Hd0 as [Hd0 _]. }
  rewrite Hne.
  assert (Hdot : forall s, ("." ++ s)%string = String "." s) by reflexivity.
  rewrite !Hdot, !split_app_sep, split_no_sep by done.
  simpl. rewrite Pa, Pb, Pc, Pd.
  rewrite !Z_lor_shiftl_add by lia.
  f_equal. f_equal. lia.
Qed.

End AddressValues.

Section FeatureValues.

Import Features.

(** For four octets in 0..255 written in decimal and joined by dots,
    [ip_to_int] returns the address as a 32-bit number, big end first. *)
Theorem ip_to_int_dotted_quad (a b c d : Z) :
  (0 <= a <= 255)%Z -> (0 <= b <= 255)%Z ->
  (0 <= c <= 255)%Z -> (0 <= d <= 255)%Z ->
  ip_to_int
    (CStr (pretty a ++ "." ++ pretty b ++ "." ++ pretty c ++ "." ++ pretty d)%string)
  = (a * 2 ^ 24 + b * 2 ^ 16 + c * 2 ^ 8 + d)%Z.
Proof.
  intros Ha Hb Hc Hd. unfold ip_to_int. simpl.
  by rewrite (dotted_quad_parsed a b c d Ha Hb Hc Hd).
Qed.

End FeatureValues.

Lemma ip_to_int_dotted_quad_witness :
  (0 <= 185 <= 255)%Z /\ (0 <= 199 <= 255)%Z
  /\ (0 <= 108 <= 255)%Z /\ (0 <= 153 <= 255)%Z
  /\ Features.ip_to_int
       (CStr (pretty 185%Z ++ "." ++ pretty 199%Z ++ "." ++ pretty 108%Z
              ++ "." ++ pretty 153%Z)%string)
     = (185 * 2 ^ 24 + 199 * 2 ^ 16 + 108 * 2 ^ 8 + 153)%Z.
Proof.
  assert (H1 : (0 <= 185 <= 255)%Z) by lia.
  assert (H2 : (0 <= 199 <= 255)%Z) by lia.
  assert (H3 : (0 <= 108 <= 255)%Z) by lia.
  assert (H4 : (0 <= 153 <= 255)%Z) by lia.
  split; [exact H1|]. split; [exact H2|]. split; [exact H3|].
  split; [exact H4|].
  exact (ip_to_int_dotted_quad 185 199 108 153 H1 H2 H3 H4).
Defined.

Example ip_to_int_sample :
  Features.ip_to_int (CStr "185.199.108.153") = 3116854425%Z
  /\ pretty 185%Z = "185".
Proof. vm_compute. split; reflexivity. Qed.

(** ** Feature extractor: the range of the address number *)

Section AddressRange.

Import Ipaddress.
Local Open Scope Z_scope.

Lemma hex_value_range (c : ascii) (v : Z) :
  hex_value c = Some v -> 0 <= v < 16.
Proof.
  unfold hex_value. cbv zeta.
  repeat match goal with
         | |- context [if ?b then _ else _] => destruct b eqn:?
         end; intros [= <-]; lia.
Qed.

Lemma int_of_digits_nonneg (base : Z) (s : string) : forall acc,
  0 <= base -> 0 <= acc -> 0 <= int_of_digits base acc s.
Proof.
  induction s as [|c s IH]; intros acc Hb Ha; simpl; [done|].
  apply IH; [done|].
  destruct (hex_value c) as [d|] eqn:E;
    [apply hex_value_range in E|]; nia.
Qed.

Lemma int_of_digits_hex (s : string) : forall acc,
  0 <= acc ->
  0 <= int_of_digits 16 acc s < (acc + 1) * 16 ^ Z.of_nat (String.length s).
Proof.
  induction s as [|c s IH]; intros acc Ha.
  - simpl. lia.
  - cbn [int_of_digits String.length].
    assert (Hd : 0 <= match hex_value c with Some d => d | None => 0 end < 16).
    { destruct (hex_value c) as [d|] eqn:E;
        [by apply hex_value_range in E|lia]. }
    set (d := match hex_value c with Some d => d | None => 0 end) in *.
    specialize (IH (acc * 16 + d) ltac:(nia)).
    rewrite Nat2Z.inj_succ, Z.pow_succ_r by lia.
    assert (0 < 16 ^ Z.of_nat (String.length s)) by (apply Z.pow_pos_nonneg; lia).
    nia.
Qed.

Lemma parse_octet_range (s : string) (v : Z) :
  parse_octet s = Some v -> 0 <= v < 2 ^ 8.
Proof.
  unfold parse_octet.
  repeat match goal with
         | |- context [if ?b then _ else _] => destruct b eqn:?; try discriminate
         end.
  intros [= <-]. split; [apply int_of_digits_nonneg; lia|].
  match goal with H : (255 <? _) = false |- _ => apply Z.ltb_ge in H end.
  change (2 ^ 8) with 256. lia.
Qed.

Lemma parse_hextet_range (s : string) (v : Z) :
  parse_hextet s = Some v -> 0 <= v < 2 ^ 16.
Proof.
  unfold parse_hextet.
  destruct (negb _); [discriminate|].
  destruct (4 <? String.length s)%nat eqn:El; [discriminate|].
  destruct (String.eqb s ""); [discriminate|].
  intros [= <-]. apply Nat.ltb_ge in El.
  pose proof (int_of_digits_hex s 0 ltac:(lia)) as [H1 H2].
  split; [done|].
  assert (16 ^ Z.of_nat (String.length s) <= 16 ^ 4)
    by (apply Z.pow_le_mono_r; lia).
  change (2 ^ 16) with (16 ^ 4). lia.
Qed.

Lemma join_parts_range (w : Z) (parse : string -> option Z) :
  0 <= w ->
  (forall s v, parse s = Some v -> 0 <= v < 2 ^ w) ->
  forall parts acc k r,
    0 <= k -> 0 <= acc < 2 ^ k ->
    join_parts w parse acc parts = Some r ->
    0 <= r < 2 ^ (k + w * Z.of_nat (length parts)).
Proof.
  intros Hw Hp. induction parts as [|s parts IH]; intros acc k r Hk Ha;
    cbn [join_parts].
  - intros [= <-]. cbn [length]. by rewrite Z.mul_0_r, Z.add_0_r.
  - destruct (parse s) as [v|] eqn:E; [|discriminate].
    apply Hp in E. intros H.
    rewrite Z_lor_shiftl_add in H by done.
    apply (IH _ (k + w)) in H; [|lia|].
    + replace (k + w * Z.of_nat (length (s :: parts)))
        with (k + w + w * Z.of_nat (length parts))
        by (cbn [length]; lia). done.
    + rewrite Z.pow_add_r by lia.
      assert (0 < 2 ^ w) by (apply Z.pow_pos_nonneg; lia). nia.
Qed.

Lemma v4_int_range (s : string) (r : Z) :
  v4_int_from_string s = Some r -> 0 <= r < 2 ^ 32.
Proof.
  unfold v4_int_from_string.
  destruct (String.eqb s ""); [discriminate|]. cbv zeta.
  destruct (length (split "." s) =? 4)%nat eqn:El; [|discriminate].
  apply Nat.eqb_eq in El. simpl negb. cbv iota. intros H.
  apply (join_parts_range 8 parse_octet ltac:(lia) parse_octet_range _ 0 0)
    in H; [|lia|lia].
  by rewrite El in H.
Qed.

Lemma v6_parts_range (parts : list string) (r : Z) :
  (if (9 <? length parts)%nat then None
   else
     let n := length parts in
     match inner_empty parts with
     | _ :: _ :: _ => None
     | [skip_index] =>
         let parts_hi := skip_index in
         let parts_lo := (n - skip_index - 1)%nat in
         let lead := part_empty parts 0 in
         let trail := part_empty parts (n - 1) in
         let parts_hi := if lead then (parts_hi - 1)%nat else parts_hi in
         if lead && negb (parts_hi =? 0)%nat then None
         else
           let parts_lo := if trail then (parts_lo - 1)%nat else parts_lo in
           if trail && negb (parts_lo =? 0)%nat then None
           else if (8 <? parts_hi + parts_lo + 1)%nat then None
           else
             let parts_skipped := (8 - (parts_hi + parts_lo))%nat in
             match join_parts 16 parse_hextet 0 (firstn parts_hi parts) with
             | Some hi =>
                 join_parts 16 parse_hextet
                   (Z.shiftl hi (16 * Z.of_nat parts_skipped))
                   (skipn (n - parts_lo) parts)
             | None => None
             end
     | [] =>
         if negb (n =? 8)%nat then None
         else if part_empty parts 0 then None
         else if part_empty parts (n - 1) then None
         else join_parts 16 parse_hextet 0 parts
     end) = Some r ->
  0 <= r < 2 ^ 128.
Proof.
  destruct (9 <? length parts)%nat; [discriminate|]. cbv zeta.
  destruct (inner_empty parts) as [|skip [|? ?]]; [| |discriminate].
  - destruct (length parts =? 8)%nat eqn:El; [|discriminate].
    apply Nat.eqb_eq in El. simpl negb. cbv iota.
    destruct (part_empty parts 0); [discriminate|].
    destruct (part_empty parts (length parts - 1)); [discriminate|].
    intros H.
    apply (join_parts_range 16 parse_hextet ltac:(lia) parse_hextet_range _ 0 0)
      in H; [|lia|lia].
    by rewrite El in H.
  - set (hi := if part_empty parts 0 then (skip - 1)%nat else skip).
    set (lo := if part_empty parts (length parts - 1)
               then (length parts - skip - 1 - 1)%nat
               else (length parts - skip - 1)%nat).
    destruct (_ && _); [discriminate|].
    destruct (_ && _); [discriminate|].
    destruct (8 <? hi + lo + 1)%nat eqn:E8; [discriminate|].
    apply Nat.ltb_ge in E8.
    destruct (join_parts 16 parse_hextet 0 (firstn hi parts)) as [h|] eqn:Eh;
      [|discriminate].
    apply (join_parts_range 16 parse_hextet ltac:(lia) parse_hextet_range _ 0 0)
      in Eh; [|lia|lia].
    intros H.
    set (l1 := Z.of_nat (length (firstn hi parts))) in *.
    set (sk := Z.of_nat (8 - (hi + lo))) in *.
    assert (Hl1 : 0 <= l1 <= Z.of_nat hi).
    { unfold l1. pose proof (firstn_le_length hi parts). lia. }
    rewrite Z.shiftl_mul_pow2 in H by lia.
    apply (join_parts_range 16 parse_hextet ltac:(lia) parse_hextet_range
             _ _ (16 * l1 + 16 * sk)) in H; [|lia|].
    + assert (Hl2 : Z.of_nat (length (skipn (length parts - lo) parts))
                    <= Z.of_nat lo).
      { rewrite length_skipn. lia. }
      assert (Hpow : 2 ^ (16 * l1 + 16 * sk
                          + 16 * Z.of_nat (length (skipn (length parts - lo) parts)))
                     <= 2 ^ 128).
      { apply Z.pow_le_mono_r; [lia|]. unfold sk. lia. }
      lia.
    + rewrite Z.pow_add_r by lia.
      assert (0 < 2 ^ (16 * sk)) by (apply Z.pow_pos_nonneg; lia).
      rewrite Z.add_0_l in Eh. fold l1 in Eh. split.
      * apply Z.mul_nonneg_nonneg; lia.
      * apply Z.mul_lt_mono_pos_r; lia.
Qed.

Lemma v6_int_range (s : string) (r : Z) :
  v6_int_from_string s = Some r -> 0 <= r < 2 ^ 128.
Proof.
  unfold v6_int_from_string.
  destruct (String.eqb s ""); [discriminate|]. cbv zeta.
  destruct (length (split ":" s) <? 3)%nat; [discriminate|].
  match goal with
  | |- match ?x with _ => _ end = _ -> _ => destruct x as [parts|]
  end; [|discriminate].
  apply v6_parts_range.
Qed.

Lemma ip_address_range (c : cell) (a : address) :
  ip_address c = Some a ->
  0 <= to_int a < 2 ^ 128
  /\ match a with V4 ip => 0 <= ip < 2 ^ 32 | V6 _ => True end.
Proof.
  assert (H32 : 2 ^ 32 < 2 ^ 128) by (apply Z.pow_lt_mono_r; lia).
  destruct c as [s|z| |]; simpl; try discriminate.
  - unfold ip_address_of_string, ipv4_of_string, ipv6_of_string.
    destruct (has_char "/" s); [discriminate|].
    destruct (v4_int_from_string s) as [ip|] eqn:E4.
    + apply v4_int_range in E4. intros [= <-]. simpl. lia.
    + destruct (partition_scope s) as [addr [scope|]].
      * destruct (_ || _); [discriminate|].
        destruct (v6_int_from_string addr) as [ip|] eqn:E6; [|discriminate].
        apply v6_int_range in E6. intros [= <-]. simpl. lia.
      * destruct (v6_int_from_string addr) as [ip|] eqn:E6; [|discriminate].
        apply v6_int_range in E6. intros [= <-]. simpl. lia.
  - destruct ((0 <=? z) && (z <? 2 ^ 32)) eqn:E1.
    + apply andb_true_iff in E1 as [?%Z.leb_le ?%Z.ltb_lt].
      intros [= <-]. simpl. lia.
    + destruct ((0 <=? z) && (z <? 2 ^ 128)) eqn:E2; [|discriminate].
      apply andb_true_iff in E2 as [?%Z.leb_le ?%Z.ltb_lt].
      intros [= <-]. simpl. lia.
Qed.

End AddressRange.

Section FeatureRange.

Import Features.
Local Open Scope Z_scope.

Variable address_is_private : Ipaddress.address -> bool.

Lemma ip_to_int_bounds (c : cell) : 0 <= ip_to_int c < 2 ^ 128.
Proof.
  unfold ip_to_int. destruct (Ipaddress.ip_address c) as [a|] eqn:E.
  - by apply ip_address_range in E as [? _].
  - split; [lia|]. apply Z.pow_pos_nonneg; lia.
Qed.

(** Whatever the cell holds, [ip_to_int] returns a number in [0, 2^128); for
    a cell read as an IPv4 address the number is below 2^32; and the privacy
    flag is 0 or 1. *)
Theorem ip_to_int_range (c : cell) :
  0 <= ip_to_int c < 2 ^ 128
  /\ (forall ip, Ipaddress.ip_address c = Some (Ipaddress.V4 ip) ->
                 0 <= ip_to_int c < 2 ^ 32)
  /\ (is_private address_is_private c = 0
      \/ is_private address_is_private c = 1).
Proof.
  split; [apply ip_to_int_bounds|]. split.
  - intros ip H. unfold ip_to_int. rewrite H. simpl.
    by apply ip_address_range in H as [_ ?].
  - unfold is_private. destruct (Ipaddress.ip_address c) as [a|]; [|by left].
    destruct (address_is_private a); [by right|by left].
Qed.

End FeatureRange.

(** ** Feature extractor: one value per row *)

Section FeatureShape.

Import Features.
Local Open Scope Z_scope.

Variable address_is_private : Ipaddress.address -> bool.

Lemma rectangular_canonicalize (df : DataFrame) :
  rectangular df -> rectangular (Canon.canonicalize_columns df).
Proof.
  unfold rectangular. destruct (data_canonicalize df) as [Hd Hi].
  rewrite Hi. intros H.
  apply (List.Forall_map snd (fun v => length v = index_len df)).
  rewrite Hd. by apply List.Forall_map.
Qed.



End FeatureShape.


(** ** Enrichment loop *)

Example enrichment_sample :
  let '(infos, p) :=
    Orchestrator.enrich_rows Enrich.refusing Enrich.some_env
      Orchestrator.sample_alerts Enrich.fresh_process in
  map Orchestrator.info_vt infos
  = [ [("source_ip", 0%nat); ("destination_ip", 2%nat)];
      [("source_ip", 0%nat)];
      [("destination_ip", 2%nat)] ]
  /\ map Orchestrator.info_abuse infos
     = [ [("source_ip", 1%nat); ("destination_ip", 3%nat)];
         [("source_ip", 1%nat)];
         [("destination_ip", 3%nat)] ]
  /\ length (Enrich.sent p) = 4%nat
  /\ Orchestrator.looked_up Orchestrator.sample_alerts = ["10.0.0.5"; "8.8.8.8"].
Proof. vm_compute. repeat split. Qed.

(** ** Enrichment loop: what it records, what it sends *)

Section OrchestratorFacts.

Import Enrich Orchestrator.

Variable net : nat -> request -> reply.
Variable env : string -> option string.

Lemma lookup_ip_nonempty (r : row) (f ip : string) :
  lookup_ip r f = Some ip -> ip <> "".
Proof.
  unfold lookup_ip. destruct (row_get r f CNull) as [s| | |]; try done.
  destruct (0 <? String.length s)%nat eqn:E; [|done].
  intros [= <-] ->. done.
Qed.

Lemma uncached_insert_le (cache : gmap string nat) (ip : string) (ref : nat)
    (ips : list string) :
  (uncached (<[ip := ref]> cache) ips <= uncached cache ips)%nat.
Proof.
  unfold uncached. induction ips as [|x ips IH]; simpl; [lia|].
  destruct (decide (x = ip)) as [->|Hne].
  - rewrite lookup_insert_eq. rewrite bool_decide_eq_false_2 by done.
    destruct (bool_decide _); simpl; lia.
  - rewrite lookup_insert_ne by done.
    destruct (bool_decide _); simpl; lia.
Qed.

Lemma uncached_insert_lt (cache : gmap string nat) (ip : string) (ref : nat)
    (ips : list string) :
  cache !! ip = None -> In ip ips ->
  (uncached (<[ip := ref]> cache) ips + 1 <= uncached cache ips)%nat.
Proof.
  intros Hnone. unfold uncached.
  induction ips as [|x ips IH]; simpl; [done|].
  intros [->|Hin].
  - rewrite lookup_insert_eq. rewrite bool_decide_eq_false_2 by done.
    rewrite bool_decide_eq_true_2 by done. simpl.
    pose proof (uncached_insert_le cache ip ref ips) as H.
    unfold uncached in H. lia.
  - specialize (IH Hin).
    destruct (decide (x = ip)) as [->|Hne].
    + rewrite lookup_insert_eq. rewrite bool_decide_eq_false_2 by done.
      destruct (bool_decide _); simpl; lia.
    + rewrite lookup_insert_ne by done.
      destruct (bool_decide _); simpl; lia.
Qed.

(** One VirusTotal lookup of a non-empty address. *)
Lemma vt_lookup_facts (ip : string) (p : process) :
  ip <> "" ->
  let res := fst (enrich_ip_with_virustotal net env ip p) in
  let p' := snd (enrich_ip_with_virustotal net env ip p) in
  vt_cache p' !! ip = Some res
  /\ (forall ips, In ip ips -> within_budget ips p p')
  /\ (no_key (env "VT_API_KEY") = true -> sent p' = sent p)
  /\ (cached p ip -> p' = p).
Proof.
  intros Hne. cbv zeta.
  destruct (vt_cache p !! ip) as [res|] eqn:Ec.
  - rewrite (vt_hit net env ip p res Hne Ec). simpl.
    split; [done|]. split; [|done].
    intros ips _. split; [apply extends_refl|].
    exists []. rewrite app_nil_r. split; [done|]. simpl. lia.
  - pose proof (vt_extends net env ip p) as Hext.
    rewrite (vt_miss net env ip p Hne Ec) in Hext |- *. cbv zeta in *.
    destruct (no_key (env "VT_API_KEY")); simpl in *.
    + split; [apply lookup_insert_eq|]. split; [|split; [done|]].
      * intros ips Hin. split; [done|]. exists []. rewrite app_nil_r.
        split; [done|]. simpl.
        pose proof (uncached_insert_lt (vt_cache p) ip (length (objects p))
                      ips Ec Hin). lia.
      * intros [[? H] _]. congruence.
    + split; [apply lookup_insert_eq|]. split; [|split; [done|]].
      * intros ips Hin. split; [done|]. eexists. split; [done|]. simpl.
        pose proof (uncached_insert_lt (vt_cache p) ip (length (objects p))
                      ips Ec Hin). lia.
      * intros [[? H] _]. congruence.
Qed.

(** One AbuseIPDB lookup of a non-empty address. *)
Lemma abuse_lookup_facts (ip : string) (p : process) :
  ip <> "" ->
  let res := fst (enrich_ip_with_abuseipdb net env ip p) in
  let p' := snd (enrich_ip_with_abuseipdb net env ip p) in
  abuse_cache p' !! ip = Some res
  /\ (forall ips, In ip ips -> within_budget ips p p')
  /\ (no_key (env "ABUSEIPDB_API_KEY") = true -> sent p' = sent p)
  /\ (cached p ip -> p' = p).
Proof.
  intros Hne. cbv zeta.
  destruct (abuse_cache p !! ip) as [res|] eqn:Ec.
  - rewrite (abuse_hit net env ip p res Hne Ec). simpl.
    split; [done|]. split; [|done].
    intros ips _. split; [apply extends_refl|].
    exists []. rewrite app_nil_r. split; [done|]. simpl. lia.
  - pose proof (abuse_extends net env ip p) as Hext.
    rewrite (abuse_miss net env ip p Hne Ec) in Hext |- *. cbv zeta in *.
    destruct (no_key (env "ABUSEIPDB_API_KEY")); simpl in *.
    + split; [apply lookup_insert_eq|]. split; [|split; [done|]].
      * intros ips Hin. split; [done|]. exists []. rewrite app_nil_r.
        split; [done|]. simpl.
        pose proof (uncached_insert_lt (abuse_cache p) ip (length (objects p))
                      ips Ec Hin). lia.
      * intros [_ [? H]]. congruence.
    + split; [apply lookup_insert_eq|]. split; [|split; [done|]].
      * intros ips Hin. split; [done|]. eexists. split; [done|]. simpl.
        pose proof (uncached_insert_lt (abuse_cache p) ip (length (objects p))
                      ips Ec Hin). lia.
      * intros [_ [? H]]. congruence.
Qed.

Lemma within_budget_refl (ips : list string) (p : process) :
  within_budget ips p p.
Proof.
  split; [apply extends_refl|]. exists []. rewrite app_nil_r.
  split; [done|]. simpl. lia.
Qed.

Lemma within_budget_trans (ips : list string) (p q r : process) :
  within_budget ips p q -> within_budget ips q r -> within_budget ips p r.
Proof.
  intros [E1 (n1 & S1 & B1)] [E2 (n2 & S2 & B2)].
  split; [by apply (extends_trans p q r)|].
  exists (n1 ++ n2). split; [by rewrite S2, S1, app_assoc|].
  rewrite length_app. lia.
Qed.

Lemma enrich_field_none (r : row) (st : row_info * process) (f : string) :
  lookup_ip r f = None -> enrich_field net env r st f = st.
Proof. intros H. unfold enrich_field. by rewrite H. Qed.

Lemma enrich_field_some (r : row) (st : row_info * process) (f ip : string) :
  lookup_ip r f = Some ip ->
  let vt := fst (enrich_ip_with_virustotal net env ip (snd st)) in
  let p1 := snd (enrich_ip_with_virustotal net env ip (snd st)) in
  let ab := fst (enrich_ip_with_abuseipdb net env ip p1) in
  let p2 := snd (enrich_ip_with_abuseipdb net env ip p1) in
  enrich_field net env r st f
  = (mkRowInfo (info_source_ip (fst st)) (info_destination_ip (fst st))
               (dict_set (info_vt (fst st)) f vt)
               (dict_set (info_abuse (fst st)) f ab), p2).
Proof.
  intros H. unfold enrich_field. rewrite H. cbv zeta.
  destruct (enrich_ip_with_virustotal net env ip (snd st)) as [vt p1]. simpl.
  by destruct (enrich_ip_with_abuseipdb net env ip p1) as [ab p2].
Qed.

Lemma enrich_rows_acc (rows : list row) : forall (acc : list row_info) p,
  fold_left (fun st r =>
               let '(info, p) := enrich_row net env r (snd st) in
               (fst st ++ [info], p)) rows (acc, p)
  = (acc ++ fst (enrich_rows net env rows p),
     snd (enrich_rows net env rows p)).
Proof.
  unfold enrich_rows.
  induction rows as [|r rows IH]; intros acc p; simpl.
  - by rewrite app_nil_r.
  - destruct (enrich_row net env r p) as [info p1]. simpl.
    rewrite (IH (acc ++ [info])), (IH [info]). simpl.
    by rewrite <- app_assoc.
Qed.

Lemma enrich_rows_cons (r : row) (rows : list row) (p : process) :
  enrich_rows net env (r :: rows) p
  = (fst (enrich_row net env r p)
       :: fst (enrich_rows net env rows (snd (enrich_row net env r p))),
     snd (enrich_rows net env rows (snd (enrich_row net env r p)))).
Proof.
  unfold enrich_rows at 1. simpl.
  destruct (enrich_row net env r p) as [info p1]. simpl.
  by rewrite enrich_rows_acc.
Qed.

Lemma row_ips_In (r : row) (ip : string) :
  In ip (row_ips r)
  <-> lookup_ip r "source_ip" = Some ip \/ lookup_ip r "destination_ip" = Some ip.
Proof.
  unfold row_ips. simpl.
  destruct (lookup_ip r "source_ip") as [a|],
           (lookup_ip r "destination_ip") as [b|]; simpl;
    split; intros H; repeat destruct H as [H|H]; try done;
    try (injection H as ->); try subst; auto.
Qed.

(** A property of the process that every single lookup keeps is kept by the
    loop. *)
Lemma enrich_rows_invariant (P : process -> process -> Prop)
    (ok : string -> Prop) :
  (forall p, P p p) ->
  (forall p q r, P p q -> P q r -> P p r) ->
  (forall ip p, ip <> "" -> ok ip ->
                P p (snd (enrich_ip_with_virustotal net env ip p))) ->
  (forall ip p, ip <> "" -> ok ip ->
                P p (snd (enrich_ip_with_abuseipdb net env ip p))) ->
  forall rows p,
    (forall ip, In ip (flat_map row_ips rows) -> ok ip) ->
    P p (snd (enrich_rows net env rows p)).
Proof.
  intros Hrefl Htrans Hvt Hab.
  assert (Hfield : forall r st f,
            (forall ip, lookup_ip r f = Some ip -> ok ip) ->
            P (snd st) (snd (enrich_field net env r st f))).
  { intros r st f Hok. destruct (lookup_ip r f) as [ip|] eqn:E.
    - rewrite (enrich_field_some r st f ip E). simpl.
      pose proof (lookup_ip_nonempty r f ip E) as Hne.
      eapply Htrans; [apply (Hvt ip); auto|apply (Hab ip); auto].
    - rewrite (enrich_field_none r st f E). apply Hrefl. }
  assert (Hrow : forall r p, (forall ip, In ip (row_ips r) -> ok ip) ->
                             P p (snd (enrich_row net env r p))).
  { intros r p Hok. unfold enrich_row. simpl.
    eapply Htrans; [|apply Hfield].
    - apply (Hfield r (_, p)). intros ip E. apply Hok, row_ips_In. by left.
    - intros ip E. apply Hok, row_ips_In. by right. }
  induction rows as [|r rows IH]; intros p Hok.
  - apply Hrefl.
  - rewrite enrich_rows_cons. simpl. eapply Htrans.
    + apply Hrow. intros ip Hip. apply Hok. simpl. apply in_app_iff. by left.
    + apply IH. intros ip Hip. apply Hok. simpl. apply in_app_iff. by right.
Qed.

Lemma uncached_le_length (cache : gmap string nat) (ips : list string) :
  (uncached cache ips <= length ips)%nat.
Proof. unfold uncached. apply List.filter_length_le. Qed.

Lemma looked_up_In (rows : list row) (ip : string) :
  In ip (flat_map row_ips rows) -> In ip (looked_up rows).
Proof.
  intros H. unfold looked_up. apply list_elem_of_In, elem_of_remove_dups.
  by apply list_elem_of_In.
Qed.

(** The request budget of the loop.  Over a whole run the requests are only
    appended to the log, and there are at most as many new ones as there are
    distinct addresses the VirusTotal cache did not hold plus distinct
    addresses the AbuseIPDB cache did not hold: at most one request per
    provider and distinct address, however many rows carry it. *)
Theorem enrichment_request_budget (rows : list row) (p : process) :
  let ips := looked_up rows in
  let p' := snd (enrich_rows net env rows p) in
  NoDup ips
  /\ exists new, sent p' = sent p ++ new
       /\ (length new <= uncached (vt_cache p) ips
                         + uncached (abuse_cache p) ips)%nat
       /\ (length new <= 2 * length ips)%nat.
Proof.
  cbv zeta. split; [apply NoDup_remove_dups|].
  assert (H : within_budget (looked_up rows) p
                (snd (enrich_rows net env rows p))).
  { apply (enrich_rows_invariant (within_budget (looked_up rows))
             (fun ip => In ip (looked_up rows))).
    - apply within_budget_refl.
    - apply within_budget_trans.
    - intros ip q Hne Hin. by apply (vt_lookup_facts ip q Hne).
    - intros ip q Hne Hin. by apply (abuse_lookup_facts ip q Hne).
    - apply looked_up_In. }
  destruct H as [_ (new & Hs & Hb)]. exists new. split; [done|].
  pose proof (uncached_le_length (vt_cache p) (looked_up rows)).
  pose proof (uncached_le_length (abuse_cache p) (looked_up rows)).
  lia.
Qed.

(** Without credentials the loop sends nothing, whatever the rows hold. *)
Theorem enrichment_without_credentials (rows : list row) (p : process) :
  no_key (env "VT_API_KEY") = true ->
  no_key (env "ABUSEIPDB_API_KEY") = true ->
  sent (snd (enrich_rows net env rows p)) = sent p.
Proof.
  intros Hv Ha.
  apply (enrich_rows_invariant (fun p p' => sent p' = sent p) (fun _ => True)).
  - done.
  - intros a b c H1 H2. by rewrite H2.
  - intros ip q Hne _. by apply (vt_lookup_facts ip q Hne).
  - intros ip q Hne _. by apply (abuse_lookup_facts ip q Hne).
  - done.
Qed.

End OrchestratorFacts.

Lemma enrichment_without_credentials_witness :
  Enrich.no_key (Enrich.no_env "VT_API_KEY") = true
  /\ Enrich.no_key (Enrich.no_env "ABUSEIPDB_API_KEY") = true
  /\ Enrich.sent (snd (Orchestrator.enrich_rows Enrich.refusing Enrich.no_env
                         Orchestrator.sample_alerts Enrich.fresh_process))
     = Enrich.sent Enrich.fresh_process.
Proof.
  split; [reflexivity|]. split; [reflexivity|].
  exact (enrichment_without_credentials Enrich.refusing Enrich.no_env
           Orchestrator.sample_alerts Enrich.fresh_process eq_refl eq_refl).
Defined.

Section OrchestratorRecords.

Import Enrich Orchestrator.

Variable net : nat -> request -> reply.
Variable env : string -> option string.

Lemma lookup_pair_facts (ip : string) (p : process) :
  ip <> "" ->
  let vt := fst (enrich_ip_with_virustotal net env ip p) in
  let p1 := snd (enrich_ip_with_virustotal net env ip p) in
  let ab := fst (enrich_ip_with_abuseipdb net env ip p1) in
  let p2 := snd (enrich_ip_with_abuseipdb net env ip p1) in
  vt_cache p2 !! ip = Some vt /\ abuse_cache p2 !! ip = Some ab
  /\ extends p p2
  /\ (cached p ip ->
      p2 = p /\ vt_cache p !! ip = Some vt /\ abuse_cache p !! ip = Some ab).
Proof.
  intros Hne. cbv zeta.
  destruct (vt_lookup_facts net env ip p Hne) as (Hv & _ & _ & Hcv).
  set (p1 := snd (enrich_ip_with_virustotal net env ip p)) in *.
  destruct (abuse_lookup_facts net env ip p1 Hne) as (Ha & _ & _ & Hca).
  pose proof (vt_extends net env ip p) as E1. fold p1 in E1.
  pose proof (abuse_extends net env ip p1) as E2.
  split; [by apply (ext_vt _ _ E2)|]. split; [done|].
  split; [by apply (extends_trans p p1)|].
  intros Hc. specialize (Hcv Hc). rewrite Hcv in Hca, Ha, Hv.
  specialize (Hca Hc). rewrite Hca in Ha. rewrite Hcv, Hca. done.
Qed.

Lemma cached_refs_agree (cache cache' : gmap string nat) (r : row) :
  (forall ip, In ip (row_ips r) -> cache' !! ip = cache !! ip) ->
  cached_refs cache' r = cached_refs cache r.
Proof.
  intros H. unfold cached_refs. simpl.
  destruct (lookup_ip r "source_ip") as [a|] eqn:Ea;
    destruct (lookup_ip r "destination_ip") as [b|] eqn:Eb;
    rewrite ?(H a) by (apply row_ips_In; auto);
    rewrite ?(H b) by (apply row_ips_In; auto); done.
Qed.

Lemma cached_info_extends (r : row) (p q : process) :
  (forall ip, In ip (row_ips r) -> cached p ip) -> extends p q ->
  cached_info q r = cached_info p r
  /\ (forall ip, In ip (row_ips r) -> cached q ip).
Proof.
  intros Hc E.
  assert (Hv : forall ip, In ip (row_ips r) -> vt_cache q !! ip = vt_cache p !! ip).
  { intros ip Hip. destruct (Hc ip Hip) as [[v Hv0] _].
    by rewrite Hv0, (ext_vt _ _ E ip v Hv0). }
  assert (Ha : forall ip, In ip (row_ips r) ->
                          abuse_cache q !! ip = abuse_cache p !! ip).
  { intros ip Hip. destruct (Hc ip Hip) as [_ [v Ha0]].
    by rewrite Ha0, (ext_abuse _ _ E ip v Ha0). }
  split.
  - unfold cached_info.
    by rewrite (cached_refs_agree (vt_cache p) (vt_cache q) r Hv),
               (cached_refs_agree (abuse_cache p) (abuse_cache q) r Ha).
  - intros ip Hip. unfold cached. rewrite (Hv ip Hip), (Ha ip Hip).
    by apply Hc.
Qed.

(** One row: what is recorded is what the caches hold afterwards; and when the
    caches held the row's addresses already, nothing changes. *)
Lemma enrich_row_records (r : row) (p : process) :
  let p' := snd (enrich_row net env r p) in
  fst (enrich_row net env r p) = cached_info p' r
  /\ (forall ip, In ip (row_ips r) -> cached p' ip)
  /\ extends p p'
  /\ ((forall ip, In ip (row_ips r) -> cached p ip) -> p' = p).
Proof.
  cbv zeta. unfold enrich_row. cbn [fold_left].
  set (st0 := (mkRowInfo (row_get r "source_ip" (CStr ""))
                         (row_get r "destination_ip" (CStr "")) [] [], p)).
  destruct (lookup_ip r "source_ip") as [a|] eqn:Ea.
  - pose proof (lookup_ip_nonempty r _ a Ea) as Hna.
    rewrite (enrich_field_some net env r st0 _ a Ea). cbv zeta.
    destruct (lookup_pair_facts a (snd st0) Hna) as (Hv1 & Ha1 & E1 & C1).
    set (p2 := snd (enrich_ip_with_abuseipdb net env a _)) in *.
    set (vt1 := fst (enrich_ip_with_virustotal net env a (snd st0))) in *.
    set (ab1 := fst (enrich_ip_with_abuseipdb net env a _)) in *.
    destruct (lookup_ip r "destination_ip") as [b|] eqn:Eb.
    + pose proof (lookup_ip_nonempty r _ b Eb) as Hnb.
      rewrite (enrich_field_some net env r _ _ b Eb). cbv zeta. cbn [fst snd].
      destruct (lookup_pair_facts b p2 Hnb) as (Hv2 & Ha2 & E2 & C2).
      set (p4 := snd (enrich_ip_with_abuseipdb net env b _)) in *.
      set (vt2 := fst (enrich_ip_with_virustotal net env b p2)) in *.
      set (ab2 := fst (enrich_ip_with_abuseipdb net env b _)) in *.
      split; [|split; [|split]].
      * unfold cached_info, cached_refs. simpl.
        rewrite Ea, Eb.
        rewrite (ext_vt _ _ E2 a vt1 Hv1), (ext_abuse _ _ E2 a ab1 Ha1).
        rewrite Hv2, Ha2. reflexivity.
      * intros ip Hip. apply row_ips_In in Hip as [Hip|Hip];
          rewrite Hip in *; simplify_eq; split; eauto using ext_vt, ext_abuse.
      * by apply (extends_trans p p2).
      * intros Hc.
        destruct (C1 (Hc a ltac:(apply row_ips_In; auto))) as (-> & _).
        simpl in C2.
        by destruct (C2 (Hc b ltac:(apply row_ips_In; auto))) as (-> & _).
    + rewrite (enrich_field_none net env r _ _ Eb). cbn [fst snd].
      split; [|split; [|split]].
      * unfold cached_info, cached_refs. simpl.
        rewrite Ea, Eb, Hv1, Ha1. reflexivity.
      * intros ip Hip. apply row_ips_In in Hip as [Hip|Hip];
          rewrite Hip in *; simplify_eq; split; eauto.
      * done.
      * intros Hc.
        by destruct (C1 (Hc a ltac:(apply row_ips_In; auto))) as (-> & _).
  - rewrite (enrich_field_none net env r st0 _ Ea).
    destruct (lookup_ip r "destination_ip") as [b|] eqn:Eb.
    + pose proof (lookup_ip_nonempty r _ b Eb) as Hnb.
      rewrite (enrich_field_some net env r st0 _ b Eb). cbv zeta. cbn [fst snd].
      destruct (lookup_pair_facts b (snd st0) Hnb) as (Hv2 & Ha2 & E2 & C2).
      set (p2 := snd (enrich_ip_with_abuseipdb net env b _)) in *.
      set (vt2 := fst (enrich_ip_with_virustotal net env b (snd st0))) in *.
      set (ab2 := fst (enrich_ip_with_abuseipdb net env b _)) in *.
      split; [|split; [|split]].
      * unfold cached_info, cached_refs. simpl.
        rewrite Ea, Eb, Hv2, Ha2. reflexivity.
      * intros ip Hip. apply row_ips_In in Hip as [Hip|Hip];
          rewrite Hip in *; simplify_eq; split; eauto.
      * done.
      * intros Hc.
        by destruct (C2 (Hc b ltac:(apply row_ips_In; auto))) as (-> & _).
    + rewrite (enrich_field_none net env r st0 _ Eb). cbn [fst snd].
      split; [|split; [|split]].
      * unfold cached_info, cached_refs. simpl. by rewrite Ea, Eb.
      * intros ip Hip. apply row_ips_In in Hip as [Hip|Hip]; congruence.
      * apply extends_refl.
      * done.
Qed.

Lemma enrich_rows_extends (rows : list row) (p : process) :
  extends p (snd (enrich_rows net env rows p)).
Proof.
  apply (enrich_rows_invariant net env extends (fun _ => True)).
  - apply extends_refl.
  - apply extends_trans.
  - intros ip q _ _. apply vt_extends.
  - intros ip q _ _. apply abuse_extends.
  - done.
Qed.

Lemma enrich_rows_records (rows : list row) : forall p,
  let p' := snd (enrich_rows net env rows p) in
  fst (enrich_rows net env rows p) = map (cached_info p') rows
  /\ (forall ip, In ip (flat_map row_ips rows) -> cached p' ip)
  /\ ((forall ip, In ip (flat_map row_ips rows) -> cached p ip) -> p' = p).
Proof.
  induction rows as [|r rows IH]; intros p; cbv zeta.
  - split; [done|]. split; [by intros ip []|done].
  - rewrite enrich_rows_cons. cbn [fst snd map flat_map].
    destruct (enrich_row_records r p) as (Hi & Hc & _ & Hsame).
    set (p1 := snd (enrich_row net env r p)) in *.
    destruct (IH p1) as (IHi & IHc & IHsame).
    pose proof (enrich_rows_extends rows p1) as E.
    destruct (cached_info_extends r p1 _ Hc E) as [Hinfo Hc'].
    split; [|split].
    + by rewrite Hi, IHi, Hinfo.
    + intros ip Hip. apply in_app_iff in Hip as [Hip|Hip]; auto.
    + intros Hall.
      assert (Hp1 : p1 = p)
        by (apply Hsame; intros ip Hip; apply Hall, in_app_iff; by left).
      rewrite Hp1 in IHsame |- *. apply IHsame.
      intros ip Hip. apply Hall, in_app_iff. by right.
Qed.

(** What the loop returns.  There is one entry per row, in row order; each
    entry carries the row's two address cells and, under each field that
    holds a non-empty string, the references that the two caches hold for
    that address when the loop ends.  So rows that carry the same address
    share the same entry objects, and every address looked up is cached at
    both providers afterwards. *)
Theorem enrichment_records (rows : list row) (p : process) :
  let infos := fst (enrich_rows net env rows p) in
  let p' := snd (enrich_rows net env rows p) in
  infos = map (cached_info p') rows
  /\ length infos = length rows
  /\ (forall ip, In ip (flat_map row_ips rows) -> cached p' ip)
  /\ extends p p'.
Proof.
  cbv zeta. destruct (enrich_rows_records rows p) as (Hi & Hc & _).
  split; [done|]. split; [by rewrite Hi, length_map|].
  split; [done|apply enrich_rows_extends].
Qed.

End OrchestratorRecords.

Section OrchestratorReplay.

Import Enrich Orchestrator.

Variable net : nat -> request -> reply.
Variables env env' : string -> option string.

(** Enriching the same rows again, at once or after any other lookups and
    even under other credentials, returns the same entries (the same
    references) and leaves the process as it is: no request, no new object,
    no cache update. *)
Theorem enrichment_replay (rows : list row) (p : process) (cs : list call) :
  let infos := fst (enrich_rows net env rows p) in
  let p1 := snd (enrich_rows net env rows p) in
  let q := run_calls net cs p1 in
  enrich_rows net env' rows q = (infos, q).
Proof.
  cbv zeta.
  destruct (enrich_rows_records net env rows p) as (Hi & Hc & _).
  set (p1 := snd (enrich_rows net env rows p)) in *.
  pose proof (run_calls_extends net cs p1) as E.
  set (q := run_calls net cs p1) in *.
  assert (Hq : forall ip, In ip (flat_map row_ips rows) -> cached q ip).
  { intros ip Hip. destruct (Hc ip Hip) as [[v Hv] [a Ha]]. split.
    - exists v. by apply (ext_vt _ _ E).
    - exists a. by apply (ext_abuse _ _ E). }
  destruct (enrich_rows_records net env' rows q) as (Hi' & _ & Hsame).
  rewrite (surjective_pairing (enrich_rows net env' rows q)).
  rewrite Hi', (Hsame Hq), Hi. f_equal.
  apply map_ext_in. intros r Hr.
  apply (cached_info_extends r p1 q); [|done].
  intros ip Hip. apply Hc. apply in_flat_map. eauto.
Qed.

End OrchestratorReplay.

Section OrchestratorSize.

Import Enrich Orchestrator.

Variable net : nat -> request -> reply.
Variable env : string -> option string.

Lemma top_idx_length (max_enrich : nat) (risk_scores : list Q) :
  length (TopK.top_idx max_enrich risk_scores)
  = Nat.min max_enrich (length risk_scores).
Proof.
  unfold TopK.top_idx, TopK.nlargest.
  rewrite length_map, length_firstn.
  rewrite (Permutation_length (sort_desc_perm _)), risk_series_length. lia.
Qed.

Lemma top_idx_valid (max_enrich : nat) (risk_scores : list Q) :
  Forall (fun i => (i < length risk_scores)%nat)
         (TopK.top_idx max_enrich risk_scores).
Proof.
  apply List.Forall_forall. intros i Hi.
  unfold TopK.top_idx, TopK.nlargest in Hi.
  apply in_map_iff in Hi as ([i' x] & <- & Hx). simpl.
  assert (Hs : In (i', x) (TopK.sort_desc (TopK.risk_series risk_scores))).
  { rewrite <- (firstn_skipn (Nat.min max_enrich (length risk_scores))).
    apply in_or_app. by left. }
  clear Hx. rename Hs into Hx. apply list_elem_of_In in Hx.
  rewrite (sort_desc_perm _) in Hx.
  by apply risk_series_elem, lookup_lt_Some in Hx.
Qed.

Lemma to_enrich_length {A} (enable_enrich : bool) (max_enrich : nat)
    (rows : list A) (risk_scores : list Q) :
  length risk_scores = length rows ->
  length (TopK.to_enrich enable_enrich max_enrich rows risk_scores)
  = if enable_enrich then Nat.min max_enrich (length rows) else 0%nat.
Proof.
  intros Hlen. unfold TopK.to_enrich.
  destruct enable_enrich; [|done]. simpl.
  destruct (0 <? max_enrich)%nat eqn:Ek; simpl;
    [|apply Nat.ltb_ge in Ek; lia].
  destruct (0 <? length rows)%nat eqn:En; simpl;
    [|apply Nat.ltb_ge in En; lia].
  pose proof (top_idx_valid max_enrich risk_scores) as Hv.
  rewrite Hlen in Hv.
  rewrite <- (Forall2_length _ _ _ (loc_rows_defined rows _ Hv)).
  by rewrite top_idx_length, Hlen.
Qed.

(** The size of the enrichment list: with enrichment enabled there is one
    entry for each of the min(max_enrich, number of rows) selected rows; with
    enrichment disabled, a zero budget or an empty table there is none and
    the process is left untouched. *)
Theorem enrichment_size (enable_enrich : bool) (max_enrich : nat)
    (rows : list row) (risk_scores : list Q) (p : process) :
  length risk_scores = length rows ->
  length (fst (enrichment net env enable_enrich max_enrich rows risk_scores p))
  = (if enable_enrich then Nat.min max_enrich (length rows) else 0%nat)
  /\ (enable_enrich = false \/ max_enrich = 0%nat \/ rows = [] ->
      enrichment net env enable_enrich max_enrich rows risk_scores p = ([], p)).
Proof.
  intros Hlen. unfold enrichment. split.
  - destruct (enrich_rows_records net env
                (TopK.to_enrich enable_enrich max_enrich rows risk_scores) p)
      as (Hi & _).
    rewrite Hi, length_map. by apply to_enrich_length.
  - intros H.
    assert (E : TopK.to_enrich enable_enrich max_enrich rows risk_scores = []).
    { unfold TopK.to_enrich. destruct H as [H|[H|H]]; subst.
      - done.
      - by rewrite andb_false_r.
      - by rewrite andb_false_r. }
    by rewrite E.
Qed.

End OrchestratorSize.

Lemma enrichment_size_witness :
  length [9 # 10; 1 # 2; 7 # 10]%Q = length Orchestrator.sample_alerts
  /\ length (fst (Orchestrator.enrichment Enrich.refusing Enrich.some_env true 2
                    Orchestrator.sample_alerts [9 # 10; 1 # 2; 7 # 10]%Q
                    Enrich.fresh_process))
     = (if true then Nat.min 2 (length Orchestrator.sample_alerts) else 0%nat)
  /\ (true = false \/ 2%nat = 0%nat \/ Orchestrator.sample_alerts = [] ->
      Orchestrator.enrichment Enrich.refusing Enrich.some_env true 2
        Orchestrator.sample_alerts [9 # 10; 1 # 2; 7 # 10]%Q
        Enrich.fresh_process
      = ([], Enrich.fresh_process)).
Proof.
  split; [reflexivity|].
  exact (enrichment_size Enrich.refusing Enrich.some_env true 2
           Orchestrator.sample_alerts [9 # 10; 1 # 2; 7 # 10]%Q
           Enrich.fresh_process eq_refl).
Defined.

Example enrichment_top_two :
  map Orchestrator.info_destination_ip
      (fst (Orchestrator.enrichment Enrich.refusing Enrich.some_env true 2
              Orchestrator.sample_alerts [9 # 10; 1 # 2; 7 # 10]%Q
              Enrich.fresh_process))
  = [CStr "8.8.8.8"; CStr "8.8.8.8"].
Proof. vm_compute. reflexivity. Qed.

(** ** Report helpers *)

Section ReportFacts.

Import Report.

Lemma substring_0_length (s : string) : forall k,
  (k <= String.length s)%nat -> String.length (substring 0 k s) = k.
Proof.
  induction s as [|c s IH]; intros [|k] H; simpl in *; try lia.
  rewrite IH; lia.
Qed.

Lemma substring_0_all (s : string) : forall k,
  (String.length s <= k)%nat -> substring 0 k s = s.
Proof.
  induction s as [|c s IH]; intros [|k] H; simpl in *; try done; try lia.
  rewrite IH; [done|lia].
Qed.

Lemma substring_0_app (a b : string) : forall k,
  (k <= String.length a)%nat ->
  substring 0 k (a ++ b)%string = substring 0 k a.
Proof.
  induction a as [|c a IH]; intros [|k] H; simpl in *; try done; try lia.
  - by destruct b.
  - rewrite IH; [done|lia].
Qed.

Lemma substring_0_substring (s : string) : forall j k,
  (k <= j)%nat -> substring 0 k (substring 0 j s) = substring 0 k s.
Proof.
  induction s as [|c s IH]; intros [|j] [|k] H; simpl in *; try done; try lia.
  rewrite IH; [done|lia].
Qed.

Lemma length_append (a b : string) :
  String.length (a ++ b)%string = (String.length a + String.length b)%nat.
Proof. induction a as [|c a IH]; simpl; [done|]. by rewrite IH. Qed.

Lemma shorten_long (s : string) (max_len : Z) :
  (3 <= max_len)%Z -> (max_len < Z.of_nat (String.length s))%Z ->
  _shorten (Some s) max_len
  = (substring 0 (Z.to_nat (max_len - 3)) s ++ "...")%string
  /\ Z.of_nat (String.length (_shorten (Some s) max_len)) = max_len.
Proof.
  intros H3 Hlong. unfold _shorten. cbv zeta.
  rewrite (proj2 (Z.leb_gt _ _)) by lia.
  unfold slice_to. cbv zeta. rewrite (proj2 (Z.ltb_ge _ _)) by lia.
  rewrite Z.min_l by lia. split; [done|].
  rewrite length_append, substring_0_length by lia. simpl. lia.
Qed.

Lemma shorten_short (s : string) (max_len : Z) :
  (Z.of_nat (String.length s) <= max_len)%Z -> _shorten (Some s) max_len = s.
Proof.
  intros H. unfold _shorten. cbv zeta. by rewrite (proj2 (Z.leb_le _ _)).
Qed.

(** [_shorten] with a limit of at least 3: the result is never longer than
    the limit; a text within the limit is returned as it is; a longer one is
    cut to its first [max_len - 3] characters followed by three dots, which
    makes exactly [max_len] characters; and shortening to a limit and then to
    a smaller one is shortening to the smaller one (the fall-back sequence of
    [_write_wrapped], which shortens an already shortened text). *)
Theorem shorten_bounds (text : option string) (max_len : Z) :
  (3 <= max_len)%Z ->
  (Z.of_nat (String.length (_shorten text max_len)) <= max_len)%Z
  /\ (forall s, text = Some s ->
        (Z.of_nat (String.length s) <= max_len)%Z ->
        _shorten text max_len = s)
  /\ (forall s, text = Some s ->
        (max_len < Z.of_nat (String.length s))%Z ->
        _shorten text max_len
        = (substring 0 (Z.to_nat (max_len - 3)) s ++ "...")%string
        /\ Z.of_nat (String.length (_shorten text max_len)) = max_len)
  /\ (forall smaller, (3 <= smaller <= max_len)%Z ->
        _shorten (Some (_shorten text max_len)) smaller
        = _shorten text smaller).
Proof.
  intros H3. split; [|split; [|split]].
  - destruct text as [s|]; [|simpl; lia].
    destruct (Z.le_gt_cases (Z.of_nat (String.length s)) max_len) as [H|H].
    + by rewrite shorten_short.
    + destruct (shorten_long s max_len H3) as [_ ->]; lia.
  - intros s -> H. by apply shorten_short.
  - intros s -> H. by apply shorten_long.
  - intros m [Hm3 Hm].
    destruct text as [s|];
      [|change (_shorten None max_len) with "";
        rewrite shorten_short; [done|simpl; lia]].
    destruct (Z.le_gt_cases (Z.of_nat (String.length s)) max_len) as [H|H].
    + by rewrite (shorten_short s max_len H).
    + destruct (shorten_long s max_len H3 H) as [E1 L1].
      destruct (Z.eq_dec m max_len) as [->|Hne].
      * by rewrite shorten_short by lia.
      * destruct (shorten_long (_shorten (Some s) max_len) m Hm3) as [E2 _];
          [lia|].
        destruct (shorten_long s m Hm3) as [E3 _]; [lia|].
        rewrite E2, E3. f_equal. rewrite E1.
        rewrite substring_0_app
          by (rewrite substring_0_length by lia; lia).
        apply substring_0_substring. lia.
Qed.

Lemma count_eq_cons (c : cell) (cls : list cell) (s : string) :
  count_eq (c :: cls) s
  = ((if match c with CStr x => String.eqb x s | _ => false end
      then 1 else 0) + count_eq cls s)%nat.
Proof.
  unfold count_eq. simpl.
  by destruct (match c with CStr x => String.eqb x s | _ => false end).
Qed.

Lemma count_eq_sum (cls : list cell) :
  (count_eq cls "malicious" + count_eq cls "suspicious" + count_eq cls "benign"
   <= length cls)%nat
  /\ ((count_eq cls "malicious" + count_eq cls "suspicious"
       + count_eq cls "benign" = length cls)%nat
      <-> List.Forall (fun c => c = CStr "malicious" \/ c = CStr "suspicious"
                                \/ c = CStr "benign") cls).
Proof.
  induction cls as [|c cls [IH1 IH2]].
  - split; [done|]. split; [constructor|done].
  - rewrite !count_eq_cons. cbn [length].
    assert (Hc : (exists k : nat,
                    ((if match c with CStr x => String.eqb x "malicious" | _ => false end
                      then 1 else 0)
                     + (if match c with CStr x => String.eqb x "suspicious" | _ => false end
                        then 1 else 0)
                     + (if match c with CStr x => String.eqb x "benign" | _ => false end
                        then 1 else 0) = k)%nat
                    /\ (k <= 1)%nat
                    /\ (k = 1%nat <-> (c = CStr "malicious" \/ c = CStr "suspicious"
                                       \/ c = CStr "benign")))).
    { destruct c as [x| | |]; try (exists 0%nat; repeat split; try lia;
        intros [?|[?|?]]; done).
      destruct (String.eqb x "malicious") eqn:E1.
      { apply String.eqb_eq in E1. subst. exists 1%nat. simpl.
        repeat split; auto. }
      destruct (String.eqb x "suspicious") eqn:E2.
      { apply String.eqb_eq in E2. subst. exists 1%nat. simpl.
        repeat split; auto. }
      destruct (String.eqb x "benign") eqn:E3.
      { apply String.eqb_eq in E3. subst. exists 1%nat. simpl.
        repeat split; auto. }
      apply String.eqb_neq in E1, E2, E3. exists 0%nat.
      repeat split; try lia. intros [?|[?|?]]; congruence. }
    destruct Hc as (k & Hk & Hk1 & Hiff). split; [lia|].
    rewrite List.Forall_cons_iff, <- IH2, <- Hiff. lia.
Qed.

(** The summary paragraph of the report.  With one classification column in
    a rectangular table, the numbers of malicious, suspicious and benign
    alerts add up to at most the number of alerts, and to exactly that number
    when, and only when, every label is one of the three; without a
    classification column the three numbers are 0. *)
Theorem summary_counts_add_up (alerts_df : DataFrame) :
  rectangular alerts_df ->
  let cdf := Canon.canonicalize_columns alerts_df in
  (forall cls, getitem cdf "classification" = Series cls ->
     exists n_mal n_sus n_ben,
       summary_counts alerts_df = Counts (index_len alerts_df) n_mal n_sus n_ben
       /\ (n_mal + n_sus + n_ben <= index_len alerts_df)%nat
       /\ ((n_mal + n_sus + n_ben = index_len alerts_df)%nat
           <-> List.Forall (fun c => c = CStr "malicious" \/ c = CStr "suspicious"
                                     \/ c = CStr "benign") cls))
  /\ (getitem cdf "classification" = KeyError ->
      summary_counts alerts_df = Counts (index_len alerts_df) 0 0 0).
Proof.
  intros Hrect cdf.
  destruct (data_canonicalize alerts_df) as [_ Hi].
  pose proof (rectangular_canonicalize alerts_df Hrect) as Hc.
  unfold summary_counts. cbv zeta. fold cdf. unfold df_len. fold cdf in Hi, Hc.
  rewrite Hi. split.
  - intros cls Hcls. rewrite Hcls.
    assert (Hlen : length cls = index_len alerts_df).
    { unfold getitem in Hcls.
      destruct (select "classification" cdf) as [|c [|c' cs]] eqn:E;
        try discriminate.
      injection Hcls as <-. rewrite <- Hi.
      unfold rectangular in Hc. rewrite List.Forall_forall in Hc. apply Hc.
      assert (Hin : In c (select "classification" cdf)) by (rewrite E; by left).
      unfold select in Hin. by apply filter_In in Hin as [? _]. }
    eexists _, _, _. split; [reflexivity|].
    rewrite <- Hlen. apply count_eq_sum.
  - by intros ->.
Qed.

End ReportFacts.

Lemma shorten_bounds_witness :
  (3 <= 8)%Z
  /\ (Z.of_nat (String.length (Report._shorten (Some "source_ip: 10.0.0.5") 8))
      <= 8)%Z
  /\ (forall s, Some "source_ip: 10.0.0.5" = Some s ->
        (Z.of_nat (String.length s) <= 8)%Z ->
        Report._shorten (Some "source_ip: 10.0.0.5") 8 = s)
  /\ (forall s, Some "source_ip: 10.0.0.5" = Some s ->
        (8 < Z.of_nat (String.length s))%Z ->
        Report._shorten (Some "source_ip: 10.0.0.5") 8
        = (substring 0 (Z.to_nat (8 - 3)) s ++ "...")%string
        /\ Z.of_nat (String.length
                       (Report._shorten (Some "source_ip: 10.0.0.5") 8)) = 8%Z)
  /\ (forall smaller, (3 <= smaller <= 8)%Z ->
        Report._shorten (Some (Report._shorten (Some "source_ip: 10.0.0.5") 8))
                        smaller
        = Report._shorten (Some "source_ip: 10.0.0.5") smaller).
Proof.
  assert (H : (3 <= 8)%Z) by lia.
  split; [exact H|].
  exact (shorten_bounds (Some "source_ip: 10.0.0.5") 8 H).
Defined.

Lemma summary_counts_add_up_witness :
  rectangular (mkDF 2 [("Classification", [CStr "malicious"; CStr "benign"])])
  /\ let cdf := Canon.canonicalize_columns
                  (mkDF 2 [("Classification", [CStr "malicious"; CStr "benign"])]) in
     (forall cls, getitem cdf "classification" = Series cls ->
        exists n_mal n_sus n_ben,
          Report.summary_counts
            (mkDF 2 [("Classification", [CStr "malicious"; CStr "benign"])])
          = Report.Counts
              (index_len (mkDF 2 [("Classification",
                                   [CStr "malicious"; CStr "benign"])]))
              n_mal n_sus n_ben
          /\ (n_mal + n_sus + n_ben
              <= index_len (mkDF 2 [("Classification",
                                     [CStr "malicious"; CStr "benign"])]))%nat
          /\ ((n_mal + n_sus + n_ben
               = index_len (mkDF 2 [("Classification",
                                     [CStr "malicious"; CStr "benign"])]))%nat
              <-> List.Forall (fun c => c = CStr "malicious"
                                        \/ c = CStr "suspicious"
                                        \/ c = CStr "benign") cls))
     /\ (getitem cdf "classification" = KeyError ->
         Report.summary_counts
           (mkDF 2 [("Classification", [CStr "malicious"; CStr "benign"])])
         = Report.Counts
             (index_len (mkDF 2 [("Classification",
                                  [CStr "malicious"; CStr "benign"])])) 0 0 0).
Proof.
  assert (H : rectangular
                (mkDF 2 [("Classification", [CStr "malicious"; CStr "benign"])]))
    by (repeat constructor).
  split; [exact H|].
  exact (summary_counts_add_up
           (mkDF 2 [("Classification", [CStr "malicious"; CStr "benign"])]) H).
Defined.

Example shorten_samples :
  Report._shorten (Some "source_ip: 10.0.0.5") 8 = "sourc..."
  /\ Report._shorten (Some "short") 8 = "short"
  /\ Report._shorten None 8 = ""
  /\ Report._shorten (Some "abcd") 2 = "abc..."
  /\ Report.summary_counts
       (mkDF 2 [("Classification", [CStr "malicious"; CStr "benign"])])
     = Report.Counts 2 1 0 1.
Proof. vm_compute. repeat split. Qed.

(** ** Explanations *)

Section PredictFacts.

Import Predict.

Variable weight : Type.

Lemma explain_prediction_unfold (model : SOCModel weight) (row : DataFrame) :
  explain_prediction weight model row
  = match clf_feature_importances_ weight model with
    | None => inl (PyValueError "Model does not provide feature_importances_")
    | Some importances =>
        pd_Series weight importances (feature_names weight model)
    end.
Proof.
  unfold explain_prediction, feature_importances_.
  rewrite align_features_columns.
  by destruct (clf_feature_importances_ weight model).
Qed.

(** The explanation is global: [explain_prediction] aligns the row it is
    given and then ignores it, so every row gets the same answer.  The
    alignment never raises; the function raises ValueError when the classifier
    has no importances, and otherwise returns the importances labelled by
    the model's feature names (there must be one per name). *)
Theorem explain_prediction_ignores_row (model : SOCModel weight)
    (row row' : DataFrame) :
  explain_prediction weight model row = explain_prediction weight model row'
  /\ explain_prediction weight model row <> inl PyKeyError
  /\ (clf_feature_importances_ weight model = None ->
      explain_prediction weight model row
      = inl (PyValueError "Model does not provide feature_importances_"))
  /\ (forall importances,
        clf_feature_importances_ weight model = Some importances ->
        length importances = length (feature_names weight model) ->
        explain_prediction weight model row
        = inr (combine (feature_names weight model) importances)).
Proof.
  rewrite !explain_prediction_unfold. split; [done|]. split; [|split].
  - destruct (clf_feature_importances_ weight model) as [imp|]; [|done].
    unfold pd_Series. by destruct (_ =? _)%nat.
  - by intros ->.
  - intros imp -> Hlen. unfold pd_Series.
    by rewrite (proj2 (Nat.eqb_eq _ _) Hlen).
Qed.

End PredictFacts.

Example explain_prediction_sample :
  Predict.explain_prediction Q
    (Predict.mkSOCModel Q ["hour"; "dst_ip_int"] (Some [3 # 4; 1 # 4]%Q))
    Align.sample_features
  = inr [("hour", 3 # 4); ("dst_ip_int", 1 # 4)]%Q.
Proof. vm_compute. reflexivity. Qed.

(** ** Providers: the entries behind the references *)

Section EntryValidity.

Import Enrich Orchestrator.

Variable net : nat -> request -> reply.

Lemma valid_ref_extends (p q : process) (ref : nat) :
  valid_ref p ref -> extends p q -> valid_ref q ref.
Proof.
  intros (entry & status & Ho & Hs & Hk) E.
  exists entry, status. split; [by apply (ext_objects _ _ E)|done].
Qed.

Lemma well_formed_same_caches (p q : process) :
  well_formed p -> extends p q ->
  vt_cache q = vt_cache p -> abuse_cache q = abuse_cache p ->
  well_formed q.
Proof.
  intros [Hv Ha] E Ev Ea. split; intros ip ref H.
  - rewrite Ev in H. apply (valid_ref_extends p q); [by apply (Hv ip)|done].
  - rewrite Ea in H. apply (valid_ref_extends p q); [by apply (Ha ip)|done].
Qed.

Lemma entry_of_known (ok_entry : body -> result dict) :
  (forall b entry, ok_entry b = inr entry ->
                   assoc "status" entry = Some (JStr "ok")) ->
  forall resp, exists status,
    assoc "status" (entry_of ok_entry resp) = Some (JStr status)
    /\ known_status status.
Proof.
  intros Hok [msg|code b]; simpl.
  - exists "error". split; [done|]. unfold known_status. tauto.
  - destruct (code =? 200)%Z.
    + destruct (ok_entry b) as [msg|entry] eqn:E.
      * exists "error". split; [done|]. unfold known_status. tauto.
      * exists "ok". split; [by apply (Hok b)|]. unfold known_status. tauto.
    + exists ("http_" ++ pretty code)%string. split; [done|].
      unfold known_status. do 4 right. by exists code.
Qed.

Lemma new_entry_valid (p : process) (entry : dict) (status : string)
    (va ab : gmap string nat) (s : list request) :
  assoc "status" entry = Some (JStr status) -> known_status status ->
  valid_ref (mkProcess (objects p ++ [entry]) va ab s) (length (objects p)).
Proof.
  intros Hs Hk. exists entry, status. split; [|done]. simpl.
  apply lookup_new.
Qed.

Lemma no_ip_valid (p : process) :
  let res := fst (new_dict [("status", JStr "no_ip")] p) in
  let p' := snd (new_dict [("status", JStr "no_ip")] p) in
  (well_formed p -> well_formed p') /\ valid_ref p' res.
Proof.
  cbv zeta. split.
  - intros Hwf. apply (well_formed_same_caches p); try done.
    apply new_dict_extends.
  - unfold new_dict. simpl. apply (new_entry_valid p _ "no_ip"); [done|].
    unfold known_status. tauto.
Qed.

Lemma vt_lookup_valid (env : string -> option string) (ip : string)
    (p : process) :
  well_formed p ->
  well_formed (snd (enrich_ip_with_virustotal net env ip p))
  /\ valid_ref (snd (enrich_ip_with_virustotal net env ip p))
               (fst (enrich_ip_with_virustotal net env ip p)).
Proof.
  intros Hwf. destruct (String.eqb ip "") eqn:Eip.
  - unfold enrich_ip_with_virustotal. rewrite Eip.
    destruct (no_ip_valid p) as [H1 H2]. split; [by apply H1|done].
  - apply String.eqb_neq in Eip.
    destruct (vt_cache p !! ip) as [res|] eqn:Ec.
    + rewrite (vt_hit net env ip p res Eip Ec). simpl.
      split; [done|]. by apply (proj1 Hwf ip).
    + pose proof (vt_extends net env ip p) as E.
      rewrite (vt_miss net env ip p Eip Ec) in E |- *. cbv zeta in *.
      assert (Hnew : forall entry s status,
                assoc "status" entry = Some (JStr status) ->
                known_status status ->
                extends p (mkProcess (objects p ++ [entry])
                             (abuse_cache p)
                             (<[ip := length (objects p)]> (vt_cache p)) s) ->
                well_formed (mkProcess (objects p ++ [entry])
                               (abuse_cache p)
                               (<[ip := length (objects p)]> (vt_cache p)) s)
                /\ valid_ref (mkProcess (objects p ++ [entry])
                                (abuse_cache p)
                                (<[ip := length (objects p)]> (vt_cache p)) s) (length (objects p))).
      { intros entry s status Hs Hk E'.
        assert (Hv : valid_ref (mkProcess (objects p ++ [entry])
                                  (abuse_cache p)
                                  (<[ip := length (objects p)]> (vt_cache p)) s) (length (objects p)))
          by (by apply (new_entry_valid p entry status)).
        split; [|done]. split; intros ip' ref H; simpl in H.
        - destruct (decide (ip' = ip)) as [->|Hne].
          + rewrite lookup_insert_eq in H. by injection H as <-.
          + rewrite lookup_insert_ne in H by done.
            apply (valid_ref_extends p); [by apply (proj1 Hwf ip')|done].
        - apply (valid_ref_extends p); [by apply (proj2 Hwf ip')|done]. }
      destruct (no_key (env "VT_API_KEY")); simpl in *.
      * apply (Hnew _ _ "no_key"); [done| |done].
        unfold known_status. tauto.
      * destruct (entry_of_known vt_ok vt_ok_status
                    (net (length (sent p))
                       (vt_request (key_of (env "VT_API_KEY")) ip)))
          as (status & Hs & Hk).
        by apply (Hnew _ _ status).
Qed.

Lemma abuse_lookup_valid (env : string -> option string) (ip : string)
    (p : process) :
  well_formed p ->
  well_formed (snd (enrich_ip_with_abuseipdb net env ip p))
  /\ valid_ref (snd (enrich_ip_with_abuseipdb net env ip p))
               (fst (enrich_ip_with_abuseipdb net env ip p)).
Proof.
  intros Hwf. destruct (String.eqb ip "") eqn:Eip.
  - unfold enrich_ip_with_abuseipdb. rewrite Eip.
    destruct (no_ip_valid p) as [H1 H2]. split; [by apply H1|done].
  - apply String.eqb_neq in Eip.
    destruct (abuse_cache p !! ip) as [res|] eqn:Ec.
    + rewrite (abuse_hit net env ip p res Eip Ec). simpl.
      split; [done|]. by apply (proj2 Hwf ip).
    + pose proof (abuse_extends net env ip p) as E.
      rewrite (abuse_miss net env ip p Eip Ec) in E |- *. cbv zeta in *.
      assert (Hnew : forall entry s status,
                assoc "status" entry = Some (JStr status) ->
                known_status status ->
                extends p (mkProcess (objects p ++ [entry])
                             (<[ip := length (objects p)]> (abuse_cache p))
                             (vt_cache p) s) ->
                well_formed (mkProcess (objects p ++ [entry])
                               (<[ip := length (objects p)]> (abuse_cache p))
                               (vt_cache p) s)
                /\ valid_ref (mkProcess (objects p ++ [entry])
                                (<[ip := length (objects p)]> (abuse_cache p))
                                (vt_cache p) s) (length (objects p))).
      { intros entry s status Hs Hk E'.
        assert (Hv : valid_ref (mkProcess (objects p ++ [entry])
                                  (<[ip := length (objects p)]> (abuse_cache p))
                                  (vt_cache p) s) (length (objects p)))
          by (by apply (new_entry_valid p entry status)).
        split; [|done]. split; intros ip' ref H; simpl in H.
        - apply (valid_ref_extends p); [by apply (proj1 Hwf ip')|done].
        - destruct (decide (ip' = ip)) as [->|Hne].
          + rewrite lookup_insert_eq in H. by injection H as <-.
          + rewrite lookup_insert_ne in H by done.
            apply (valid_ref_extends p); [by apply (proj2 Hwf ip')|done]. }
      destruct (no_key (env "ABUSEIPDB_API_KEY")); simpl in *.
      * apply (Hnew _ _ "no_key"); [done| |done].
        unfold known_status. tauto.
      * destruct (entry_of_known abuse_ok abuse_ok_status
                    (net (length (sent p))
                       (abuse_request (key_of (env "ABUSEIPDB_API_KEY")) ip)))
          as (status & Hs & Hk).
        by apply (Hnew _ _ status).
Qed.

Lemma fresh_process_well_formed : well_formed fresh_process.
Proof. split; intros ip ref H; simpl in H; by rewrite lookup_empty in H. Qed.

Lemma run_calls_well_formed (cs : list call) : forall p,
  well_formed p -> well_formed (run_calls net cs p).
Proof.
  unfold run_calls. induction cs as [|c cs IH]; intros p Hwf; simpl; [done|].
  apply IH. destruct c as [env ip|env ip]; simpl.
  - by apply abuse_lookup_valid.
  - by apply vt_lookup_valid.
Qed.

(** In every state that the process can reach from its start by lookups,
    every lookup at either provider, for any string (empty, cached or new)
    and whatever the network answers, returns a reference to an entry with a
    status, and the status is no_ip, no_key, ok, error or http_<code>. *)
Theorem lookups_return_entries (cs : list call)
    (env : string -> option string) (ip : string) :
  let p := run_calls net cs fresh_process in
  valid_ref (snd (enrich_ip_with_virustotal net env ip p))
            (fst (enrich_ip_with_virustotal net env ip p))
  /\ valid_ref (snd (enrich_ip_with_abuseipdb net env ip p))
               (fst (enrich_ip_with_abuseipdb net env ip p)).
Proof.
  cbv zeta.
  pose proof (run_calls_well_formed cs _ fresh_process_well_formed) as Hwf.
  split; [by apply vt_lookup_valid|by apply abuse_lookup_valid].
Qed.

End EntryValidity.

Section EnrichmentValidity.

Import Enrich Orchestrator.

Variable net : nat -> request -> reply.
Variable env : string -> option string.

Lemma cached_refs_In (cache : gmap string nat) (r : row) (f : string)
    (ref : nat) :
  In (f, ref) (cached_refs cache r) ->
  exists ip, lookup_ip r f = Some ip /\ cache !! ip = Some ref.
Proof.
  unfold cached_refs. intros H. apply list_elem_of_In in H.
  apply list_elem_of_omap in H as (g & _ & Hg).
  destruct (lookup_ip r g) as [ip|] eqn:E; [|done].
  destruct (cache !! ip) as [x|] eqn:Ec; [|done].
  simpl in Hg. injection Hg as -> ->. by exists ip.
Qed.

Lemma enrich_rows_well_formed (rows : list row) (p : process) :
  well_formed p -> well_formed (snd (enrich_rows net env rows p)).
Proof.
  apply (enrich_rows_invariant net env
           (fun p p' => well_formed p -> well_formed p') (fun _ => True)).
  - done.
  - auto.
  - intros ip q _ _ Hq. by apply vt_lookup_valid.
  - intros ip q _ _ Hq. by apply abuse_lookup_valid.
  - done.
Qed.

(** Every reference that the enrichment loop hands to the report leads to an
    entry with a known status, in any state that the process can have
    reached by lookups before the loop. *)
Theorem enrichment_entries_valid (cs : list call) (rows : list row) :
  let p := run_calls net cs fresh_process in
  let infos := fst (enrich_rows net env rows p) in
  let p' := snd (enrich_rows net env rows p) in
  forall info f ref,
    In info infos ->
    In (f, ref) (info_vt info) \/ In (f, ref) (info_abuse info) ->
    valid_ref p' ref.
Proof.
  cbv zeta. intros info f ref Hinfo Href.
  pose proof (run_calls_well_formed net cs _ fresh_process_well_formed) as Hwf.
  apply (enrich_rows_well_formed rows) in Hwf.
  destruct (enrich_rows_records net env rows (run_calls net cs fresh_process))
    as (Hi & _).
  rewrite Hi in Hinfo. apply in_map_iff in Hinfo as (r & <- & _).
  simpl in Href. destruct Href as [H|H];
    apply cached_refs_In in H as (ip & _ & Hc).
  - by apply (proj1 Hwf ip).
  - by apply (proj2 Hwf ip).
Qed.

(** The two providers keep apart.  A lookup at one provider leaves the cache
    of the other as it was; it sends at most one request, and that request
    goes to the provider's own address with the provider's own credential. *)
Theorem providers_keep_apart (ip : string) (p : process) :
  (vt_cache (snd (enrich_ip_with_abuseipdb net env ip p)) = vt_cache p
   /\ exists new,
        sent (snd (enrich_ip_with_abuseipdb net env ip p)) = sent p ++ new
        /\ (length new <= 1)%nat
        /\ List.Forall (fun req =>
                          url req = ABUSE_API
                          /\ headers req
                             = [ ("Key", key_of (env "ABUSEIPDB_API_KEY"));
                                 ("Accept", "application/json") ]) new)
  /\ (abuse_cache (snd (enrich_ip_with_virustotal net env ip p)) = abuse_cache p
      /\ exists new,
           sent (snd (enrich_ip_with_virustotal net env ip p)) = sent p ++ new
           /\ (length new <= 1)%nat
           /\ List.Forall (fun req =>
                             url req = (VT_API_prefix ++ ip)%string
                             /\ headers req
                                = [("x-apikey", key_of (env "VT_API_KEY"))])
                          new).
Proof.
  assert (Hnil : forall (P : request -> Prop) (q : process),
            exists new, sent q = sent q ++ new /\ (length new <= 1)%nat
                        /\ List.Forall P new).
  { intros P q. exists []. rewrite app_nil_r. split; [done|].
    split; [simpl; lia|constructor]. }
  destruct (String.eqb ip "") eqn:Eip.
  - unfold enrich_ip_with_abuseipdb, enrich_ip_with_virustotal.
    rewrite Eip. simpl. split; (split; [done|apply Hnil]).
  - apply String.eqb_neq in Eip. split.
    + destruct (abuse_cache p !! ip) as [res|] eqn:Ec.
      * rewrite (abuse_hit net env ip p res Eip Ec). simpl.
        split; [done|apply Hnil].
      * rewrite (abuse_miss net env ip p Eip Ec). cbv zeta.
        destruct (no_key (env "ABUSEIPDB_API_KEY")); simpl.
        -- split; [done|]. exists []. rewrite app_nil_r.
           split; [done|]. split; [simpl; lia|constructor].
        -- split; [done|]. eexists. split; [done|].
           split; [simpl; lia|]. by repeat constructor.
    + destruct (vt_cache p !! ip) as [res|] eqn:Ec.
      * rewrite (vt_hit net env ip p res Eip Ec). simpl.
        split; [done|apply Hnil].
      * rewrite (vt_miss net env ip p Eip Ec). cbv zeta.
        destruct (no_key (env "VT_API_KEY")); simpl.
        -- split; [done|]. exists []. rewrite app_nil_r.
           split; [done|]. split; [simpl; lia|constructor].
        -- split; [done|]. eexists. split; [done|].
           split; [simpl; lia|]. by repeat constructor.
Qed.

End EnrichmentValidity.

(** ** Feature aligner: a table aligned against its own columns *)

Section AlignOwnNames.

Import Align.

Lemma select_unique (cols : list (string * list cell)) (c : string * list cell) :
  NoDup (map fst cols) -> In c cols ->
  List.filter (same_label (fst c)) cols = [c].
Proof.
  induction cols as [|c0 cols IH]; intros Hnd Hin; [done|].
  simpl in Hnd. apply NoDup_cons in Hnd as [Hn Hnd].
  assert (Hrest : forall x, In x cols -> fst x <> fst c0).
  { intros x Hx E. apply Hn. rewrite <- E.
    apply list_elem_of_In. by apply in_map. }
  simpl. destruct Hin as [->|Hin].
  - unfold same_label at 1. rewrite String.eqb_refl. f_equal.
    apply filter_none. intros x Hx. unfold same_label.
    apply String.eqb_neq. by apply Hrest.
  - unfold same_label at 1.
    rewrite (proj2 (String.eqb_neq (fst c0) (fst c)));
      [by apply IH|].
    intros E. by apply (Hrest c Hin).
Qed.

(** Aligning a table whose column names are pairwise distinct against its
    own list of column names only replaces the missing values by 0: no column
    is added, dropped or moved. *)
Theorem align_features_own_names (X : DataFrame) :
  NoDup (names X) ->
  align_features X (names X) = Some (fillna (CInt 0) X).
Proof.
  intros Hnd. rewrite align_features_columns. unfold fillna. f_equal. f_equal.
  unfold names. rewrite flat_map_concat_map, map_map, <- flat_map_concat_map.
  rewrite (flat_map_ext_In _
             (fun c => [(fst c, fillna_series (CInt 0) (snd c))])).
  - induction (columns X) as [|c cols IH]; simpl; [done|]. by rewrite IH.
  - intros c Hc. unfold aligned_group, select.
    by rewrite (select_unique (columns X) c Hnd Hc).
Qed.

End AlignOwnNames.

Lemma align_features_own_names_witness :
  NoDup (names Align.sample_features)
  /\ Align.align_features Align.sample_features (names Align.sample_features)
     = Some (Align.fillna (CInt 0) Align.sample_features).
Proof.
  assert (H : NoDup (names Align.sample_features))
    by (apply (bool_decide_unpack _); vm_compute; exact I).
  split; [exact H|].
  exact (align_features_own_names Align.sample_features H).
Defined.

(** ** Feature extractor: distinct addresses, distinct numbers *)

Section QuadInjective.

Import Features.
Local Open Scope Z_scope.

(** Two dotted quads with the same address number have the same octets. *)
Theorem ip_to_int_quad_injective (a b c d a' b' c' d' : Z) :
  0 <= a <= 255 -> 0 <= b <= 255 -> 0 <= c <= 255 -> 0 <= d <= 255 ->
  0 <= a' <= 255 -> 0 <= b' <= 255 -> 0 <= c' <= 255 -> 0 <= d' <= 255 ->
  ip_to_int
    (CStr (pretty a ++ "." ++ pretty b ++ "." ++ pretty c ++ "." ++ pretty d)%string)
  = ip_to_int
      (CStr (pretty a' ++ "." ++ pretty b' ++ "." ++ pretty c' ++ "."
             ++ pretty d')%string) ->
  a = a' /\ b = b' /\ c = c' /\ d = d'.
Proof.
  intros Ha Hb Hc Hd Ha' Hb' Hc' Hd'. unfold ip_to_int. simpl.
  rewrite (dotted_quad_parsed a b c d), (dotted_quad_parsed a' b' c' d')
    by done.
  simpl. change (2 ^ 24) with 16777216. change (2 ^ 16) with 65536.
  change (2 ^ 8) with 256. lia.
Qed.

End QuadInjective.

Lemma ip_to_int_quad_injective_witness :
  (0 <= 10 <= 255)%Z /\ (0 <= 0 <= 255)%Z /\ (0 <= 5 <= 255)%Z
  /\ Features.ip_to_int
       (CStr (pretty 10%Z ++ "." ++ pretty 0%Z ++ "." ++ pretty 0%Z ++ "."
              ++ pretty 5%Z)%string)
     = Features.ip_to_int
         (CStr (pretty 10%Z ++ "." ++ pretty 0%Z ++ "." ++ pretty 0%Z ++ "."
                ++ pretty 5%Z)%string)
  /\ (10 = 10 /\ 0 = 0 /\ 0 = 0 /\ 5 = 5)%Z.
Proof.
  assert (H10 : (0 <= 10 <= 255)%Z) by lia.
  assert (H0 : (0 <= 0 <= 255)%Z) by lia.
  assert (H5 : (0 <= 5 <= 255)%Z) by lia.
  split; [exact H10|]. split; [exact H0|]. split; [exact H5|].
  split; [reflexivity|].
  exact (ip_to_int_quad_injective 10 0 0 5 10 0 0 5
           H10 H0 H0 H5 H10 H0 H0 H5 eq_refl).
Defined.

(** ** Schema canonicalizer on the store: what is shared, what is new *)

Section HeapCanonFacts.

Import Heap HeapCanon.
Local Open Scope heap_scope.

Lemma rename_inplace_last (h : heap) (d : DataFrame) (f : string -> string) :
  rename_inplace (length h) f (h ++ [d]) = Some (tt, h ++ [rename_with f d]).
Proof.
  unfold rename_inplace.
  rewrite (bind_run _ _ _ _ _ (read_run _ _ _ (lookup_last h d))).
  unfold write. by rewrite insert_last.
Qed.

Lemma for_each_alias (al : list (string * string)) :
  forall (h : heap) (d : DataFrame),
    for_each al (fun entry =>
                   let! d := read (length h) in
                   if has_column (fst entry) d && negb (has_column (snd entry) d)
                   then rename_inplace (length h)
                          (fun n => if String.eqb n (fst entry)
                                    then snd entry else n)
                   else ret tt) (h ++ [d])
    = Some (tt, h ++ [fold_left Canon.alias_step al d]).
Proof.
  induction al as [|[a t] al IH]; intros h d; [done|].
  cbn [for_each fold_left].
  erewrite bind_run; [apply IH|].
  rewrite (bind_run _ _ _ _ _ (read_run _ _ _ (lookup_last h d))).
  unfold Canon.alias_step. cbn [fst snd].
  destruct (has_column a d && negb (has_column t d)).
  - apply rename_inplace_last.
  - done.
Qed.

(** [canonicalize_columns] on the store.  The frame passed in is never
    changed, nor is any other frame of the store.  For an empty frame the
    function returns the very object it was given and allocates nothing; for
    any other frame it returns a new object, which holds the canonicalized
    table. *)
Theorem canonicalize_on_store (h : heap) (X : loc) (df : DataFrame) :
  h !! X = Some df ->
  exists (res : loc) (h' : heap),
    HeapCanon.canonicalize_columns X h = Some (res, h')
    /\ h' !! X = Some df
    /\ (forall l d, h !! l = Some d -> h' !! l = Some d)
    /\ h' !! res = Some (Canon.canonicalize_columns df)
    /\ (df_empty df = true -> res = X /\ h' = h)
    /\ (df_empty df = false -> h !! res = None /\ res <> X).
Proof.
  intros HX. unfold HeapCanon.canonicalize_columns.
  rewrite (bind_run _ _ _ _ _ (read_run _ _ _ HX)).
  unfold Canon.canonicalize_columns, Canon.apply_aliases.
  destruct (df_empty df) eqn:Hne.
  - exists X, h. repeat split; try done.
  - exists (length h),
           (h ++ [fold_left Canon.alias_step Canon.ALIASES
                    (rename_with Canon.normalize df)]).
    split; [|split; [|split; [|split; [|split]]]].
    + rewrite (bind_run _ _ _ _ _ (copy_run _ _ _ HX)).
      rewrite (bind_run _ _ _ _ _ (rename_inplace_last h df Canon.normalize)).
      by rewrite (bind_run _ _ _ _ _ (for_each_alias Canon.ALIASES h _)).
    + unfold heap, loc in *. rewrite lookup_app_l; [done|].
      by apply lookup_lt_Some in HX.
    + intros l d Hl. unfold heap, loc in *. rewrite lookup_app_l; [done|].
      by apply lookup_lt_Some in Hl.
    + apply lookup_last.
    + done.
    + intros _. split.
      * unfold heap, loc in *. by apply lookup_ge_None_2.
      * apply lookup_lt_Some in HX. unfold heap, loc in *. lia.
Qed.

End HeapCanonFacts.

Lemma canonicalize_on_store_witness :
  [Canon.alias_only] !! 0%nat = Some Canon.alias_only
  /\ exists (res : Heap.loc) (h' : Heap.heap),
      HeapCanon.canonicalize_columns 0%nat [Canon.alias_only] = Some (res, h')
      /\ h' !! 0%nat = Some Canon.alias_only
      /\ (forall l d, [Canon.alias_only] !! l = Some d -> h' !! l = Some d)
      /\ h' !! res = Some (Canon.canonicalize_columns Canon.alias_only)
      /\ (df_empty Canon.alias_only = true ->
          res = 0%nat /\ h' = [Canon.alias_only])
      /\ (df_empty Canon.alias_only = false ->
          [Canon.alias_only] !! res = None /\ res <> 0%nat).
Proof.
  split; [reflexivity|].
  exact (canonicalize_on_store [Canon.alias_only] 0%nat Canon.alias_only
           eq_refl).
Defined.

Example canonicalize_store_sample :
  HeapCanon.canonicalize_columns 0%nat [Canon.alias_only]
  = Some (1%nat,
          [ Canon.alias_only;
            mkDF 2 [ ("source_ip", [CStr "10.0.0.5"; CStr "8.8.8.8"]);
                     ("note", [CNull; CStr "x"]) ] ])
  /\ HeapCanon.canonicalize_columns 0%nat [mkDF 0 [("Src IP", [])]]
     = Some (0%nat, [mkDF 0 [("Src IP", [])]]).
Proof. vm_compute. split; reflexivity. Qed.

(** ** The report on a table labelled by the ladder *)

Section LabelledReport.

Import Report.

Lemma label_of_risk_three (risk : float) :
  Risk.label_of_risk risk = "malicious"
  \/ Risk.label_of_risk risk = "suspicious"
  \/ Risk.label_of_risk risk = "benign".
Proof.
  unfold Risk.label_of_risk.
  destruct (PrimFloat.leb _ risk); [by left|].
  destruct (PrimFloat.leb _ risk); [right; by left|right; by right].
Qed.

(** When the classification column of the reported table is the list of
    labels that the labelling loop produced, the three numbers of the report
    summary add up to the number of alerts: every analysed alert is counted
    in exactly one class, whatever the probabilities were. *)
Theorem report_counts_labelled (alerts_df : DataFrame)
    (probs : list (float * list float)) :
  rectangular alerts_df ->
  getitem (Canon.canonicalize_columns alerts_df) "classification"
  = Series (map CStr (snd (Risk.label_rows probs))) ->
  exists n_mal n_sus n_ben,
    summary_counts alerts_df = Counts (index_len alerts_df) n_mal n_sus n_ben
    /\ (n_mal + n_sus + n_ben = index_len alerts_df)%nat
    /\ index_len alerts_df = length probs.
Proof.
  intros Hrect Hcls.
  destruct (data_canonicalize alerts_df) as [_ Hi].
  pose proof (rectangular_canonicalize alerts_df Hrect) as Hc.
  assert (Hlen : length (map CStr (snd (Risk.label_rows probs)))
                 = index_len alerts_df).
  { unfold getitem in Hcls.
    destruct (select "classification" (Canon.canonicalize_columns alerts_df))
      as [|c [|c' cs]] eqn:E; try discriminate.
    assert (Hc' : snd c = map CStr (snd (Risk.label_rows probs)))
      by congruence.
    rewrite <- Hc', <- Hi.
    unfold rectangular in Hc. rewrite List.Forall_forall in Hc. apply Hc.
    assert (Hin : In c (select "classification"
                          (Canon.canonicalize_columns alerts_df)))
      by (rewrite E; by left).
    unfold select in Hin. by apply filter_In in Hin as [? _]. }
  unfold summary_counts. cbv zeta. rewrite Hcls. unfold df_len. rewrite Hi.
  eexists _, _, _. split; [reflexivity|]. split.
  - rewrite <- Hlen. apply count_eq_sum.
    apply List.Forall_forall. intros c Hin.
    apply in_map_iff in Hin as (l & <- & Hl).
    unfold Risk.label_rows in Hl. simpl in Hl.
    apply in_map_iff in Hl as (r & <- & _).
    destruct (label_of_risk_three r) as [-> | [-> | ->]]; auto.
  - rewrite <- Hlen. unfold Risk.label_rows. simpl.
    by rewrite !length_map.
Qed.

End LabelledReport.

Lemma report_counts_labelled_witness :
  rectangular (mkDF 2 [ ("src", [CStr "10.0.0.5"; CNull]);
                        ("classification", [CStr "malicious"; CStr "benign"]) ])
  /\ getitem (Canon.canonicalize_columns
                (mkDF 2 [ ("src", [CStr "10.0.0.5"; CNull]);
                          ("classification",
                           [CStr "malicious"; CStr "benign"]) ]))
             "classification"
     = Series (map CStr (snd (Risk.label_rows
                                [ (0.1%float, [0.9%float]);
                                  (0.4%float, [0.3%float; 0.3%float]) ])))
  /\ exists n_mal n_sus n_ben,
       Report.summary_counts
         (mkDF 2 [ ("src", [CStr "10.0.0.5"; CNull]);
                   ("classification", [CStr "malicious"; CStr "benign"]) ])
       = Report.Counts
           (index_len
              (mkDF 2 [ ("src", [CStr "10.0.0.5"; CNull]);
                        ("classification",
                         [CStr "malicious"; CStr "benign"]) ]))
           n_mal n_sus n_ben
       /\ (n_mal + n_sus + n_ben
           = index_len
               (mkDF 2 [ ("src", [CStr "10.0.0.5"; CNull]);
                         ("classification",
                          [CStr "malicious"; CStr "benign"]) ]))%nat
       /\ index_len
            (mkDF 2 [ ("src", [CStr "10.0.0.5"; CNull]);
                      ("classification", [CStr "malicious"; CStr "benign"]) ])
          = length [ (0.1%float, [0.9%float]);
                     (0.4%float, [0.3%float; 0.3%float]) ].
Proof.
  assert (H1 : rectangular
                 (mkDF 2 [ ("src", [CStr "10.0.0.5"; CNull]);
                           ("classification",
                            [CStr "malicious"; CStr "benign"]) ]))
    by (repeat constructor).
  assert (H2 : getitem (Canon.canonicalize_columns
                          (mkDF 2 [ ("src", [CStr "10.0.0.5"; CNull]);
                                    ("classification",
                                     [CStr "malicious"; CStr "benign"]) ]))
                       "classification"
               = Series (map CStr (snd (Risk.label_rows
                                          [ (0.1%float, [0.9%float]);
                                            (0.4%float,
                                             [0.3%float; 0.3%float]) ]))))
    by (vm_compute; reflexivity).
  split; [exact H1|]. split; [exact H2|].
  exact (report_counts_labelled _ _ H1 H2).
Defined.

(** ** Label codes *)

Section LabelCodes.

Import Labels.
Local Open Scope Z_scope.

(** The codes of the trainer and the names of the predictor agree.  Every
    cell of the label column is encoded as 0, 1 or 2; each of the three label
    names is encoded as the code that the predictor's [LABELS] and the
    trainer's [INV_LABEL_MAP] decode back to that name; and everything else
    (another string, a number, a missing value) is encoded as 0, the code of
    benign. *)
Theorem label_codes_round_trip (label : cell) :
  0 <= encode_label label <= 2
  /\ (forall name, label = CStr name -> In name LABELS ->
        decode_index (encode_label label) = Some name
        /\ dict_get Z.eqb INV_LABEL_MAP (encode_label label) = Some name)
  /\ ((forall name, label = CStr name -> ~ In name LABELS) ->
      encode_label label = 0
      /\ decode_index (encode_label label) = Some "benign"%string).
Proof.
  split; [|split].
  - destruct label as [s| | |]; try (cbn; lia).
    unfold encode_label, LABEL_MAP, dict_get.
    destruct (String.eqb "benign" s); [lia|].
    destruct (String.eqb "suspicious" s); [lia|].
    destruct (String.eqb "malicious" s); lia.
  - intros name -> Hin. simpl in Hin.
    destruct Hin as [<-|[<-|[<-|[]]]]; by vm_compute.
  - intros H. destruct label as [s| | |]; try (by vm_compute).
    specialize (H s eq_refl). unfold LABELS in H. cbn [In] in H.
    unfold encode_label, LABEL_MAP, dict_get.
    destruct (String.eqb "benign" s) eqn:E1;
      [apply String.eqb_eq in E1; tauto|].
    destruct (String.eqb "suspicious" s) eqn:E2;
      [apply String.eqb_eq in E2; tauto|].
    destruct (String.eqb "malicious" s) eqn:E3;
      [apply String.eqb_eq in E3; tauto|].
    split; reflexivity.
Qed.

End LabelCodes.

Lemma enrichment_entries_valid_witness :
  let info :=
    Orchestrator.mkRowInfo (CStr "10.0.0.5") (CStr "8.8.8.8")
      [("source_ip", 0%nat); ("destination_ip", 2%nat)]
      [("source_ip", 1%nat); ("destination_ip", 3%nat)] in
  In info
     (fst (Orchestrator.enrich_rows Enrich.refusing Enrich.some_env
             Orchestrator.sample_alerts
             (Enrich.run_calls Enrich.refusing [] Enrich.fresh_process)))
  /\ (In ("destination_ip", 2%nat) (Orchestrator.info_vt info)
      \/ In ("destination_ip", 2%nat) (Orchestrator.info_abuse info))
  /\ Orchestrator.valid_ref
       (snd (Orchestrator.enrich_rows Enrich.refusing Enrich.some_env
               Orchestrator.sample_alerts
               (Enrich.run_calls Enrich.refusing [] Enrich.fresh_process)))
       2%nat.
Proof.
  cbv zeta.
  assert (H1 : In (Orchestrator.mkRowInfo (CStr "10.0.0.5") (CStr "8.8.8.8")
                     [("source_ip", 0%nat); ("destination_ip", 2%nat)]
                     [("source_ip", 1%nat); ("destination_ip", 3%nat)])
                  (fst (Orchestrator.enrich_rows Enrich.refusing Enrich.some_env
                          Orchestrator.sample_alerts
                          (Enrich.run_calls Enrich.refusing []
                             Enrich.fresh_process))))
    by (vm_compute; left; reflexivity).
  assert (H2 : In ("destination_ip", 2%nat)
                  (Orchestrator.info_vt
                     (Orchestrator.mkRowInfo (CStr "10.0.0.5") (CStr "8.8.8.8")
                        [("source_ip", 0%nat); ("destination_ip", 2%nat)]
                        [("source_ip", 1%nat); ("destination_ip", 3%nat)]))
               \/ In ("destination_ip", 2%nat)
                    (Orchestrator.info_abuse
                       (Orchestrator.mkRowInfo (CStr "10.0.0.5") (CStr "8.8.8.8")
                          [("source_ip", 0%nat); ("destination_ip", 2%nat)]
                          [("source_ip", 1%nat); ("destination_ip", 3%nat)])))
    by (left; right; left; reflexivity).
  split; [exact H1|]. split; [exact H2|].
  exact (enrichment_entries_valid Enrich.refusing Enrich.some_env []
           Orchestrator.sample_alerts _ "destination_ip" 2%nat H1 H2).
Defined.
